(** * Contextual bit-vector bounds simplification (src/tactic/bv/bv_bounds_tactic.cpp)

    A shallow embedding of the [interval] value type, of the bound
    extractor [is_bound] and of the [bv_bounds_simplifier] context
    (bound map, undo stack, memo tables), followed by the properties
    established about them. *)

From Stdlib Require Import ZArith Lia Bool List.
From stdpp Require Import base option countable gmap sets list.

Set Warnings "-register-all".

Local Open Scope Z_scope.

(** ** Machine arithmetic *)

(** [uint64_t] values are integers in [0, 2^64); arithmetic on them wraps. *)
Definition wrap64 (x : Z) : Z := x mod 2 ^ 64.

Definition ULLONG_MAX : Z := 2 ^ 64 - 1.

(** [unsigned] values (32 bits) wrap the same way. *)
Definition wrap32 (x : Z) : Z := x mod 2 ^ 32.

(** [uMaxInt(sz) = ULLONG_MAX >> (64u - sz)].  The source asserts
    [sz <= 64]; for [sz = 0] the shift count is 64, which C++ leaves
    undefined, so the properties below are stated for widths 1..64. *)
Definition uMaxInt (sz : Z) : Z := Z.shiftr ULLONG_MAX (wrap32 (64 - sz)).

(** ** The interval struct *)

Record interval : Type := mk_interval {
  l : Z;          (* uint64_t *)
  h : Z;          (* uint64_t *)
  sz : Z;         (* unsigned *)
  tight : bool
}.

Definition is_wrapped (i : interval) : bool := h i <? l i.

Definition is_full (i : interval) : bool :=
  (l i =? 0) && (h i =? uMaxInt (sz i)).

Definition is_singleton (i : interval) : bool := l i =? h i.

Definition invariant (i : interval) : bool :=
  (l i <=? uMaxInt (sz i)) && (h i <=? uMaxInt (sz i)) &&
  (negb (is_wrapped i) || negb (l i =? wrap64 (h i + 1))).

(** The four-argument constructor: it stores its arguments and then
    canonicalizes the wrapped representation of the full set. *)
Definition interval_ctor (l0 h0 sz0 : Z) (tight0 : bool) : interval :=
  if (h0 <? l0) && (l0 =? wrap64 (h0 + 1))
  then mk_interval 0 (uMaxInt sz0) sz0 tight0
  else mk_interval l0 h0 sz0 tight0.

(** [operator==]: the widths are asserted equal and not compared. *)
Definition interval_eqb (a b : interval) : bool :=
  (l a =? l b) && (h a =? h b) && eqb (tight a) (tight b).

Definition implies (a b : interval) : bool :=
  if is_full b then true
  else if is_full a then false
  else if is_wrapped a then
    is_wrapped b && (h a <=? h b) && (l b <=? l a)
  else if is_wrapped b then
    (h a <=? h b) || (l b <=? l a)
  else
    (l b <=? l a) && (h a <=? h b).

(** [intersect] calls itself once with the operands swapped when [this]
    is wrapped and [b] is not.  The recursion is driven by a fuel
    argument; [None] means the fuel ran out, [Some None] is the source's
    [return false] (unsatisfiable), [Some (Some r)] is [return true] with
    [result = r]. *)
Fixpoint intersect_fuel (fuel : nat) (a b : interval) : option (option interval) :=
  match fuel with
  | O => None
  | S fuel' =>
    if is_full a || interval_eqb a b then Some (Some b)
    else if is_full b then Some (Some a)
    else if is_wrapped a then
      if is_wrapped b then
        if l b <=? h a then Some (Some b)
        else if l a <=? h b then Some (Some a)
        else Some (Some (interval_ctor (Z.max (l a) (l b)) (Z.min (h a) (h b)) (sz a) false))
      else intersect_fuel fuel' b a
    else if is_wrapped b then
      if (h a <? l b) && (h b <? l a) then Some None
      else if (l b <=? h a) && (l a <=? h b) then Some (Some b)
      else if l b <=? h a then Some (Some (interval_ctor (l b) (h a) (sz a) false))
      else Some (Some (interval_ctor (l a) (Z.min (h a) (h b)) (sz a) false))
    else
      if (h b <? l a) || (h a <? l b) then Some None
      else Some (Some (interval_ctor (Z.max (l a) (l b)) (Z.min (h a) (h b)) (sz a)
                                     (tight a && tight b)))
  end.

(** Two levels always suffice (see [intersect_fuel_enough]). *)
Definition intersect (a b : interval) : option interval :=
  match intersect_fuel 2 a b with
  | Some r => r
  | None => None
  end.

(** [negate]: [None] is the source's [return false] (empty negation).
    In the non-tight branch the source writes
    [interval(0, uMaxInt(sz), true)]: the third constructor argument is
    the width, so [true] is converted to width 1 and [tight] takes its
    default [false]. *)
Definition negate (i : interval) : option interval :=
  if negb (tight i) then
    Some (interval_ctor 0 (uMaxInt (sz i)) 1 false)
  else if is_full i then None
  else if l i =? 0 then
    Some (interval_ctor (wrap64 (h i + 1)) (uMaxInt (sz i)) (sz i) false)
  else if uMaxInt (sz i) =? h i then
    Some (interval_ctor 0 (wrap64 (l i - 1)) (sz i) false)
  else
    Some (interval_ctor (wrap64 (h i + 1)) (wrap64 (l i - 1)) (sz i) false).

(** The set of values an interval denotes, as documented on the struct:
    [l <= h] is the range [l, h]; [l > h] is [0, h] U [l, UMAX_INT]. *)
Definition contains (i : interval) (v : Z) : Prop :=
  if is_wrapped i
  then (0 <= v <= h i) \/ (l i <= v <= uMaxInt (sz i))
  else l i <= v <= h i.

(** ** Terms *)

(** Modelled from the spec: the expression graph ([expr], [app],
    [ast_manager], [bv_util]) is declared outside this file.  Section 6
    of the specification asks of it identity-stable subexpression
    references, a structural decomposition into operator kind and operand
    list that recognizes the three atom shapes and numeral literals, and
    sort and width queries.  Terms are hash-consed, so pointer identity
    is structural equality.  Every term handled here is an application
    (a numeral is an application without operands whose declaration
    carries the value and the width); quantifiers and bound variables are
    left out, [expr_has_bounds] casting its argument with [to_app]
    unconditionally. *)
Inductive sort : Type :=
| Bool_sort
| BV_sort (n : Z)
| Other_sort (k : nat).

Inductive func_decl : Type :=
| OP_TRUE
| OP_FALSE
| OP_EQ
| OP_NOT
| OP_ULEQ
| OP_SLEQ
| OP_BV_NUM (r : Z) (n : Z)
| OP_OTHER (name : nat) (range : sort).

Inductive expr : Type :=
| App (d : func_decl) (args : list expr).

#[global] Instance sort_eq_dec : EqDecision sort.
Proof. solve_decision. Defined.

#[global] Instance func_decl_eq_dec : EqDecision func_decl.
Proof. solve_decision. Defined.

#[global] Instance sort_countable : Countable sort.
Proof.
  refine (inj_countable'
    (fun s => match s with
              | Bool_sort => inl (inl tt)
              | BV_sort n => inl (inr n)
              | Other_sort k => inr k
              end)
    (fun c => match c with
              | inl (inl _) => Bool_sort
              | inl (inr n) => BV_sort n
              | inr k => Other_sort k
              end) _).
  intros []; reflexivity.
Defined.

#[global] Instance func_decl_countable : Countable func_decl.
Proof.
  refine (inj_countable'
    (fun d => match d with
              | OP_TRUE => inl (inl 0%nat)
              | OP_FALSE => inl (inl 1%nat)
              | OP_EQ => inl (inl 2%nat)
              | OP_NOT => inl (inl 3%nat)
              | OP_ULEQ => inl (inl 4%nat)
              | OP_SLEQ => inl (inl 5%nat)
              | OP_BV_NUM r n => inl (inr (r, n))
              | OP_OTHER name range => inr (name, range)
              end)
    (fun c => match c with
              | inl (inl 0%nat) => OP_TRUE
              | inl (inl 1%nat) => OP_FALSE
              | inl (inl 2%nat) => OP_EQ
              | inl (inl 3%nat) => OP_NOT
              | inl (inl 4%nat) => OP_ULEQ
              | inl (inl _) => OP_SLEQ
              | inl (inr (r, n)) => OP_BV_NUM r n
              | inr (name, range) => OP_OTHER name range
              end) _).
  intros []; reflexivity.
Defined.

(** Induction on terms that also covers the operands. *)
Lemma expr_ind_args (P : expr -> Prop) :
  (forall d args, Forall P args -> P (App d args)) ->
  forall t, P t.
Proof.
  intros IH.
  fix rec 1.
  intros [d args]. apply IH.
  induction args as [|a args IHargs]; constructor.
  - apply rec.
  - exact IHargs.
Qed.

Fixpoint expr_eqb (x y : expr) : bool :=
  match x, y with
  | App d1 a1, App d2 a2 =>
    bool_decide (d1 = d2) &&
    (fix args_eqb (xs ys : list expr) : bool :=
       match xs, ys with
       | [], [] => true
       | x' :: xs', y' :: ys' => expr_eqb x' y' && args_eqb xs' ys'
       | _, _ => false
       end) a1 a2
  end.

Lemma expr_eqb_spec (x y : expr) : expr_eqb x y = true <-> x = y.
Proof.
  revert y. induction x as [d1 a1 IH] using expr_ind_args.
  intros [d2 a2]. simpl. rewrite andb_true_iff, bool_decide_eq_true.
  assert (Hargs : forall ys,
    (fix args_eqb (xs ys : list expr) : bool :=
       match xs, ys with
       | [], [] => true
       | x' :: xs', y' :: ys' => expr_eqb x' y' && args_eqb xs' ys'
       | _, _ => false
       end) a1 ys = true <-> a1 = ys).
  { induction IH as [|x xs Hx _ IHxs]; intros [|y ys]; try (split; [discriminate | congruence]).
    - tauto.
    - rewrite andb_true_iff, Hx, IHxs. split; [intros [-> ->]; reflexivity | intros [= -> ->]; tauto]. }
  rewrite Hargs. split; [intros [-> ->]; reflexivity | intros [= -> ->]; tauto].
Qed.

#[global] Instance expr_eq_dec : EqDecision expr.
Proof.
  intros x y. destruct (expr_eqb x y) eqn:E.
  - left. apply expr_eqb_spec, E.
  - right. intros Heq. apply expr_eqb_spec in Heq. congruence.
Defined.

Fixpoint expr_to_tree (t : expr) : gen_tree func_decl :=
  match t with
  | App d args => GenNode 0 (GenLeaf d :: map expr_to_tree args)
  end.

Fixpoint tree_to_expr (g : gen_tree func_decl) : expr :=
  match g with
  | GenNode _ (GenLeaf d :: gs) => App d (map tree_to_expr gs)
  | _ => App OP_TRUE []
  end.

Lemma tree_to_expr_to_tree (t : expr) : tree_to_expr (expr_to_tree t) = t.
Proof.
  induction t as [d args IH] using expr_ind_args. simpl. f_equal.
  induction IH as [|a args Ha _ IHargs]; simpl; [reflexivity | congruence].
Qed.

#[global] Instance expr_countable : Countable expr :=
  inj_countable' expr_to_tree tree_to_expr tree_to_expr_to_tree.

(** *** Recognizers and constructors of the term provider *)

(** Modelled from the spec: the recognizers ([is_numeral], [is_bv_ule],
    [is_bv_sle], [is_eq], [is_not]), the sort queries ([get_sort],
    [is_bool], [get_bv_size]) and the constructors ([mk_true],
    [mk_false], [mk_not], [mk_eq], [mk_numeral]) of [ast_manager] and
    [bv_util], none of which is under src/.  The binary recognizers
    match applications with exactly two operands, [is_not] with one.

    [m_bv.is_numeral(e, r, sz)]: value and width of a numeral. *)
Definition is_numeral (e : expr) : option (Z * Z) :=
  match e with
  | App (OP_BV_NUM r n) _ => Some (r, n)
  | _ => None
  end.

(** [m_bv.is_numeral(e)]. *)
Definition is_numeral_b (e : expr) : bool :=
  match is_numeral e with
  | Some _ => true
  | None => false
  end.

Definition is_bv_ule (e : expr) : option (expr * expr) :=
  match e with
  | App OP_ULEQ [lhs; rhs] => Some (lhs, rhs)
  | _ => None
  end.

Definition is_bv_sle (e : expr) : option (expr * expr) :=
  match e with
  | App OP_SLEQ [lhs; rhs] => Some (lhs, rhs)
  | _ => None
  end.

Definition is_eq (e : expr) : option (expr * expr) :=
  match e with
  | App OP_EQ [lhs; rhs] => Some (lhs, rhs)
  | _ => None
  end.

Definition is_not (e : expr) : option expr :=
  match e with
  | App OP_NOT [a] => Some a
  | _ => None
  end.

Definition get_sort (e : expr) : sort :=
  match e with
  | App (OP_BV_NUM _ n) _ => BV_sort n
  | App (OP_OTHER _ range) _ => range
  | App _ _ => Bool_sort
  end.

Definition is_bool (e : expr) : bool := bool_decide (get_sort e = Bool_sort).

(** [m_bv.get_bv_size(t)]; only asked of bit-vector terms. *)
Definition get_bv_size (e : expr) : Z :=
  match get_sort e with
  | BV_sort n => n
  | _ => 0
  end.

Definition mk_true : expr := App OP_TRUE [].
Definition mk_false : expr := App OP_FALSE [].
Definition mk_not (e : expr) : expr := App OP_NOT [e].
Definition mk_eq (a b : expr) : expr := App OP_EQ [a; b].
Definition mk_numeral (r n : Z) : expr := App (OP_BV_NUM r n) [].
Definition mk_ule (a b : expr) : expr := App OP_ULEQ [a; b].
Definition mk_sle (a b : expr) : expr := App OP_SLEQ [a; b].

(** The loop [while (m.is_not(t, t)) sign = !sign;]. *)
Fixpoint strip_not (t : expr) (sign : bool) : expr * bool :=
  match t with
  | App OP_NOT [a] => strip_not a (negb sign)
  | _ => (t, sign)
  end.

(** ** The bound extractor *)

(** [is_number]: a numeral of width at most 64, read as a [uint64_t]
    ([r.get_uint64()]; the value of a width-[sz] numeral is below
    [2^sz]). *)
Definition is_number (e : expr) : option (Z * Z) :=
  match is_numeral e with
  | Some (r, n) => if n <=? 64 then Some (r, n) else None
  | None => None
  end.

(** [1ull << (sz - 1)], with the [unsigned] subtraction and the 64-bit
    shift written out. *)
Definition sign_bit (n : Z) : Z := wrap64 (Z.shiftl 1 (wrap32 (n - 1))).

(** [is_bound]: [Some (v, b)] is [return true] with the outputs [v] and
    [b]. *)
Definition is_bound (e : expr) : option (expr * interval) :=
  match is_bv_ule e with
  | Some (lhs, rhs) =>
    match is_number lhs with
    | Some (n, w) =>                         (* C ule x <=> x uge C *)
      if is_numeral_b rhs then None
      else Some (rhs, interval_ctor n (uMaxInt w) w true)
    | None =>
      match is_number rhs with
      | Some (n, w) =>                       (* x ule C *)
        Some (lhs, interval_ctor 0 n w true)
      | None => None
      end
    end
  | None =>
    match is_bv_sle e with
    | Some (lhs, rhs) =>
      match is_number lhs with
      | Some (n, w) =>                       (* C sle x <=> x sge C *)
        if is_numeral_b rhs then None
        else Some (rhs, interval_ctor n (wrap64 (sign_bit w - 1)) w true)
      | None =>
        match is_number rhs with
        | Some (n, w) =>                     (* x sle C *)
          Some (lhs, interval_ctor (sign_bit w) n w true)
        | None => None
        end
      end
    | None =>
      match is_eq e with
      | Some (lhs, rhs) =>
        match is_number lhs with
        | Some (n, w) =>
          if is_numeral_b rhs then None
          else Some (rhs, interval_ctor n n w true)
        | None =>
          match is_number rhs with
          | Some (n, w) => Some (lhs, interval_ctor n n w true)
          | None => None
          end
        end
      | None => None
      end
    end
  end.

(** ** The simplifier context *)

(** An undo record.  A record for a fresh entry is built from the default
    constructor [interval()], whose fields are not initialised and never
    read: it is [None] here. *)
Record undo_bound : Type := mk_undo_bound {
  undo_e : expr;
  undo_b : option interval;
  undo_fresh : bool
}.

Record bv_bounds_simplifier : Type := mk_simplifier {
  m_propagate_eq : bool;
  m_scopes : list undo_bound;
  m_bound : gmap expr interval;
  m_expr_vars : gmap expr (gset expr);
  m_bound_exprs : gmap expr bool
}.

(** A freshly constructed simplifier (also what [translate] returns). *)
Definition init (propagate_eq : bool) : bv_bounds_simplifier :=
  mk_simplifier propagate_eq [] ∅ ∅ ∅.

Definition set_bounds (s : bv_bounds_simplifier)
    (scopes : list undo_bound) (bound : gmap expr interval) : bv_bounds_simplifier :=
  mk_simplifier (m_propagate_eq s) scopes bound (m_expr_vars s) (m_bound_exprs s).

Definition scope_level (s : bv_bounds_simplifier) : nat := length (m_scopes s).

(** Result of a call that may run into a failed [VERIFY]. *)
Inductive outcome (A : Type) : Type :=
| Returned (a : A)
| VerifyFailed.
Arguments Returned {A} a.
Arguments VerifyFailed {A}.

Section Assert.

(** The [VERIFY] macro is defined outside this file.  It evaluates its
    argument; [verify_checked] tells whether the build stops when the
    argument is false (a checked build) or carries on. *)
Variable verify_checked : bool.

(** The statement [if (sign) VERIFY(b.negate(b));].  When [negate]
    returns false it has not written its result, so [b] is unchanged. *)
Definition apply_sign (sign : bool) (b : interval) : outcome interval :=
  if sign then
    match negate b with
    | Some r => Returned r
    | None => if verify_checked then VerifyFailed else Returned b
    end
  else Returned b.

Definition assert_expr (t : expr) (sign : bool) (s : bv_bounds_simplifier)
  : outcome (bool * bv_bounds_simplifier) :=
  let '(t, sign) := strip_not t sign in
  match is_bound t with
  | Some (t1, b) =>
    match apply_sign sign b with
    | VerifyFailed => VerifyFailed
    | Returned b =>
      match m_bound s !! t1 with
      | Some old =>
        match intersect old b with
        | None => Returned (false, s)
        | Some intr =>
          if interval_eqb old intr then Returned (true, s)
          else Returned (true,
                 set_bounds s (m_scopes s ++ [mk_undo_bound t1 (Some old) false])
                              (<[t1 := intr]> (m_bound s)))
        end
      | None =>
        Returned (true,
          set_bounds s (m_scopes s ++ [mk_undo_bound t1 None true])
                       (<[t1 := b]> (m_bound s)))
      end
    end
  | None => Returned (true, s)
  end.

End Assert.

(** The body of the undo loop of [pop] for one record. *)
Definition undo_one (bound : gmap expr interval) (u : undo_bound) : gmap expr interval :=
  if undo_fresh u then delete (undo_e u) bound
  else match undo_b u with
       | Some b => <[undo_e u := b]> bound
       | None => bound
       end.

(** [pop(num_scopes)].  [target = m_scopes.size() - num_scopes] is an
    [unsigned] subtraction: with more scopes asked for than exist it
    wraps around to a value above the size, the loop does not run and
    [shrink(target)] is called beyond the end of the vector, which the
    vector does not define; that case is [None].  Otherwise the loop
    visits the records at positions [size-1] down to [target]. *)
Definition pop (num_scopes : nat) (s : bv_bounds_simplifier) : option bv_bounds_simplifier :=
  match m_scopes s with
  | [] => Some s
  | _ :: _ =>
    if (length (m_scopes s) <? num_scopes)%nat then None
    else
      let target := (length (m_scopes s) - num_scopes)%nat in
      if (target =? 0)%nat then Some (set_bounds s [] ∅)
      else Some (set_bounds s (take target (m_scopes s))
                   (fold_left undo_one (rev (drop target (m_scopes s))) (m_bound s)))
  end.

(** [simplify]: [Some r] is [return true] with [result = r], [None] is
    [return false].  [simplify_atom] is the part after the singleton
    test on the term itself. *)
Definition simplify_atom (t : expr) (s : bv_bounds_simplifier) : option expr :=
  if negb (is_bool t) then None
  else
    let '(t, sign) := strip_not t false in
    match is_bound t with
    | None => None
    | Some (t1, b) =>
      (* if (sign && b.tight) { sign = false; if (!b.negate(b)) ... } *)
      let after_sign :=
        if sign && tight b then
          match negate b with
          | None => None
          | Some nb => Some (false, nb)
          end
        else Some (sign, b) in
      match after_sign with
      | None => Some mk_false
      | Some (sign, b) =>
        let result :=
          if is_full b && tight b then Some mk_true
          else match m_bound s !! t1 with
               | Some ctx =>
                 if implies ctx b then Some mk_true
                 else match intersect b ctx with
                      | None => Some mk_false
                      | Some intr =>
                        if m_propagate_eq s && is_singleton intr
                        then Some (mk_eq t1 (mk_numeral (l intr) (get_bv_size t1)))
                        else None
                      end
               | None => None
               end in
        match result with
        | Some r => Some (if sign then mk_not r else r)
        | None => None
        end
      end
    end.

Definition simplify (t : expr) (s : bv_bounds_simplifier) : option expr :=
  match m_bound s !! t with
  | Some b =>
    if is_singleton b then Some (mk_numeral (l b) (get_bv_size t))
    else simplify_atom t s
  | None => simplify_atom t s
  end.

(** *** The memo tables *)

(** [get_expr_vars]: the non-numeral subterms of [t], memoized in
    [m_expr_vars].  An absent entry and a null entry are the same thing
    to the source.  The source stores the pointer to the new set before
    it descends into the operands and fills the set afterwards; the
    operands are proper subterms, so none of the nested calls looks at
    the entry of [t], and the table is written here once the set is
    complete.  [add_arg_vars] is the loop over the operands. *)
Definition add_arg_vars
    (get_vars : expr -> gmap expr (gset expr) -> gset expr * gmap expr (gset expr))
  : list expr -> gset expr -> gmap expr (gset expr) -> gset expr * gmap expr (gset expr) :=
  fix over_args (args : list expr) (set : gset expr) (cache : gmap expr (gset expr)) :=
    match args with
    | [] => (set, cache)
    | a :: rest =>
      let '(set_arg, cache') := get_vars a cache in
      over_args rest (set ∪ set_arg) cache'
    end.

Fixpoint get_expr_vars (t : expr) (cache : gmap expr (gset expr))
  : gset expr * gmap expr (gset expr) :=
  match cache !! t with
  | Some entry => (entry, cache)
  | None =>
    let set0 : gset expr := if is_numeral_b t then ∅ else {[ t ]} in
    match t with
    | App _ args =>
      let '(set, cache') := add_arg_vars get_expr_vars args set0 cache in
      (set, <[t := set]> cache')
    end
  end.

(** [a->get_arg(i)] followed by [m_bv.is_numeral]; the source only
    reads operands 0 and 1 of binary comparisons. *)
Definition arg_is_numeral (args : list expr) (i : nat) : bool :=
  match args !! i with
  | Some a => is_numeral_b a
  | None => false
  end.

Definition is_cmp_decl (d : func_decl) : bool :=
  match d with
  | OP_ULEQ | OP_SLEQ | OP_EQ => true
  | _ => false
  end.

(** [expr_has_bounds], memoized in [m_bound_exprs]. *)
Fixpoint expr_has_bounds (t : expr) (cache : gmap expr bool) : bool * gmap expr bool :=
  match cache !! t with
  | Some has_bounds => (has_bounds, cache)
  | None =>
    match t with
    | App d args =>
      let has0 := is_cmp_decl d && (arg_is_numeral args 0 || arg_is_numeral args 1) in
      let '(has_bounds, cache') :=
        (fix over_args (args : list expr) (has_bounds : bool) (cache : gmap expr bool) :=
           match args with
           | [] => (has_bounds, cache)
           | a :: rest =>
             if has_bounds then (has_bounds, cache)
             else let '(hb, cache') := expr_has_bounds a cache in
                  over_args rest hb cache'
           end) args has0 cache in
      (has_bounds, <[t := has_bounds]> cache')
    end
  end.

(** The loop of [may_simplify] over the bound map. *)
Definition singleton_bound_used (bound : gmap expr interval) (used_exprs : gset expr) : bool :=
  existsb (fun kv => is_singleton kv.2 && bool_decide (kv.1 ∈ used_exprs))
          (map_to_list bound).

(** [may_simplify] returns its answer and the simplifier with the memo
    tables it has filled. *)
Definition may_simplify (t : expr) (s : bv_bounds_simplifier) : bool * bv_bounds_simplifier :=
  if is_numeral_b t then (false, s)
  else
    let t := (strip_not t false).1 in
    let '(used_exprs, vars) := get_expr_vars t (m_expr_vars s) in
    let s1 := mk_simplifier (m_propagate_eq s) (m_scopes s) (m_bound s) vars (m_bound_exprs s) in
    if singleton_bound_used (m_bound s) used_exprs then (true, s1)
    else
      match is_bound t with
      | Some (t1, b) =>
        (is_full b || bool_decide (is_Some (m_bound s !! t1)), s1)
      | None =>
        let '(r, be) := expr_has_bounds t (m_bound_exprs s) in
        (r, mk_simplifier (m_propagate_eq s) (m_scopes s) (m_bound s) vars be)
      end.

(** ** Reference notions the properties are stated with *)

(** The widths the source supports ([SASSERT(sz <= 64)], and a
    bit-vector sort has at least one bit). *)
Definition valid_width (n : Z) : Prop := 1 <= n <= 64.

(** A canonical interval: endpoints are unsigned, and the struct's own
    [invariant()] holds. *)
Definition canonical (i : interval) : Prop :=
  valid_width (sz i) /\ 0 <= l i /\ 0 <= h i /\ invariant i = true.

(** What [intersect] is specified to compute: emptiness of the
    intersection, or an interval denoting exactly the intersection. *)
Definition intersect_exact (a b : interval) : Prop :=
  match intersect a b with
  | None => forall v, ~ (contains a v /\ contains b v)
  | Some r => forall v, contains r v <-> (contains a v /\ contains b v)
  end.

(** The operands on which [intersect] is exact by construction: a fast
    path applies (an operand is full, or the two are equal), or neither
    is wrapped, or both are wrapped and the low piece of neither reaches
    the high piece of the other, or exactly one is wrapped and the other
    lies below its high piece, or starts above its low piece and no
    later than its high piece. *)
Definition meets_one_piece (x w : interval) : bool :=
  (h x <? l w) || ((h w <? l x) && (l x <=? l w)).

Definition exact_operands (a b : interval) : bool :=
  is_full a || interval_eqb a b || is_full b ||
  (if is_wrapped a then
     if is_wrapped b then (h a <? l b) && (h b <? l a)
     else meets_one_piece b a
   else
     if is_wrapped b then meets_one_piece a b else true).

(** The operands on which [intersect] returns one of its operands
    although the intersection is not a range: two wrapped operands that
    overlap crosswise (the high piece of one starts within the low piece
    of the other), or a non-wrapped operand that meets both pieces of a
    wrapped one.  No fast path applies. *)
Definition meets_both_pieces (x w : interval) : bool :=
  (l w <=? h x) && (l x <=? h w).

Definition crosswise_operands (a b : interval) : bool :=
  negb (is_full a || interval_eqb a b || is_full b) &&
  (if is_wrapped a then
     if is_wrapped b then (l b <=? h a) || (l a <=? h b)
     else meets_both_pieces b a
   else
     if is_wrapped b then meets_both_pieces a b else false).

(** The operand [intersect] returns on [crosswise_operands]: the wrapped
    one; of two wrapped operands the second when [b.l <= h], else the
    first. *)
Definition returned_operand (a b : interval) : interval :=
  if is_wrapped a then
    if is_wrapped b then (if l b <=? h a then b else a) else a
  else b.

(** What [intersect] guarantees on canonical operands of one width: it
    reports emptiness only for an empty intersection; otherwise its
    result is canonical, of the operands' width, contains the
    intersection, the intersection is not empty, and on [exact_operands]
    the result is the intersection. *)
Definition intersect_post (a b : interval) (res : option interval) : Prop :=
  match res with
  | None => forall v, ~ (contains a v /\ contains b v)
  | Some r =>
    canonical r /\ sz r = sz a /\
    (forall v, contains a v -> contains b v -> contains r v) /\
    (exists v, contains a v /\ contains b v) /\
    (exact_operands a b = true -> forall v, contains r v -> contains a v /\ contains b v)
  end.

(** The round trip of [negate]: both negations succeed and the second
    result is the interval one started from. *)
Definition negate_round_trip (i : interval) : Prop :=
  exists r1 r2, negate i = Some r1 /\ negate r1 = Some r2 /\ r2 = i.


(** Modelled from the spec: the sort discipline of [ast_manager], which
    is not under src/.  Well-sortedness as the term provider guarantees
    it: comparisons
    relate bit-vectors of one width, equality relates terms of one sort,
    negation applies to a Boolean, a numeral fits its (positive) width. *)
Definition sort_ok (s : sort) : bool :=
  match s with
  | BV_sort n => 1 <=? n
  | _ => true
  end.

Fixpoint well_sorted (t : expr) : bool :=
  match t with
  | App d args =>
    forallb well_sorted args &&
    match d, args with
    | OP_TRUE, [] => true
    | OP_FALSE, [] => true
    | OP_NOT, [a] => is_bool a
    | OP_EQ, [a; b] => bool_decide (get_sort a = get_sort b)
    | OP_ULEQ, [a; b] | OP_SLEQ, [a; b] =>
      match get_sort a with
      | BV_sort _ => bool_decide (get_sort a = get_sort b)
      | _ => false
      end
    | OP_BV_NUM r n, [] => (1 <=? n) && (0 <=? r) && (r <? 2 ^ n)
    | OP_OTHER _ range, _ => sort_ok range
    | _, _ => false
    end
  end.

(** A valuation gives every term a value; the value of a numeral is the
    numeral. *)
Definition valuation : Type := expr -> Z.

Definition bv_val (rho : valuation) (e : expr) : Z :=
  match is_numeral e with
  | Some (r, _) => r
  | None => rho e
  end.

(** Values of a width-[n] term are [n]-bit unsigned numbers. *)
Definition fits (rho : valuation) : Prop :=
  forall e n, get_sort e = BV_sort n -> 1 <= n -> 0 <= rho e < 2 ^ n.

(** Two's complement reading of an [n]-bit value. *)
Definition to_signed (n v : Z) : Z :=
  if v <? 2 ^ (n - 1) then v else v - 2 ^ n.

(** Modelled from the spec: the meaning of the atoms, fixed by the
    bit-vector theory and not by this file.  Truth of a Boolean term
    under a valuation.  The three comparison
    shapes and negation have their bit-vector meaning; any other Boolean
    term is an opaque atom that is true when its value is not zero. *)
Fixpoint holdsb (rho : valuation) (t : expr) : bool :=
  match t with
  | App OP_NOT [a] => negb (holdsb rho a)
  | App OP_ULEQ [a; b] => bv_val rho a <=? bv_val rho b
  | App OP_SLEQ [a; b] =>
    to_signed (get_bv_size a) (bv_val rho a) <=? to_signed (get_bv_size a) (bv_val rho b)
  | App OP_EQ [a; b] => bv_val rho a =? bv_val rho b
  | App OP_TRUE [] => true
  | App OP_FALSE [] => false
  | _ => negb (rho t =? 0)
  end.

(** The fact an [assert_expr(t, sign)] call states: [t] when [sign] is
    false, its negation when [sign] is true. *)
Definition fact_holds (rho : valuation) (f : expr * bool) : Prop :=
  holdsb rho f.1 = negb f.2.

(** A run of [assert_expr] calls that all return [true]. *)
Fixpoint run_asserts (verify_checked : bool) (facts : list (expr * bool))
    (s : bv_bounds_simplifier) : option bv_bounds_simplifier :=
  match facts with
  | [] => Some s
  | (t, sign) :: rest =>
    match assert_expr verify_checked t sign s with
    | Returned (true, s') => run_asserts verify_checked rest s'
    | _ => None
    end
  end.

(** The interval [assert_expr] intersects into the bound map for a call,
    with the subexpression it is about: the extracted interval after the
    polarity has been applied. *)
Definition asserted_bound (verify_checked : bool) (t : expr) (sign : bool)
  : option (expr * interval) :=
  let '(t, sign) := strip_not t sign in
  match is_bound t with
  | Some (t1, b) =>
    match apply_sign verify_checked sign b with
    | Returned b' => Some (t1, b')
    | VerifyFailed => None
    end
  | None => None
  end.

(** The call runs into the [VERIFY]: the polarity is negative and the
    extracted interval has no complement. *)
Definition verify_violated (t : expr) (sign : bool) : bool :=
  let '(t, sign) := strip_not t sign in
  match is_bound t with
  | Some (_, b) => sign && bool_decide (negate b = None)
  | None => false
  end.

(** The interval a call is about according to its polarity: the
    extracted interval, or its negation when the polarity is negative. *)
Definition polarity_bound (t : expr) (sign : bool) (t1 : expr) (b : interval) : Prop :=
  exists b0, is_bound (strip_not t sign).1 = Some (t1, b0) /\
             if (strip_not t sign).2 then negate b0 = Some b else b = b0.

(** The call contradicts the bound map: that interval has no value in
    common with the interval recorded for the same subexpression. *)
Definition contradicts (t : expr) (sign : bool) (s : bv_bounds_simplifier) : Prop :=
  exists t1 b old,
    polarity_bound t sign t1 b /\ m_bound s !! t1 = Some old /\
    forall v, ~ (contains old v /\ contains b v).

(** What is claimed of [assert_expr]: failure exactly on a contradiction,
    success in every other case. *)
Definition assert_contract (verify_checked : bool) (t : expr) (sign : bool)
    (s : bv_bounds_simplifier) : Prop :=
  (contradicts t sign s ->
   exists s', assert_expr verify_checked t sign s = Returned (false, s')) /\
  (~ contradicts t sign s ->
   exists s', assert_expr verify_checked t sign s = Returned (true, s')).

(** Scenario E as the specification words it. *)
Definition scenario_E (verify_checked propagate_eq : bool) (x : expr) : Prop :=
  exists s1,
    assert_expr verify_checked (mk_not (mk_ule x (mk_numeral 5 8))) false
                (init propagate_eq) = Returned (true, s1) /\
    simplify (mk_ule x (mk_numeral 200 8)) s1 = Some mk_true.

(** The pure function [get_expr_vars] memoizes. *)
Fixpoint expr_vars (t : expr) : gset expr :=
  match t with
  | App _ args =>
    fold_left (fun set a => set ∪ expr_vars a) args
              (if is_numeral_b t then ∅ else {[ t ]})
  end.

(** States the driver can bring the simplifier into: construction,
    [assert_expr] on well-sorted terms, [pop] within the stack, and
    [may_simplify]. *)
Inductive reachable (verify_checked : bool) : bv_bounds_simplifier -> Prop :=
| reachable_init (p : bool) : reachable verify_checked (init p)
| reachable_assert (s s' : bv_bounds_simplifier) (t : expr) (sign r : bool) :
    reachable verify_checked s ->
    well_sorted t = true ->
    assert_expr verify_checked t sign s = Returned (r, s') ->
    reachable verify_checked s'
| reachable_pop (s s' : bv_bounds_simplifier) (n : nat) :
    reachable verify_checked s ->
    pop n s = Some s' ->
    reachable verify_checked s'
| reachable_may_simplify (s : bv_bounds_simplifier) (t : expr) :
    reachable verify_checked s ->
    reachable verify_checked (may_simplify t s).2.

(** The atoms of the three recognized shapes, with the literal on the
    left or on the right of the term [x]. *)
Inductive cmp_kind : Type := Cmp_ule | Cmp_sle | Cmp_eq.

Definition mk_cmp (k : cmp_kind) (a b : expr) : expr :=
  match k with
  | Cmp_ule => mk_ule a b
  | Cmp_sle => mk_sle a b
  | Cmp_eq => mk_eq a b
  end.

Definition atom (k : cmp_kind) (literal_left : bool) (n w : Z) (x : expr) : expr :=
  if literal_left then mk_cmp k (mk_numeral n w) x
  else mk_cmp k x (mk_numeral n w).

(** The interval [is_bound] builds for each shape. *)
Definition shape_interval (k : cmp_kind) (literal_left : bool) (n w : Z) : interval :=
  match k, literal_left with
  | Cmp_ule, true => interval_ctor n (uMaxInt w) w true
  | Cmp_ule, false => interval_ctor 0 n w true
  | Cmp_sle, true => interval_ctor n (wrap64 (sign_bit w - 1)) w true
  | Cmp_sle, false => interval_ctor (sign_bit w) n w true
  | Cmp_eq, _ => interval_ctor n n w true
  end.

(** Invariants of the bound map: every recorded interval is canonical
    and has the width of its (non-numeral, bit-vector) key. *)
Definition bound_map_wf (m : gmap expr interval) : Prop :=
  forall t i, m !! t = Some i ->
    canonical i /\ get_sort t = BV_sort (sz i) /\ is_numeral_b t = false.

Definition bounds_wf (s : bv_bounds_simplifier) : Prop := bound_map_wf (m_bound s).

(** The bound map agrees with a valuation. *)
Definition sound (rho : valuation) (s : bv_bounds_simplifier) : Prop :=
  forall t i, m_bound s !! t = Some i -> contains i (rho t).

(** With no undo record there is no bound. *)
Definition scopes_cover (s : bv_bounds_simplifier) : Prop :=
  m_scopes s = [] -> m_bound s = ∅.

(** The memo table of [get_expr_vars] holds what the function computes. *)
Definition vars_ok (cache : gmap expr (gset expr)) : Prop :=
  forall t set, cache !! t = Some set -> set = expr_vars t.

(** An undo record that restores an interval restores a canonical one
    of the width of its term. *)
Definition undo_wf (u : undo_bound) : Prop :=
  undo_fresh u = false ->
  exists b, undo_b u = Some b /\ canonical b /\
            get_sort (undo_e u) = BV_sort (sz b) /\ is_numeral_b (undo_e u) = false.

Definition scopes_wf (s : bv_bounds_simplifier) : Prop :=
  Forall undo_wf (m_scopes s).

(** The invariant of the simplifier. *)
Definition inv (s : bv_bounds_simplifier) : Prop :=
  bounds_wf s /\ scopes_wf s /\ scopes_cover s /\ vars_ok (m_expr_vars s).

(** ** Further reference notions *)

(** Two outcomes of [intersect] that agree up to the [tight] flag. *)
Definition same_range (r1 r2 : option interval) : Prop :=
  match r1, r2 with
  | Some i1, Some i2 => l i1 = l i2 /\ h i1 = h i2 /\ sz i1 = sz i2
  | None, None => True
  | _, _ => False
  end.

(** The undo stack as the history of the bound map: starting from the
    empty map, each record stands for one change, the insertion of a
    fresh entry or the replacement of the interval the record keeps. *)
Inductive history : list undo_bound -> gmap expr interval -> Prop :=
| history_nil : history [] ∅
| history_fresh (st : list undo_bound) (m : gmap expr interval) (e : expr) (b : interval) :
    history st m -> m !! e = None ->
    history (st ++ [mk_undo_bound e None true]) (<[e := b]> m)
| history_narrow (st : list undo_bound) (m : gmap expr interval) (e : expr)
    (old i : interval) :
    history st m -> m !! e = Some old ->
    history (st ++ [mk_undo_bound e (Some old) false]) (<[e := i]> m).

(** A rewrite keeps the meaning of a term under a valuation: the truth
    value of a Boolean term, the value of any other term. *)
Definition same_meaning (rho : valuation) (t r : expr) : Prop :=
  if is_bool t then holdsb rho r = holdsb rho t
  else bv_val rho r = bv_val rho t.

(** ** Reference notions for the memo tables *)

(** [e] occurs in [t]: it is [t] itself or occurs in an operand. *)
Inductive subterm (e : expr) : expr -> Prop :=
| subterm_refl : subterm e e
| subterm_arg (d : func_decl) (args : list expr) (a : expr) :
    In a args -> subterm e a -> subterm e (App d args).

(** A comparison with a numeral as first or second operand: the test
    [expr_has_bounds] makes on a term. *)
Definition is_numeral_cmp (t : expr) : bool :=
  match t with
  | App d args => is_cmp_decl d && (arg_is_numeral args 0 || arg_is_numeral args 1)
  end.

(** The pure function [expr_has_bounds] memoizes. *)
Fixpoint has_bounds (t : expr) : bool :=
  match t with
  | App d args => is_numeral_cmp (App d args) || existsb has_bounds args
  end.

(** The loop of [expr_has_bounds] over the operands. *)
Definition has_bounds_args
    (rec : expr -> gmap expr bool -> bool * gmap expr bool)
  : list expr -> bool -> gmap expr bool -> bool * gmap expr bool :=
  fix over_args (args : list expr) (has_bounds : bool) (cache : gmap expr bool) :=
    match args with
    | [] => (has_bounds, cache)
    | a :: rest =>
      if has_bounds then (has_bounds, cache)
      else let '(hb, cache') := rec a cache in
           over_args rest hb cache'
    end.

(** The memo table of [expr_has_bounds] holds what the function
    computes. *)
Definition bound_exprs_ok (cache : gmap expr bool) : Prop :=
  forall t b, cache !! t = Some b -> b = has_bounds t.



(** * Properties *)

(** ** Machine arithmetic *)

Lemma uMaxInt_spec (n : Z) : valid_width n -> uMaxInt n = 2 ^ n - 1.
Proof.
  intros [H1 H2]. unfold uMaxInt, wrap32, ULLONG_MAX.
  rewrite Z.mod_small by lia.
  rewrite Z.shiftr_div_pow2 by lia.
  assert (Hsplit : 2 ^ 64 = 2 ^ n * 2 ^ (64 - n)).
  { rewrite <- Z.pow_add_r by lia. f_equal. lia. }
  assert (Hpos : 0 < 2 ^ (64 - n)) by (apply Z.pow_pos_nonneg; lia).
  symmetry. apply Z.div_unique with (r := 2 ^ (64 - n) - 1); lia.
Qed.

Lemma uMaxInt_range (n : Z) : valid_width n -> 1 <= uMaxInt n < 2 ^ 64.
Proof.
  intros Hn. rewrite uMaxInt_spec by exact Hn. destruct Hn as [H1 H2].
  assert (2 ^ 1 <= 2 ^ n) by (apply Z.pow_le_mono_r; lia).
  assert (2 ^ n <= 2 ^ 64) by (apply Z.pow_le_mono_r; lia).
  change (2 ^ 1) with 2 in *. lia.
Qed.

Lemma wrap64_cases (x : Z) :
  -1 <= x <= 2 ^ 64 ->
  (x = -1 /\ wrap64 x = 2 ^ 64 - 1) \/
  (x = 2 ^ 64 /\ wrap64 x = 0) \/
  (0 <= x < 2 ^ 64 /\ wrap64 x = x).
Proof.
  intros Hx. unfold wrap64.
  destruct (Z.eq_dec x (-1)) as [-> | ?]; [left; split; reflexivity |].
  destruct (Z.eq_dec x (2 ^ 64)) as [-> | ?]; [right; left; split; reflexivity |].
  right; right. split; [lia |]. apply Z.mod_small. lia.
Qed.

Lemma sign_bit_spec (n : Z) : valid_width n -> sign_bit n = 2 ^ (n - 1).
Proof.
  intros [H1 H2]. unfold sign_bit, wrap32, wrap64.
  rewrite (Z.mod_small (n - 1)) by lia.
  rewrite Z.shiftl_1_l.
  apply Z.mod_small. split; [apply Z.pow_nonneg; lia |].
  apply Z.pow_lt_mono_r; lia.
Qed.

Lemma pow2_half (n : Z) : 1 <= n -> 2 ^ n = 2 * 2 ^ (n - 1) /\ 0 < 2 ^ (n - 1).
Proof.
  intros Hn. split.
  - rewrite <- Z.pow_succ_r by lia. f_equal. lia.
  - apply Z.pow_pos_nonneg; lia.
Qed.

(** ** Intervals *)

(** Case analysis on every integer comparison in sight. *)
Ltac cmp_cases :=
  repeat match goal with
  | |- context [Z.ltb ?x ?y] => destruct (Z.ltb_spec x y)
  | |- context [Z.leb ?x ?y] => destruct (Z.leb_spec x y)
  | |- context [Z.eqb ?x ?y] => destruct (Z.eqb_spec x y)
  | H : context [Z.ltb ?x ?y] |- _ => destruct (Z.ltb_spec x y)
  | H : context [Z.leb ?x ?y] |- _ => destruct (Z.leb_spec x y)
  | H : context [Z.eqb ?x ?y] |- _ => destruct (Z.eqb_spec x y)
  end.

(** Replace [wrap64 x] by its value, given that [x] is one step outside
    the 64-bit range at most. *)
Ltac wrap64_cases x :=
  let Hw := fresh "Hw" in
  let w := fresh "w" in
  pose proof (wrap64_cases x) as Hw;
  remember (wrap64 x) as w in *;
  let Hr := fresh "Hr" in
  assert (Hr : -1 <= x <= 2 ^ 64) by lia;
  specialize (Hw Hr).

Lemma canonical_fields (i : interval) :
  canonical i ->
  valid_width (sz i) /\ 0 <= l i <= uMaxInt (sz i) /\ 0 <= h i <= uMaxInt (sz i) /\
  (h i < l i -> l i <> h i + 1).
Proof.
  intros (Hw & Hl & Hh & Hinv). pose proof (uMaxInt_range _ Hw) as HM.
  unfold invariant, is_wrapped in Hinv.
  apply andb_true_iff in Hinv as [Hinv Hc]. apply andb_true_iff in Hinv as [H1 H2].
  apply Z.leb_le in H1, H2.
  split; [exact Hw |]. split; [lia |]. split; [lia |].
  intros Hlt Heq.
  wrap64_cases (h i + 1).
  apply orb_true_iff in Hc as [Hc | Hc]; apply negb_true_iff in Hc.
  - apply Z.ltb_ge in Hc. lia.
  - apply Z.eqb_neq in Hc. lia.
Qed.

Lemma ctor_sz (l0 h0 w : Z) (t : bool) : sz (interval_ctor l0 h0 w t) = w.
Proof. unfold interval_ctor. destruct (_ && _); reflexivity. Qed.

Lemma ctor_tight (l0 h0 w : Z) (t : bool) : tight (interval_ctor l0 h0 w t) = t.
Proof. unfold interval_ctor. destruct (_ && _); reflexivity. Qed.

Lemma ctor_canonical (l0 h0 w : Z) (t : bool) :
  valid_width w -> 0 <= l0 <= uMaxInt w -> 0 <= h0 <= uMaxInt w ->
  canonical (interval_ctor l0 h0 w t).
Proof.
  intros Hw Hl Hh. pose proof (uMaxInt_range _ Hw) as HM.
  unfold canonical, interval_ctor, invariant, is_wrapped.
  wrap64_cases (h0 + 1).
  destruct (Z.ltb_spec h0 l0); destruct (Z.eqb_spec l0 w0); simpl;
    repeat split; try lia; try exact (proj1 Hw); try exact (proj2 Hw);
    cmp_cases; simpl; try reflexivity; lia.
Qed.

Lemma ctor_contains (l0 h0 w : Z) (t : bool) (v : Z) :
  valid_width w -> 0 <= l0 <= uMaxInt w -> 0 <= h0 <= uMaxInt w ->
  contains (interval_ctor l0 h0 w t) v <->
  0 <= v <= uMaxInt w /\ (if h0 <? l0 then v <= h0 \/ l0 <= v else l0 <= v <= h0).
Proof.
  intros Hw Hl Hh. pose proof (uMaxInt_range _ Hw) as HM.
  unfold contains, interval_ctor, is_wrapped.
  wrap64_cases (h0 + 1).
  destruct (Z.ltb_spec h0 l0); destruct (Z.eqb_spec l0 w0); simpl;
    cmp_cases; lia.
Qed.

Lemma contains_range (i : interval) (v : Z) :
  canonical i -> contains i v -> 0 <= v <= uMaxInt (sz i).
Proof.
  intros Hc. apply canonical_fields in Hc as (Hw & Hl & Hh & _).
  unfold contains, is_wrapped. cmp_cases; lia.
Qed.

Lemma contains_unfold (i : interval) (v : Z) :
  canonical i ->
  contains i v <->
  0 <= v <= uMaxInt (sz i) /\
  (if h i <? l i then v <= h i \/ l i <= v else l i <= v <= h i).
Proof.
  intros Hc. apply canonical_fields in Hc as (Hw & Hl & Hh & _).
  unfold contains, is_wrapped. cmp_cases; lia.
Qed.

Ltac if_cases :=
  repeat match goal with
         | |- context [if ?c then _ else _] => destruct c
         end.

Lemma intersect_fuel_enough (n : nat) (a b : interval) :
  intersect_fuel (S (S n)) a b = Some (intersect a b).
Proof.
  unfold intersect. simpl.
  destruct (is_full a || interval_eqb a b); [reflexivity |].
  destruct (is_full b); [reflexivity |].
  destruct (is_wrapped a) eqn:Ha; destruct (is_wrapped b) eqn:Hb;
    if_cases; reflexivity.
Qed.

(** [intersect] satisfies the recursive equation of the source. *)
Lemma intersect_unfold (a b : interval) :
  intersect a b =
    if is_full a || interval_eqb a b then Some b
    else if is_full b then Some a
    else if is_wrapped a then
      if is_wrapped b then
        if l b <=? h a then Some b
        else if l a <=? h b then Some a
        else Some (interval_ctor (Z.max (l a) (l b)) (Z.min (h a) (h b)) (sz a) false)
      else intersect b a
    else if is_wrapped b then
      if (h a <? l b) && (h b <? l a) then None
      else if (l b <=? h a) && (l a <=? h b) then Some b
      else if l b <=? h a then Some (interval_ctor (l b) (h a) (sz a) false)
      else Some (interval_ctor (l a) (Z.min (h a) (h b)) (sz a) false)
    else
      if (h b <? l a) || (h a <? l b) then None
      else Some (interval_ctor (Z.max (l a) (l b)) (Z.min (h a) (h b)) (sz a)
                               (tight a && tight b)).
Proof.
  pose proof (intersect_fuel_enough 0 a b) as Hab.
  pose proof (intersect_fuel_enough 0 b a) as Hba.
  change (intersect_fuel 2 a b) with
    (if is_full a || interval_eqb a b then Some (Some b)
     else if is_full b then Some (Some a)
     else if is_wrapped a then
       if is_wrapped b then
         if l b <=? h a then Some (Some b)
         else if l a <=? h b then Some (Some a)
         else Some (Some (interval_ctor (Z.max (l a) (l b)) (Z.min (h a) (h b)) (sz a) false))
       else intersect_fuel 1 b a
     else if is_wrapped b then
       if (h a <? l b) && (h b <? l a) then Some None
       else if (l b <=? h a) && (l a <=? h b) then Some (Some b)
       else if l b <=? h a then Some (Some (interval_ctor (l b) (h a) (sz a) false))
       else Some (Some (interval_ctor (l a) (Z.min (h a) (h b)) (sz a) false))
     else
       if (h b <? l a) || (h a <? l b) then Some None
       else Some (Some (interval_ctor (Z.max (l a) (l b)) (Z.min (h a) (h b)) (sz a)
                                      (tight a && tight b)))) in Hab.
  destruct (is_full a || interval_eqb a b); [congruence |].
  destruct (is_full b); [congruence |].
  destruct (is_wrapped a) eqn:Ha; destruct (is_wrapped b) eqn:Hb;
    repeat match goal with
           | |- context [if ?c then _ else _] => destruct c
           end; try congruence.
  (* the swapped call *)
  unfold intersect at 2. simpl. simpl in Hab. rewrite Hb in *.
  destruct (is_full b || interval_eqb b a); [congruence |].
  destruct (is_full a); [congruence |].
  if_cases; congruence.
Qed.

(** Turn a boolean equation over integer comparisons into arithmetic. *)
Ltac bool_to_prop E :=
  rewrite ?andb_true_iff, ?orb_true_iff, ?andb_false_iff, ?orb_false_iff,
          ?negb_true_iff, ?negb_false_iff,
          ?Z.ltb_lt, ?Z.ltb_ge, ?Z.leb_le, ?Z.leb_gt, ?Z.eqb_eq, ?Z.eqb_neq in E.

Ltac head_if P :=
  match goal with
  | |- P (if ?c then _ else _) =>
    let E := fresh "E" in destruct c eqn:E; bool_to_prop E
  end.

Ltac pick_witness Hma Hmb la ha lb hb :=
  first [ exists la; rewrite Hma, Hmb; lia
        | exists lb; rewrite Hma, Hmb; lia
        | exists ha; rewrite Hma, Hmb; lia
        | exists hb; rewrite Hma, Hmb; lia
        | exists 0; rewrite Hma, Hmb; lia
        | exists (Z.max la lb); rewrite Hma, Hmb; lia ].

Lemma intersect_post_direct (a b : interval) :
  canonical a -> canonical b -> sz a = sz b ->
  (is_wrapped a && negb (is_wrapped b) = false \/
   is_full a || interval_eqb a b = true \/ is_full b = true) ->
  intersect_post a b (intersect a b).
Proof.
  intros Ha Hb Hsz Hns.
  pose proof (canonical_fields _ Ha) as (Hwa & Hla & Hha & Hca).
  pose proof (canonical_fields _ Hb) as (Hwb & Hlb & Hhb & Hcb).
  pose proof (uMaxInt_range _ Hwa) as HM.
  assert (Hctor : forall l0 h0 t, 0 <= l0 <= uMaxInt (sz a) -> 0 <= h0 <= uMaxInt (sz a) ->
     canonical (interval_ctor l0 h0 (sz a) t) /\ sz (interval_ctor l0 h0 (sz a) t) = sz a /\
     forall v, contains (interval_ctor l0 h0 (sz a) t) v <->
       0 <= v <= uMaxInt (sz a) /\ (if h0 <? l0 then v <= h0 \/ l0 <= v else l0 <= v <= h0)).
  { intros l0 h0 t Hl0 Hh0. split; [apply ctor_canonical; assumption |].
    split; [apply ctor_sz |]. intros v. apply ctor_contains; assumption. }
  pose proof (fun v => contains_unfold a v Ha) as Hma.
  pose proof (fun v => contains_unfold b v Hb) as Hmb.
  rewrite <- Hsz in Hwb, Hlb, Hhb, Hmb.
  rewrite intersect_unfold.
  unfold intersect_post, exact_operands, meets_one_piece, is_full, interval_eqb, is_wrapped in *.
  rewrite <- Hsz in Hns |- *.
  remember (uMaxInt (sz a)) as M eqn:HeqM. clear HeqM.
  remember (l a) as la. remember (h a) as ha. remember (l b) as lb. remember (h b) as hb.
  clear Heqla Heqha Heqlb Heqhb.
  revert Hns Hma Hmb.
  destruct (Z.ltb_spec ha la) as [Wa | Wa]; destruct (Z.ltb_spec hb lb) as [Wb | Wb];
    cbn [andb orb negb]; intros Hns Hma Hmb; bool_to_prop Hns.
  all: destruct (Z.eqb_spec la 0) as [Za | Za]; destruct (Z.eqb_spec ha M) as [Fa | Fa];
       destruct (Z.eqb_spec lb 0) as [Zb | Zb]; destruct (Z.eqb_spec hb M) as [Fb | Fb];
       cbn [andb orb negb]; try (exfalso; lia).
  all: destruct (Z.eqb_spec la lb) as [El | El]; destruct (Z.eqb_spec ha hb) as [Eh | Eh];
       cbn [andb orb negb]; try (exfalso; lia).
  all: try (destruct (eqb (tight a) (tight b)); cbn [andb orb negb]).
  all: cmp_cases; cbn [andb orb negb]; try (exfalso; lia).
  all: try (exfalso; cbn in Hns; intuition (try discriminate; lia)).
  all: try (intros v; rewrite Hma, Hmb; lia).
  all: try match goal with
       | |- context [interval_ctor ?l0 ?h0 _ ?t] =>
         let Hc1 := fresh "Hc" in let Hc2 := fresh "Hc" in let Hc3 := fresh "Hc" in
         destruct (Hctor l0 h0 t) as (Hc1 & Hc2 & Hc3); [lia | lia |];
         split; [exact Hc1 |]; split; [exact Hc2 |];
         split; [intros v; rewrite Hma, Hmb, Hc3; cmp_cases; lia |];
         split; [pick_witness Hma Hmb la ha lb hb |];
         intros Hp v; try discriminate Hp; bool_to_prop Hp; rewrite Hma, Hmb, Hc3; cmp_cases; lia
       end.
  all: try (split; [assumption |]; split; [congruence |];
         split; [intros v; rewrite Hma, Hmb; lia |];
         split; [pick_witness Hma Hmb la ha lb hb |];
         intros Hp v; try discriminate Hp; bool_to_prop Hp; rewrite Hma, Hmb; lia).
Qed.

Lemma interval_eqb_sym (a b : interval) : interval_eqb a b = interval_eqb b a.
Proof.
  unfold interval_eqb.
  rewrite (Z.eqb_sym (l a)), (Z.eqb_sym (h a)).
  destruct (tight a), (tight b); reflexivity.
Qed.

Lemma intersect_post_ok (a b : interval) :
  canonical a -> canonical b -> sz a = sz b ->
  intersect_post a b (intersect a b).
Proof.
  intros Ha Hb Hsz.
  destruct (is_wrapped a && negb (is_wrapped b)) eqn:Hsw;
    [| apply intersect_post_direct; auto].
  destruct (is_full a || interval_eqb a b) eqn:E1;
    [apply intersect_post_direct; auto |].
  destruct (is_full b) eqn:E2; [apply intersect_post_direct; auto |].
  apply andb_true_iff in Hsw as [Wa Wb]. apply negb_true_iff in Wb.
  assert (Hdirect : intersect_post b a (intersect b a)).
  { apply intersect_post_direct; auto. left. rewrite Wb. reflexivity. }
  assert (Hex : exact_operands a b = exact_operands b a).
  { unfold exact_operands. rewrite (interval_eqb_sym b a), Wa, Wb, E2.
    apply orb_false_iff in E1 as [-> ->]. reflexivity. }
  rewrite intersect_unfold, E1, E2, Wa, Wb.
  unfold intersect_post in *. rewrite Hex.
  destruct (intersect b a) as [r |].
  - destruct Hdirect as (H1 & H2 & H3 & (v & Hv) & H5).
    split; [exact H1 |]. split; [congruence |].
    split; [intros w Hwa Hwb; apply H3; assumption |].
    split; [exists v; tauto |].
    intros Hp w Hw. destruct (H5 Hp w Hw). tauto.
  - intros v [Hva Hvb]. apply (Hdirect v). tauto.
Qed.

Lemma uMaxInt_nonneg (n : Z) : 0 <= uMaxInt n.
Proof. unfold uMaxInt. apply Z.shiftr_nonneg. unfold ULLONG_MAX. lia. Qed.

(** The non-tight branch of [negate], for any interval. *)
Lemma negate_nontight (i : interval) :
  tight i = false ->
  negate i = Some (mk_interval 0 (uMaxInt (sz i)) 1 false).
Proof.
  intros Ht. unfold negate, interval_ctor. rewrite Ht. cbn [negb].
  pose proof (uMaxInt_nonneg (sz i)) as HM.
  destruct (Z.ltb_spec (uMaxInt (sz i)) 0); [lia | reflexivity].
Qed.

(** The tight branches of [negate] compute the complement. *)
Lemma negate_tight_complement (i : interval) :
  canonical i -> tight i = true -> is_full i = false ->
  exists r, negate i = Some r /\ canonical r /\ sz r = sz i /\ tight r = false /\
    forall v, 0 <= v <= uMaxInt (sz i) -> (contains r v <-> ~ contains i v).
Proof.
  intros Hc Ht Hf.
  pose proof (canonical_fields _ Hc) as (Hw & Hl & Hh & Hcan).
  pose proof (uMaxInt_range _ Hw) as HM.
  pose proof (fun v => contains_unfold i v Hc) as Hm.
  unfold negate. rewrite Ht, Hf. cbn [negb].
  unfold is_full in Hf. revert Hm.
  remember (uMaxInt (sz i)) as M eqn:HeqM.
  wrap64_cases (h i + 1). wrap64_cases (l i - 1).
  destruct (Z.ltb_spec (h i) (l i)) as [Wi | Wi]; intros Hm;
    destruct (Z.eqb_spec (l i) 0) as [Zl | Zl];
    destruct (Z.eqb_spec M (h i)) as [Fh | Fh];
    try (destruct (Z.eqb_spec (h i) M); cbn [andb] in Hf); try discriminate Hf;
    try (exfalso; lia);
    (eexists; split; [reflexivity |];
     split; [subst M; apply ctor_canonical; [exact Hw | lia | lia] |];
     split; [apply ctor_sz |]; split; [apply ctor_tight |];
     intros v Hv; rewrite Hm; subst M; rewrite ctor_contains by (try exact Hw; lia);
     cmp_cases; lia).
Qed.

Lemma negate_tight_full (i : interval) :
  tight i = true -> is_full i = true -> negate i = None.
Proof. intros Ht Hf. unfold negate. rewrite Ht, Hf. reflexivity. Qed.

Lemma negate_result_not_tight (i r : interval) :
  negate i = Some r -> tight r = false.
Proof.
  unfold negate. intros H.
  repeat match type of H with
         | (if ?c then _ else _) = _ => destruct c
         end; try discriminate H; injection H as <-; apply ctor_tight.
Qed.

(** *** Concrete intervals used in the examples *)

Lemma canonical_concrete (l0 h0 w : Z) (t : bool) :
  (1 <=? w) && (w <=? 64) && (0 <=? l0) && (0 <=? h0) &&
  invariant (mk_interval l0 h0 w t) = true ->
  canonical (mk_interval l0 h0 w t).
Proof.
  intros H. repeat (apply andb_true_iff in H as [H ?]).
  unfold canonical, valid_width. cbn [l h sz].
  repeat match goal with
         | Hb : (_ <=? _) = true |- _ => apply Z.leb_le in Hb
         end.
  tauto.
Qed.

(** The result of [intersect] on [crosswise_operands]. *)
Lemma crosswise_result (a b : interval) :
  crosswise_operands a b = true ->
  intersect a b = Some (returned_operand a b).
Proof.
  unfold crosswise_operands, returned_operand, meets_both_pieces. intros H.
  apply andb_true_iff in H as [Hfast H]. apply negb_true_iff in Hfast.
  apply orb_false_iff in Hfast as [Hfast Hfb].
  pose proof Hfast as Hfast'. apply orb_false_iff in Hfast' as [Hfa Heq].
  rewrite (intersect_unfold a b), Hfast, Hfb.
  destruct (is_wrapped a) eqn:Wa; destruct (is_wrapped b) eqn:Wb.
  - destruct (l b <=? h a); [reflexivity |]. cbn [orb] in H. rewrite H. reflexivity.
  - rewrite (intersect_unfold b a), (interval_eqb_sym b a), Hfb, Heq, Hfa, Wb, Wa.
    cbn [orb]. apply andb_true_iff in H as [H1 H2].
    rewrite H1, H2. cbn [andb].
    apply Z.leb_le in H1. destruct (Z.ltb_spec (h b) (l a)); [lia | reflexivity].
  - apply andb_true_iff in H as [H1 H2]. rewrite H1, H2. cbn [andb].
    apply Z.leb_le in H2. destruct (Z.ltb_spec (h b) (l a)); [lia |].
    rewrite andb_false_r. reflexivity.
  - discriminate H.
Qed.

(** A value of the intersection is a value of [r]; a value outside is
    not. *)
Ltac value_in V :=
  let P := fresh "P" in
  pose proof (proj2 V ltac:(lia)) as P; clear V.

Ltac value_out V :=
  match type of V with
  | ?A <-> _ =>
    let N := fresh "N" in
    assert (N : ~ A) by (let HA := fresh in intros HA; apply (proj1 V) in HA; lia);
    clear V
  end.

(** On [crosswise_operands] the intersection is not the value set of an
    interval. *)
Lemma crosswise_not_range (a b r : interval) :
  canonical a -> canonical b -> canonical r -> sz a = sz b -> sz r = sz a ->
  crosswise_operands a b = true ->
  ~ (forall v, contains r v <-> contains a v /\ contains b v).
Proof.
  intros Ha Hb Hr Hsz Hszr Hx Hset.
  pose proof (canonical_fields _ Ha) as (Hwa & Hla & Hha & Hca).
  pose proof (canonical_fields _ Hb) as (Hwb & Hlb & Hhb & Hcb).
  pose proof (canonical_fields _ Hr) as (Hwr & Hlr & Hhr & Hcr).
  pose proof (uMaxInt_range _ Hwa) as HM.
  pose proof (fun v => contains_unfold a v Ha) as Hma.
  pose proof (fun v => contains_unfold b v Hb) as Hmb.
  pose proof (fun v => contains_unfold r v Hr) as Hmr.
  unfold crosswise_operands, meets_both_pieces, is_full, is_wrapped in Hx.
  rewrite <- Hsz in Hlb, Hhb, Hmb, Hx. rewrite Hszr in Hlr, Hhr, Hmr.
  remember (uMaxInt (sz a)) as M eqn:HeqM. clear HeqM.
  assert (Hv : forall v,
            (0 <= v <= M /\ (if h r <? l r then v <= h r \/ l r <= v else l r <= v <= h r)) <->
            (0 <= v <= M /\ (if h a <? l a then v <= h a \/ l a <= v else l a <= v <= h a)) /\
            (0 <= v <= M /\ (if h b <? l b then v <= h b \/ l b <= v else l b <= v <= h b))).
  { intros v. rewrite <- Hmr, <- Hma, <- Hmb. apply Hset. }
  clear Hset Hma Hmb Hmr Ha Hb Hr Hwa Hwb Hwr Hsz Hszr.
  remember (l a) as la. remember (h a) as ha. remember (l b) as lb. remember (h b) as hb.
  remember (l r) as lr. remember (h r) as hr.
  clear Heqla Heqha Heqlb Heqhb Heqlr Heqhr.
  apply andb_true_iff in Hx as [Hnf Hx].
  apply negb_true_iff in Hnf. apply orb_false_iff in Hnf as [Hnf Hfb].
  apply orb_false_iff in Hnf as [Hfa _]. bool_to_prop Hfa. bool_to_prop Hfb.
  destruct (Z.ltb_spec hr lr) as [Wr | Wr];
    destruct (Z.ltb_spec ha la) as [Wa | Wa]; destruct (Z.ltb_spec hb lb) as [Wb | Wb];
    bool_to_prop Hx; try discriminate Hx.
  (* both wrapped: the values [hb] and [lb] (or [ha] and [la]) are in the
     intersection, [hb + 1] and [ha + 1] are not *)
  1, 4: destruct Hx as [Hx | Hx];
    [ pose proof (Hv hb) as V1; pose proof (Hv (hb + 1)) as V2;
      pose proof (Hv lb) as V3; pose proof (Hv (ha + 1)) as V4
    | pose proof (Hv ha) as V1; pose proof (Hv (ha + 1)) as V2;
      pose proof (Hv la) as V3; pose proof (Hv (hb + 1)) as V4 ];
    clear Hv; value_in V1; value_out V2; value_in V3; value_out V4; lia.
  (* [a] wrapped, [b] meets both of its pieces *)
  1, 3: destruct Hx as [Hx1 Hx2];
    pose proof (Hv lb) as V1; pose proof (Hv (ha + 1)) as V2; pose proof (Hv la) as V3;
    (destruct (Z.eq_dec lb 0) as [Z0 | Z0];
     [pose proof (Hv (hb + 1)) as V4 | pose proof (Hv (lb - 1)) as V4]);
    clear Hv; value_in V1; value_out V2; value_in V3; value_out V4; lia.
  (* [b] wrapped, [a] meets both of its pieces *)
  all: destruct Hx as [Hx1 Hx2];
    pose proof (Hv la) as V1; pose proof (Hv (hb + 1)) as V2; pose proof (Hv lb) as V3;
    (destruct (Z.eq_dec la 0) as [Z0 | Z0];
     [pose proof (Hv (ha + 1)) as V4 | pose proof (Hv (la - 1)) as V4]);
    clear Hv; value_in V1; value_out V2; value_in V3; value_out V4; lia.
Qed.

(** C2, as stated, does not hold: for the wrapped intervals
    [0,10] U [128,255] (the bound of [x <=s 10]) and [0,4] U [6,255]
    (the bound of [not (x = 5)]) of width 8 the source takes the branch
    [h >= b.l] and returns the second operand, which contains 50
    although the first operand does not. *)
Lemma intersect_wrapped_not_exact :
  canonical (mk_interval 128 10 8 true) /\
  canonical (mk_interval 6 4 8 false) /\
  sz (mk_interval 128 10 8 true) = sz (mk_interval 6 4 8 false) /\
  ~ intersect_exact (mk_interval 128 10 8 true) (mk_interval 6 4 8 false).
Proof.
  split; [apply canonical_concrete; reflexivity |].
  split; [apply canonical_concrete; reflexivity |].
  split; [reflexivity |].
  unfold intersect_exact.
  change (intersect (mk_interval 128 10 8 true) (mk_interval 6 4 8 false))
    with (Some (mk_interval 6 4 8 false)).
  intros H. destruct (H 50) as [H1 _].
  assert (Hb : contains (mk_interval 6 4 8 false) 50).
  { unfold contains, is_wrapped. cbn [l h sz Z.ltb Z.compare Pos.compare Pos.compare_cont].
    right. change (uMaxInt 8) with 255. lia. }
  destruct (H1 Hb) as [Ha _].
  unfold contains, is_wrapped in Ha.
  cbn [l h sz Z.ltb Z.compare Pos.compare Pos.compare_cont] in Ha.
  change (uMaxInt 8) with 255 in Ha. lia.
Qed.

(** C2 (amended): on canonical intervals of one width, [intersect]
    signals emptiness exactly when the two value sets are disjoint;
    otherwise its result is a canonical interval of that width whose
    value set contains the set intersection, and is equal to it on
    [exact_operands]: when an operand is full, when the operands are
    equal, when neither is wrapped, when both are wrapped and the low
    piece of neither reaches the high piece of the other, and when one is
    wrapped and the other meets only one of its two pieces from the
    outside.  On [crosswise_operands] (two wrapped operands that overlap
    crosswise, or a non-wrapped operand that meets both pieces of a
    wrapped one) the result is the wrapped operand [returned_operand],
    and no canonical interval of that width holds exactly the
    intersection. *)
Theorem intersect_sound_and_exact_cases (a b : interval) :
  canonical a -> canonical b -> sz a = sz b ->
  (intersect a b = None <-> forall v, ~ (contains a v /\ contains b v)) /\
  (forall r, intersect a b = Some r ->
     canonical r /\ sz r = sz a /\
     (forall v, contains a v /\ contains b v -> contains r v) /\
     (exact_operands a b = true ->
      forall v, contains r v <-> contains a v /\ contains b v)) /\
  (crosswise_operands a b = true ->
   intersect a b = Some (returned_operand a b) /\
   is_wrapped (returned_operand a b) = true /\
   (returned_operand a b = a \/ returned_operand a b = b) /\
   forall r, canonical r -> sz r = sz a ->
             ~ (forall v, contains r v <-> contains a v /\ contains b v)).
Proof.
  intros Ha Hb Hsz.
  pose proof (intersect_post_ok a b Ha Hb Hsz) as Hpost.
  unfold intersect_post in Hpost.
  split; [| split].
  - destruct (intersect a b) as [r0 |]; [| tauto].
    destruct Hpost as (_ & _ & _ & (v0 & Hv0) & _).
    split; [discriminate |]. intros Hempty. destruct (Hempty v0 Hv0).
  - intros r Hr. rewrite Hr in Hpost. destruct Hpost as (H1 & H2 & H3 & _ & H5).
    split; [exact H1 |]. split; [exact H2 |].
    split; [intros v [Hva Hvb]; apply H3; assumption |].
    intros Hex v. split; [apply H5, Hex |].
    intros [Hva Hvb]. apply H3; assumption.
  - intros Hx. split; [apply crosswise_result, Hx |].
    split; [| split].
    + revert Hx. unfold crosswise_operands, returned_operand.
      destruct (is_wrapped a) eqn:Wa; destruct (is_wrapped b) eqn:Wb;
        rewrite ?andb_false_r; try discriminate; intros _;
        try reflexivity; try assumption; destruct (l b <=? h a); assumption.
    + unfold returned_operand.
      destruct (is_wrapped a); [| tauto].
      destruct (is_wrapped b); [| tauto]. destruct (l b <=? h a); tauto.
    + intros r Hr Hszr. apply (crosswise_not_range a b r Ha Hb Hr Hsz Hszr Hx).
Qed.

Lemma intersect_sound_and_exact_cases_witness :
  canonical (mk_interval 128 10 8 true) /\
  canonical (mk_interval 6 4 8 false) /\
  sz (mk_interval 128 10 8 true) = sz (mk_interval 6 4 8 false) /\
  crosswise_operands (mk_interval 128 10 8 true) (mk_interval 6 4 8 false) = true /\
  intersect (mk_interval 128 10 8 true) (mk_interval 6 4 8 false)
  = Some (returned_operand (mk_interval 128 10 8 true) (mk_interval 6 4 8 false)).
Proof.
  assert (Ha : canonical (mk_interval 128 10 8 true))
    by (apply canonical_concrete; reflexivity).
  assert (Hb : canonical (mk_interval 6 4 8 false))
    by (apply canonical_concrete; reflexivity).
  split; [exact Ha |]. split; [exact Hb |]. split; [reflexivity |].
  split; [reflexivity |].
  exact (proj1 (proj2 (proj2 (intersect_sound_and_exact_cases
                                (mk_interval 128 10 8 true) (mk_interval 6 4 8 false)
                                Ha Hb eq_refl)) eq_refl)).
Defined.

(** C6, as stated, does not hold: negating the tight interval [0,5] of
    width 8 gives [6,255] marked not tight, and negating that does not
    take a complementing branch, so it does not give [0,5] back. *)
Lemma negate_round_trip_fails :
  canonical (mk_interval 0 5 8 true) /\
  tight (mk_interval 0 5 8 true) = true /\
  is_full (mk_interval 0 5 8 true) = false /\
  ~ negate_round_trip (mk_interval 0 5 8 true).
Proof.
  split; [apply canonical_concrete; reflexivity |].
  split; [reflexivity |]. split; [reflexivity |].
  intros (r1 & r2 & H1 & H2 & H3).
  change (negate (mk_interval 0 5 8 true)) with (Some (mk_interval 6 255 8 false)) in H1.
  injection H1 as <-.
  change (negate (mk_interval 6 255 8 false)) with (Some (mk_interval 0 255 1 false)) in H2.
  injection H2 as <-. discriminate H3.
Qed.

(** C6 (amended): negating a tight, non-full canonical interval [i]
    succeeds and gives the canonical interval of the same width, not
    marked tight, whose values are exactly the values of that width
    outside [i]. *)
Theorem negate_once_exact (i : interval) :
  canonical i -> tight i = true -> is_full i = false ->
  exists r,
    negate i = Some r /\
    canonical r /\ sz r = sz i /\ tight r = false /\
    (forall v, 0 <= v <= uMaxInt (sz i) -> (contains r v <-> ~ contains i v)).
Proof. apply negate_tight_complement. Qed.

Lemma negate_once_exact_witness :
  canonical (mk_interval 0 5 8 true) /\
  exists r,
    negate (mk_interval 0 5 8 true) = Some r /\
    canonical r /\ sz r = 8 /\ tight r = false /\
    (forall v, 0 <= v <= uMaxInt 8 ->
       (contains r v <-> ~ contains (mk_interval 0 5 8 true) v)).
Proof.
  assert (Hc : canonical (mk_interval 0 5 8 true))
    by (apply canonical_concrete; reflexivity).
  split; [exact Hc |].
  exact (negate_once_exact (mk_interval 0 5 8 true) Hc eq_refl eq_refl).
Defined.




(** C10: whatever the input interval, a result of [negate] is not marked
    tight; hence the full-and-tight test of [simplify] is false on it,
    and negating it again takes the non-tight branch, which succeeds with
    endpoints 0 and [uMaxInt]. *)
Theorem negate_never_tight (i r : interval) :
  negate i = Some r ->
  tight r = false /\
  is_full r && tight r = false /\
  exists r', negate r = Some r' /\ l r' = 0 /\ h r' = uMaxInt (sz r) /\ tight r' = false.
Proof.
  intros Hn. pose proof (negate_result_not_tight i r Hn) as Ht.
  split; [exact Ht |]. split; [rewrite Ht; apply andb_false_r |].
  exists (mk_interval 0 (uMaxInt (sz r)) 1 false).
  split; [apply negate_nontight, Ht |]. repeat split.
Qed.

Lemma negate_never_tight_witness :
  negate (mk_interval 200 100 8 true) = Some (mk_interval 101 199 8 false) /\
  tight (mk_interval 101 199 8 false) = false.
Proof.
  split; [reflexivity |].
  exact (proj1 (negate_never_tight (mk_interval 200 100 8 true)
                  (mk_interval 101 199 8 false) eq_refl)).
Defined.

(** ** The bound extractor *)

Lemma well_sorted_App (d : func_decl) (args : list expr) :
  well_sorted (App d args) = true ->
  forallb well_sorted args = true /\
  match d, args with
  | OP_TRUE, [] => true
  | OP_FALSE, [] => true
  | OP_NOT, [a] => is_bool a
  | OP_EQ, [a; b] => bool_decide (get_sort a = get_sort b)
  | OP_ULEQ, [a; b] | OP_SLEQ, [a; b] =>
    match get_sort a with
    | BV_sort _ => bool_decide (get_sort a = get_sort b)
    | _ => false
    end
  | OP_BV_NUM r n, [] => (1 <=? n) && (0 <=? r) && (r <? 2 ^ n)
  | OP_OTHER _ range, _ => sort_ok range
  | _, _ => false
  end = true.
Proof. intros H. apply andb_true_iff in H. exact H. Qed.

Lemma is_number_inv (a : expr) (n w : Z) :
  well_sorted a = true -> is_number a = Some (n, w) ->
  a = mk_numeral n w /\ valid_width w /\ 0 <= n < 2 ^ w.
Proof.
  destruct a as [d args]. intros Hws Hn.
  unfold is_number, is_numeral in Hn.
  destruct d; try discriminate Hn.
  destruct (Z.leb_spec n0 64) as [Hle |]; [| discriminate Hn].
  injection Hn as -> ->.
  apply well_sorted_App in Hws as [_ Hws].
  destruct args; [| discriminate Hws].
  apply andb_true_iff in Hws as [Hws H3]. apply andb_true_iff in Hws as [H1 H2].
  apply Z.leb_le in H1, H2. apply Z.ltb_lt in H3.
  unfold valid_width. repeat split; lia.
Qed.

Lemma is_number_numeral (a : expr) (n w : Z) :
  is_number a = Some (n, w) -> is_numeral_b a = true.
Proof.
  unfold is_number, is_numeral_b. destruct (is_numeral a) as [[] |]; [reflexivity | discriminate].
Qed.

(** A term that is not a [uint64_t] numeral but has the sort of one is
    not a numeral at all. *)
Lemma not_number_not_numeral (x c : expr) (n w : Z) :
  is_number x = None -> is_number c = Some (n, w) ->
  get_sort x = get_sort c -> is_numeral_b x = false.
Proof.
  destruct x as [dx ax], c as [dc ac]. unfold is_number, is_numeral_b, is_numeral.
  destruct dx; try reflexivity. destruct dc; try discriminate.
  cbn [get_sort]. intros Hx Hc [= ->].
  destruct (n1 <=? 64); discriminate.
Qed.

Lemma get_sort_numeral (n w : Z) : get_sort (mk_numeral n w) = BV_sort w.
Proof. reflexivity. Qed.

(** [is_bound] on an atom of a recognized shape. *)
Lemma is_bound_atom (k : cmp_kind) (literal_left : bool) (n w : Z) (x : expr) :
  w <= 64 -> is_numeral_b x = false ->
  is_bound (atom k literal_left n w x) = Some (x, shape_interval k literal_left n w).
Proof.
  intros Hw Hx.
  assert (Hnum : is_number (mk_numeral n w) = Some (n, w)).
  { unfold is_number. cbn [mk_numeral is_numeral].
    destruct (Z.leb_spec w 64); [reflexivity | lia]. }
  assert (Hnx : is_number x = None).
  { unfold is_number. unfold is_numeral_b in Hx.
    destruct (is_numeral x); [discriminate Hx | reflexivity]. }
  destruct k, literal_left; unfold atom, mk_cmp, mk_ule, mk_sle, mk_eq, is_bound;
    cbn [is_bv_ule is_bv_sle is_eq]; rewrite ?Hnum, ?Hnx, ?Hx; reflexivity.
Qed.

(** The shapes [is_bound] accepts, on well-sorted terms. *)
Lemma is_bound_shapes (e t1 : expr) (b : interval) :
  well_sorted e = true -> is_bound e = Some (t1, b) ->
  exists k literal_left n w,
    valid_width w /\ 0 <= n < 2 ^ w /\
    is_numeral_b t1 = false /\ get_sort t1 = BV_sort w /\
    e = atom k literal_left n w t1 /\ b = shape_interval k literal_left n w.
Proof.
  destruct e as [d args]. intros Hws Hb.
  apply well_sorted_App in Hws as [Hargs Hsort].
  unfold is_bound, is_bv_ule, is_bv_sle, is_eq in Hb.
  destruct d; try discriminate Hb;
    destruct args as [| lhs [| rhs [| ? ?]]]; try discriminate Hb;
    cbn [forallb] in Hargs;
    apply andb_true_iff in Hargs as [Hl Hargs];
    apply andb_true_iff in Hargs as [Hr _];
    (assert (Hs : get_sort lhs = get_sort rhs)
       by (destruct (get_sort lhs); try discriminate Hsort;
           apply bool_decide_eq_true in Hsort; exact Hsort));
    destruct (is_number lhs) as [[n w] |] eqn:Hnl.
  all: try (destruct (is_numeral_b rhs) eqn:Hnr; [discriminate Hb |];
            injection Hb as <- <-;
            destruct (is_number_inv lhs n w Hl Hnl) as (-> & Hw & Hn)).
  all: try (destruct (is_number rhs) as [[n w] |] eqn:Hnr; [| discriminate Hb];
            injection Hb as <- <-;
            pose proof (not_number_not_numeral lhs rhs n w Hnl Hnr Hs) as Hnot;
            destruct (is_number_inv rhs n w Hr Hnr) as (-> & Hw & Hn)).
  1: exists Cmp_eq, true, n, w. 2: exists Cmp_eq, false, n, w.
  3: exists Cmp_ule, true, n, w. 4: exists Cmp_ule, false, n, w.
  5: exists Cmp_sle, true, n, w. 6: exists Cmp_sle, false, n, w.
  all: cbn [get_sort mk_numeral] in Hs;
       (split; [exact Hw |]); (split; [exact Hn |]);
       (split; [assumption |]); (split; [congruence |]);
       split; reflexivity.
Qed.

Lemma shape_interval_wf (k : cmp_kind) (literal_left : bool) (n w : Z) :
  valid_width w -> 0 <= n < 2 ^ w ->
  canonical (shape_interval k literal_left n w) /\
  tight (shape_interval k literal_left n w) = true /\
  sz (shape_interval k literal_left n w) = w.
Proof.
  intros Hw Hn.
  pose proof (uMaxInt_spec w Hw) as HM. pose proof (uMaxInt_range w Hw) as HMr.
  pose proof (sign_bit_spec w Hw) as Hsb.
  destruct (pow2_half w ltac:(unfold valid_width in Hw; lia)) as [Hp2 Hp1].
  assert (Hsb1 : wrap64 (sign_bit w - 1) = sign_bit w - 1).
  { apply Z.mod_small. lia. }
  destruct k, literal_left; unfold shape_interval;
    rewrite ?ctor_sz, ?ctor_tight;
    (split; [apply ctor_canonical; [exact Hw | lia | lia] | tauto]).
Qed.

Lemma is_bound_wf (e t1 : expr) (b : interval) :
  well_sorted e = true -> is_bound e = Some (t1, b) ->
  canonical b /\ tight b = true /\
  get_sort t1 = BV_sort (sz b) /\ is_numeral_b t1 = false.
Proof.
  intros Hws Hb.
  destruct (is_bound_shapes e t1 b Hws Hb)
    as (k & side & n & w & Hw & Hn & Hnum & Hsort & _ & ->).
  destruct (shape_interval_wf k side n w Hw Hn) as (H1 & H2 & H3).
  rewrite H3. tauto.
Qed.

Lemma bv_val_numeral (rho : valuation) (n w : Z) : bv_val rho (mk_numeral n w) = n.
Proof. reflexivity. Qed.

Lemma bv_val_other (rho : valuation) (t : expr) :
  is_numeral_b t = false -> bv_val rho t = rho t.
Proof.
  unfold is_numeral_b, bv_val. destruct (is_numeral t) as [[] |]; [discriminate | reflexivity].
Qed.

(** The interval of a shape denotes exactly the values that satisfy the
    atom. *)
Lemma shape_exact (rho : valuation) (k : cmp_kind) (literal_left : bool)
    (n w : Z) (x : expr) :
  valid_width w -> 0 <= n < 2 ^ w ->
  is_numeral_b x = false -> get_sort x = BV_sort w -> fits rho ->
  (holdsb rho (atom k literal_left n w x) = true <->
   contains (shape_interval k literal_left n w) (rho x)).
Proof.
  intros Hw Hn Hnum Hsort Hfit.
  pose proof (uMaxInt_spec w Hw) as HM. pose proof (uMaxInt_range w Hw) as HMr.
  pose proof (sign_bit_spec w Hw) as Hsb.
  destruct (pow2_half w ltac:(unfold valid_width in Hw; lia)) as [Hp2 Hp1].
  assert (Hsb1 : wrap64 (sign_bit w - 1) = sign_bit w - 1).
  { apply Z.mod_small. lia. }
  pose proof (Hfit x w Hsort ltac:(unfold valid_width in Hw; lia)) as Hv.
  pose proof (bv_val_other rho x Hnum) as Hval.
  assert (Hbv : get_bv_size x = w) by (unfold get_bv_size; rewrite Hsort; reflexivity).
  destruct k, literal_left; unfold shape_interval;
    rewrite ctor_contains by (try exact Hw; lia);
    unfold atom, mk_cmp, mk_ule, mk_sle, mk_eq; cbn [holdsb];
    rewrite ?bv_val_numeral, ?Hval, ?Hbv;
    change (get_bv_size (mk_numeral n w)) with w;
    unfold to_signed; rewrite ?Hsb1, ?Hsb;
    cmp_cases; split; intros; try discriminate; try reflexivity; lia.
Qed.

Lemma is_bound_exact (rho : valuation) (e t1 : expr) (b : interval) :
  well_sorted e = true -> fits rho -> is_bound e = Some (t1, b) ->
  (holdsb rho e = true <-> contains b (rho t1)).
Proof.
  intros Hws Hfit Hb.
  destruct (is_bound_shapes e t1 b Hws Hb)
    as (k & side & n & w & Hw & Hn & Hnum & Hsort & -> & ->).
  apply shape_exact; assumption.
Qed.

(** C3: for an atom of one of the three shapes (unsigned less-or-equal,
    signed less-or-equal, equality) with a literal of width at most 64 on
    either side of a term [x] of that width, the extractor returns an
    interval for [x], and whenever the atom is true for an assignment of
    fixed-width values, the interval contains the value of [x]. *)
Theorem extraction_sound (rho : valuation) (k : cmp_kind) (literal_left : bool)
    (n w : Z) (x : expr) :
  valid_width w -> 0 <= n < 2 ^ w ->
  is_numeral_b x = false -> get_sort x = BV_sort w -> fits rho ->
  holdsb rho (atom k literal_left n w x) = true ->
  exists b, is_bound (atom k literal_left n w x) = Some (x, b) /\
            contains b (rho x).
Proof.
  intros Hw Hn Hnum Hsort Hfit Hholds.
  exists (shape_interval k literal_left n w). split.
  - apply is_bound_atom; [unfold valid_width in Hw; lia | exact Hnum].
  - apply shape_exact; assumption.
Qed.

(** A valuation that gives one bit-vector term a value of its width and
    every other term the value 0 fits. *)
Lemma fits_point (x0 : expr) (v w : Z) :
  get_sort x0 = BV_sort w -> 0 <= v < 2 ^ w ->
  fits (fun e => if bool_decide (e = x0) then v else 0).
Proof.
  intros Hs Hv e n He Hn. case_bool_decide as Heq.
  - subst e. rewrite Hs in He. injection He as ->. exact Hv.
  - split; [lia | apply Z.pow_pos_nonneg; lia].
Qed.

Lemma extraction_sound_witness :
  exists b,
    is_bound (atom Cmp_sle false 9 8 (App (OP_OTHER 0 (BV_sort 8)) [])) =
      Some (App (OP_OTHER 0 (BV_sort 8)) [], b) /\
    contains b 7.
Proof.
  exact (extraction_sound
           (fun e => if bool_decide (e = App (OP_OTHER 0 (BV_sort 8)) []) then 7 else 0)
           Cmp_sle false 9 8 (App (OP_OTHER 0 (BV_sort 8)) [])
           ltac:(unfold valid_width; lia) ltac:(lia) eq_refl eq_refl
           (fits_point (App (OP_OTHER 0 (BV_sort 8)) []) 7 8 eq_refl ltac:(lia))
           eq_refl).
Defined.

(** ** Stripping negations *)

Lemma strip_not_unfold (t : expr) (sign : bool) :
  strip_not t sign =
  match is_not t with
  | Some a => strip_not a (negb sign)
  | None => (t, sign)
  end.
Proof.
  destruct t as [d args].
  destruct d; try reflexivity.
  destruct args as [| a [| ? ?]]; reflexivity.
Qed.

Lemma is_not_Some (t a : expr) : is_not t = Some a -> t = mk_not a.
Proof.
  destruct t as [d args]. unfold is_not.
  destruct d; try discriminate.
  destruct args as [| a' [| ? ?]]; try discriminate.
  intros [= ->]. reflexivity.
Qed.

(** Induction along the chain of negations at the head of a term. *)
Lemma strip_not_ind (P : expr -> Prop) :
  (forall t, is_not t = None -> P t) ->
  (forall a, P a -> P (mk_not a)) ->
  forall t, P t.
Proof.
  intros Hbase Hstep t.
  induction t as [d args IH] using expr_ind_args.
  destruct (is_not (App d args)) as [a |] eqn:Hn; [| apply Hbase, Hn].
  pose proof (is_not_Some _ _ Hn) as Heq. rewrite Heq. apply Hstep.
  unfold mk_not in Heq. injection Heq as -> ->.
  apply Forall_cons in IH as [Ha _]. exact Ha.
Qed.

Lemma strip_not_is_not (t : expr) (sign : bool) :
  is_not (strip_not t sign).1 = None.
Proof.
  revert sign. induction t as [t Hn | a IH] using strip_not_ind; intros sign.
  - rewrite strip_not_unfold, Hn. exact Hn.
  - rewrite strip_not_unfold. cbn [is_not mk_not]. apply IH.
Qed.

Lemma strip_not_well_sorted (t : expr) (sign : bool) :
  well_sorted t = true -> well_sorted (strip_not t sign).1 = true.
Proof.
  revert sign. induction t as [t Hn | a IH] using strip_not_ind; intros sign Hws.
  - rewrite strip_not_unfold, Hn. exact Hws.
  - rewrite strip_not_unfold. cbn [is_not mk_not]. apply IH.
    apply well_sorted_App in Hws as [Hargs _]. cbn [forallb] in Hargs.
    apply andb_true_iff in Hargs as [Ha _]. exact Ha.
Qed.

Lemma strip_not_fact (rho : valuation) (t : expr) (sign : bool) :
  fact_holds rho (strip_not t sign) <-> fact_holds rho (t, sign).
Proof.
  revert sign. induction t as [t Hn | a IH] using strip_not_ind; intros sign.
  - rewrite strip_not_unfold, Hn. reflexivity.
  - rewrite strip_not_unfold. cbn [is_not mk_not]. rewrite IH.
    unfold fact_holds. cbn [fst snd].
    change (holdsb rho (mk_not a)) with (negb (holdsb rho a)).
    destruct (holdsb rho a), sign; cbn; intuition congruence.
Qed.

Lemma strip_not_id (t : expr) (sign : bool) :
  is_not t = None -> strip_not t sign = (t, sign).
Proof. intros Hn. rewrite strip_not_unfold, Hn. reflexivity. Qed.

(** ** One call of [assert_expr] *)

Lemma apply_sign_cases (vc sign : bool) (b b' : interval) :
  apply_sign vc sign b = Returned b' ->
  (sign = false /\ b' = b) \/
  (sign = true /\ negate b = Some b') \/
  (sign = true /\ vc = false /\ negate b = None /\ b' = b).
Proof.
  unfold apply_sign. destruct sign; [| intros [= ->]; tauto].
  destruct (negate b) as [r |]; [intros [= ->]; tauto |].
  destruct vc; [discriminate |]. intros [= ->]. tauto.
Qed.

(** What a returning call does to the simplifier: nothing, or one new
    bound with its undo record. *)
Lemma assert_expr_step (vc : bool) (t : expr) (sign r : bool)
    (s s' : bv_bounds_simplifier) :
  assert_expr vc t sign s = Returned (r, s') ->
  (s' = s /\
   (r = false <->
    exists t1 b old, asserted_bound vc t sign = Some (t1, b) /\
                     m_bound s !! t1 = Some old /\ intersect old b = None)) \/
  (r = true /\
   exists t1 b, asserted_bound vc t sign = Some (t1, b) /\
     ((m_bound s !! t1 = None /\
       s' = set_bounds s (m_scopes s ++ [mk_undo_bound t1 None true])
                         (<[t1 := b]> (m_bound s))) \/
      (exists old intr,
         m_bound s !! t1 = Some old /\ intersect old b = Some intr /\
         interval_eqb old intr = false /\
         s' = set_bounds s (m_scopes s ++ [mk_undo_bound t1 (Some old) false])
                           (<[t1 := intr]> (m_bound s))))).
Proof.
  unfold assert_expr, asserted_bound.
  destruct (strip_not t sign) as [t0 sign0].
  destruct (is_bound t0) as [[t1 b] |].
  2: { intros [= <- <-]. left. split; [reflexivity |].
       split; [discriminate |]. intros (? & ? & ? & H & _). discriminate H. }
  destruct (apply_sign vc sign0 b) as [b' |]; [| discriminate].
  destruct (m_bound s !! t1) as [old |] eqn:Hold.
  2: { intros [= <- <-]. right. split; [reflexivity |].
       exists t1, b'. split; [reflexivity |]. left. tauto. }
  destruct (intersect old b') as [intr |] eqn:Hint.
  2: { intros [= <- <-]. left. split; [reflexivity |].
       split; [| reflexivity]. intros _. exists t1, b', old. tauto. }
  destruct (interval_eqb old intr) eqn:Heq; intros [= <- <-].
  - left. split; [reflexivity |]. split; [discriminate |].
    intros (? & ? & ? & [= <- <-] & Ho & Hi). congruence.
  - right. split; [reflexivity |]. exists t1, b'. split; [reflexivity |].
    right. exists old, intr. tauto.
Qed.

(** ** Push/pop symmetry *)

Lemma set_bounds_id (s : bv_bounds_simplifier) :
  set_bounds s (m_scopes s) (m_bound s) = s.
Proof. destruct s; reflexivity. Qed.

(** A run of successful calls appends undo records whose replay, last
    record first, gives back the bound map of the start. *)
Lemma run_asserts_undo (vc : bool) (facts : list (expr * bool))
    (s0 s : bv_bounds_simplifier) :
  run_asserts vc facts s0 = Some s ->
  exists undo,
    s = set_bounds s0 (m_scopes s0 ++ undo) (m_bound s) /\
    fold_left undo_one (rev undo) (m_bound s) = m_bound s0.
Proof.
  revert s0. induction facts as [| [t sign] facts IH]; intros s0.
  - intros [= <-]. exists []. rewrite app_nil_r, set_bounds_id. split; reflexivity.
  - cbn [run_asserts].
    destruct (assert_expr vc t sign s0) as [[r s1] |] eqn:Hstep; [| discriminate].
    destruct r; [| discriminate]. intros Hrun.
    destruct (IH s1 Hrun) as (undo & Hs & Hfold).
    apply assert_expr_step in Hstep
      as [[-> _] | (_ & t1 & b & _ & [[Hnone ->] | (old & intr & Hold & _ & _ & ->)])].
    + exists undo. split; assumption.
    + exists (mk_undo_bound t1 None true :: undo).
      cbn [set_bounds m_scopes m_bound m_propagate_eq m_expr_vars m_bound_exprs] in *.
      rewrite <- app_assoc in Hs. split; [exact Hs |].
      cbn [rev]. rewrite fold_left_app, Hfold. cbn [fold_left undo_one undo_fresh undo_e].
      apply delete_insert_id, Hnone.
    + exists (mk_undo_bound t1 (Some old) false :: undo).
      cbn [set_bounds m_scopes m_bound m_propagate_eq m_expr_vars m_bound_exprs] in *.
      rewrite <- app_assoc in Hs. split; [exact Hs |].
      cbn [rev]. rewrite fold_left_app, Hfold.
      cbn [fold_left undo_one undo_fresh undo_e undo_b].
      rewrite insert_insert_eq. apply insert_id, Hold.
Qed.

(** Popping what a run has pushed restores the simplifier, provided an
    empty stack came with an empty bound map. *)
Lemma pop_after_run (vc : bool) (facts : list (expr * bool))
    (s0 s : bv_bounds_simplifier) :
  scopes_cover s0 ->
  run_asserts vc facts s0 = Some s ->
  (scope_level s0 <= scope_level s)%nat /\
  pop (scope_level s - scope_level s0) s = Some s0.
Proof.
  intros Hcover Hrun.
  destruct (run_asserts_undo vc facts s0 s Hrun) as (undo & Hs & Hfold).
  assert (Hsc : m_scopes s = m_scopes s0 ++ undo) by (rewrite Hs; reflexivity).
  unfold scope_level. rewrite Hsc, length_app.
  split; [lia |].
  replace (length (m_scopes s0) + length undo - length (m_scopes s0))%nat
    with (length undo) by lia.
  unfold pop. rewrite Hsc.
  destruct (m_scopes s0 ++ undo) as [| u0 rest] eqn:Happ.
  { apply app_eq_nil in Happ as [H0 ->]. cbn [rev fold_left] in Hfold.
    f_equal. rewrite Hs, Hfold, <- H0. apply set_bounds_id. }
  rewrite <- Happ. rewrite length_app.
  destruct (Nat.ltb_spec (length (m_scopes s0) + length undo) (length undo)); [lia |].
  replace (length (m_scopes s0) + length undo - length undo)%nat
    with (length (m_scopes s0)) by lia.
  assert (Hset : forall sc bd, set_bounds s sc bd = set_bounds s0 sc bd).
  { intros sc bd. rewrite Hs. reflexivity. }
  rewrite !Hset.
  destruct (Nat.eqb_spec (length (m_scopes s0)) 0) as [Hz | Hnz].
  - apply length_zero_iff_nil in Hz. f_equal.
    rewrite <- (Hcover Hz). rewrite <- Hz at 1. apply set_bounds_id.
  - rewrite take_app_length, drop_app_length, Hfold. f_equal. apply set_bounds_id.
Qed.

(** ** The interval a call intersects into the bound map *)

Lemma negate_None_full (i : interval) :
  negate i = None -> tight i = true /\ is_full i = true.
Proof.
  unfold negate. destruct (tight i); cbn [negb]; [| discriminate].
  destruct (is_full i); [tauto |].
  destruct (l i =? 0); [discriminate |]. destruct (uMaxInt (sz i) =? h i); discriminate.
Qed.

Lemma negate_Some_tight_not_full (i r : interval) :
  tight i = true -> negate i = Some r -> is_full i = false.
Proof.
  intros Ht Hn. destruct (is_full i) eqn:Hf; [| reflexivity].
  rewrite (negate_tight_full i Ht Hf) in Hn. discriminate Hn.
Qed.

Lemma full_contains (i : interval) (v : Z) :
  is_full i = true -> 0 <= v <= uMaxInt (sz i) -> contains i v.
Proof.
  unfold is_full, contains, is_wrapped. intros Hf Hv.
  apply andb_true_iff in Hf as [Hl Hh]. apply Z.eqb_eq in Hl, Hh.
  rewrite Hl, Hh. destruct (Z.ltb_spec (uMaxInt (sz i)) 0); lia.
Qed.

Lemma asserted_bound_inv (vc : bool) (t : expr) (sign : bool) (t1 : expr) (b : interval) :
  asserted_bound vc t sign = Some (t1, b) ->
  exists b0, is_bound (strip_not t sign).1 = Some (t1, b0) /\
             apply_sign vc (strip_not t sign).2 b0 = Returned b.
Proof.
  unfold asserted_bound. destruct (strip_not t sign) as [t0 sign0]. cbn [fst snd].
  destruct (is_bound t0) as [[t1' b0] |]; [| discriminate].
  destruct (apply_sign vc sign0 b0) as [b' |] eqn:Hs; [| discriminate].
  intros [= -> ->]. exists b0. tauto.
Qed.

Lemma asserted_bound_wf (vc : bool) (t : expr) (sign : bool) (t1 : expr) (b : interval) :
  well_sorted t = true -> asserted_bound vc t sign = Some (t1, b) ->
  canonical b /\ get_sort t1 = BV_sort (sz b) /\ is_numeral_b t1 = false.
Proof.
  intros Hws Hb. apply asserted_bound_inv in Hb as (b0 & Hb0 & Hsign).
  pose proof (strip_not_well_sorted t sign Hws) as Hws0.
  destruct (is_bound_wf _ _ _ Hws0 Hb0) as (Hc & Ht & Hsort & Hnum).
  apply apply_sign_cases in Hsign as [[_ ->] | [[_ Hn] | (_ & _ & _ & ->)]]; try tauto.
  pose proof (negate_Some_tight_not_full b0 b Ht Hn) as Hnf.
  destruct (negate_tight_complement b0 Hc Ht Hnf) as (r & Hr & Hcr & Hsr & _).
  rewrite Hn in Hr. injection Hr as <-. rewrite Hsr. tauto.
Qed.

Lemma fits_range (rho : valuation) (t : expr) (w : Z) :
  fits rho -> get_sort t = BV_sort w -> valid_width w ->
  0 <= rho t <= uMaxInt w.
Proof.
  intros Hfit Hs Hw. rewrite (uMaxInt_spec w Hw).
  pose proof (Hfit t w Hs (proj1 Hw)). lia.
Qed.

Lemma asserted_bound_sound (vc : bool) (rho : valuation) (t : expr) (sign : bool)
    (t1 : expr) (b : interval) :
  well_sorted t = true -> fits rho -> fact_holds rho (t, sign) ->
  asserted_bound vc t sign = Some (t1, b) ->
  contains b (rho t1).
Proof.
  intros Hws Hfit Hfact Hb. apply asserted_bound_inv in Hb as (b0 & Hb0 & Hsign).
  pose proof (strip_not_well_sorted t sign Hws) as Hws0.
  apply (strip_not_fact rho) in Hfact. unfold fact_holds in Hfact.
  destruct (is_bound_wf _ _ _ Hws0 Hb0) as (Hc & Ht & Hsort & Hnum).
  pose proof (is_bound_exact rho _ _ _ Hws0 Hfit Hb0) as Hex.
  pose proof (fits_range rho t1 (sz b0) Hfit Hsort (proj1 Hc)) as Hv.
  apply apply_sign_cases in Hsign as [[Hs ->] | [[Hs Hn] | (Hs & _ & Hn & ->)]];
    rewrite Hs in Hfact; cbn [negb] in Hfact.
  - apply Hex, Hfact.
  - pose proof (negate_Some_tight_not_full b0 b Ht Hn) as Hnf.
    destruct (negate_tight_complement b0 Hc Ht Hnf) as (r & Hr & _ & _ & _ & Hcompl).
    rewrite Hn in Hr. injection Hr as <-. apply Hcompl; [exact Hv |].
    intros Hin. apply Hex in Hin. congruence.
  - apply full_contains; [apply negate_None_full, Hn | exact Hv].
Qed.

(** ** The invariant *)

Lemma bound_map_wf_insert (m : gmap expr interval) (t : expr) (i : interval) :
  bound_map_wf m -> canonical i -> get_sort t = BV_sort (sz i) ->
  is_numeral_b t = false -> bound_map_wf (<[t := i]> m).
Proof.
  intros Hm Hc Hs Hn t' i' Hl.
  destruct (decide (t = t')) as [<- | Hne].
  - rewrite lookup_insert_eq in Hl. injection Hl as <-. tauto.
  - rewrite lookup_insert_ne in Hl by exact Hne. apply (Hm t' i' Hl).
Qed.

Lemma bound_map_wf_delete (m : gmap expr interval) (t : expr) :
  bound_map_wf m -> bound_map_wf (delete t m).
Proof.
  intros Hm t' i' Hl. apply lookup_delete_Some in Hl as [_ Hl]. apply (Hm t' i' Hl).
Qed.

Lemma bound_map_wf_undo (m : gmap expr interval) (u : undo_bound) :
  bound_map_wf m -> undo_wf u -> bound_map_wf (undo_one m u).
Proof.
  intros Hm Hu. unfold undo_one. destruct (undo_fresh u) eqn:Hf.
  - apply bound_map_wf_delete, Hm.
  - destruct (Hu Hf) as (b & -> & Hc & Hs & Hn).
    apply bound_map_wf_insert; assumption.
Qed.

Lemma bound_map_wf_undo_all (us : list undo_bound) (m : gmap expr interval) :
  bound_map_wf m -> Forall undo_wf us -> bound_map_wf (fold_left undo_one us m).
Proof.
  revert m. induction us as [| u us IH]; intros m Hm Hus; [exact Hm |].
  apply Forall_cons in Hus as [Hu Hus]. cbn [fold_left].
  apply IH; [apply bound_map_wf_undo; assumption | exact Hus].
Qed.

Lemma inv_init (p : bool) : inv (init p).
Proof.
  split; [| split; [| split]].
  - intros t i Hl. cbn in Hl. rewrite lookup_empty in Hl. discriminate Hl.
  - constructor.
  - intros _. reflexivity.
  - intros t set Hl. cbn in Hl. rewrite lookup_empty in Hl. discriminate Hl.
Qed.

Lemma assert_expr_inv (vc : bool) (t : expr) (sign r : bool)
    (s s' : bv_bounds_simplifier) :
  well_sorted t = true -> inv s ->
  assert_expr vc t sign s = Returned (r, s') -> inv s'.
Proof.
  intros Hws (Hb & Hsc & Hcov & Hvars) Hstep.
  apply assert_expr_step in Hstep
    as [[-> _] | (_ & t1 & b & Hab & [[Hnone ->] | (old & intr & Hold & Hint & _ & ->)])].
  - unfold inv; tauto.
  - destruct (asserted_bound_wf vc t sign t1 b Hws Hab) as (Hc & Hs & Hn).
    split; [| split; [| split]];
      unfold bounds_wf, scopes_wf, scopes_cover;
      cbn [set_bounds m_bound m_scopes m_expr_vars].
    + apply bound_map_wf_insert; assumption.
    + apply Forall_app. split; [exact Hsc |]. constructor; [| constructor].
      intros Hf. discriminate Hf.
    + intros Hnil. unfold set_bounds in Hnil. cbn [m_scopes] in Hnil.
      apply app_eq_nil in Hnil as [_ Hnil]. discriminate Hnil.
    + exact Hvars.
  - destruct (asserted_bound_wf vc t sign t1 b Hws Hab) as (Hc & Hs & Hn).
    destruct (Hb t1 old Hold) as (Hco & Hso & _).
    assert (Hsz : sz old = sz b) by congruence.
    pose proof (intersect_post_ok old b Hco Hc Hsz) as Hpost.
    rewrite Hint in Hpost. destruct Hpost as (Hci & Hsi & _).
    split; [| split; [| split]];
      unfold bounds_wf, scopes_wf, scopes_cover;
      cbn [set_bounds m_bound m_scopes m_expr_vars].
    + apply bound_map_wf_insert; [exact Hb | exact Hci | congruence | exact Hn].
    + apply Forall_app. split; [exact Hsc |]. constructor; [| constructor].
      intros _. exists old. cbn [undo_b undo_e]. tauto.
    + intros Hnil. unfold set_bounds in Hnil. cbn [m_scopes] in Hnil.
      apply app_eq_nil in Hnil as [_ Hnil]. discriminate Hnil.
    + exact Hvars.
Qed.

Lemma pop_inv (n : nat) (s s' : bv_bounds_simplifier) :
  inv s -> pop n s = Some s' -> inv s'.
Proof.
  intros (Hb & Hsc & Hcov & Hvars). unfold pop.
  destruct (m_scopes s) as [| u0 rest] eqn:Hscopes; [intros [= <-]; unfold inv; tauto |].
  rewrite <- Hscopes.
  destruct (length (m_scopes s) <? n)%nat eqn:Hlt; [discriminate |].
  apply Nat.ltb_ge in Hlt.
  destruct (Nat.eqb_spec (length (m_scopes s) - n) 0) as [Hz | Hnz]; intros [= <-].
  - split; [| split; [| split]];
      unfold bounds_wf, scopes_wf, scopes_cover;
      cbn [set_bounds m_bound m_scopes m_expr_vars].
    + intros t i Hl. rewrite lookup_empty in Hl. discriminate Hl.
    + constructor.
    + reflexivity.
    + exact Hvars.
  - split; [| split; [| split]];
      unfold bounds_wf, scopes_wf, scopes_cover;
      cbn [set_bounds m_bound m_scopes m_expr_vars].
    + apply bound_map_wf_undo_all; [exact Hb |].
      apply Forall_rev, Forall_drop, Hsc.
    + apply Forall_take, Hsc.
    + unfold set_bounds. cbn [m_scopes]. intros Hnil.
      apply (f_equal length) in Hnil. rewrite length_take in Hnil. cbn in Hnil. lia.
    + exact Hvars.
Qed.

(** *** The memo table of [get_expr_vars] *)

Lemma get_expr_vars_unfold (d : func_decl) (args : list expr)
    (cache : gmap expr (gset expr)) :
  get_expr_vars (App d args) cache =
  match cache !! App d args with
  | Some entry => (entry, cache)
  | None =>
    let '(set, cache') :=
      add_arg_vars get_expr_vars args
        (if is_numeral_b (App d args) then ∅ else {[ App d args ]}) cache in
    (set, <[App d args := set]> cache')
  end.
Proof. reflexivity. Qed.

Lemma add_arg_vars_ok (args : list expr) :
  Forall (fun a => forall cache, vars_ok cache ->
            (get_expr_vars a cache).1 = expr_vars a /\
            vars_ok (get_expr_vars a cache).2) args ->
  forall set cache, vars_ok cache ->
    (add_arg_vars get_expr_vars args set cache).1 =
      fold_left (fun set a => set ∪ expr_vars a) args set /\
    vars_ok (add_arg_vars get_expr_vars args set cache).2.
Proof.
  induction 1 as [| a args Ha _ IH]; intros set cache Hok; [split; [reflexivity | exact Hok] |].
  cbn [add_arg_vars fold_left].
  destruct (Ha cache Hok) as [H1 H2].
  destruct (get_expr_vars a cache) as [set_arg cache']. cbn [fst snd] in H1, H2.
  subst set_arg. apply IH, H2.
Qed.

Lemma get_expr_vars_ok (t : expr) (cache : gmap expr (gset expr)) :
  vars_ok cache ->
  (get_expr_vars t cache).1 = expr_vars t /\ vars_ok (get_expr_vars t cache).2.
Proof.
  revert cache. induction t as [d args IH] using expr_ind_args. intros cache Hok.
  rewrite get_expr_vars_unfold.
  destruct (cache !! App d args) as [entry |] eqn:Hl.
  - split; [apply (Hok _ _ Hl) | exact Hok].
  - pose proof (add_arg_vars_ok args IH
        (if is_numeral_b (App d args) then ∅ else {[ App d args ]}) cache Hok) as [H1 H2].
    destruct (add_arg_vars get_expr_vars args _ cache) as [set cache'].
    cbn [fst snd] in *. split; [exact H1 |].
    intros t' set' Hl'. destruct (decide (App d args = t')) as [<- | Hne].
    + rewrite lookup_insert_eq in Hl'. injection Hl' as <-. exact H1.
    + rewrite lookup_insert_ne in Hl' by exact Hne. apply (H2 _ _ Hl').
Qed.

Lemma fold_union_init (args : list expr) (set : gset expr) (x : expr) :
  x ∈ set -> x ∈ fold_left (fun set a => set ∪ expr_vars a) args set.
Proof.
  revert set. induction args as [| a args IH]; intros set Hx; [exact Hx |].
  cbn [fold_left]. apply IH. set_solver.
Qed.

Lemma expr_vars_self (t : expr) : is_numeral_b t = false -> t ∈ expr_vars t.
Proof.
  destruct t as [d args]. intros Hn. cbn [expr_vars]. rewrite Hn.
  apply fold_union_init. set_solver.
Qed.

(** [may_simplify] touches the memo tables only. *)
Lemma may_simplify_state (t : expr) (s : bv_bounds_simplifier) :
  m_bound (may_simplify t s).2 = m_bound s /\
  m_scopes (may_simplify t s).2 = m_scopes s /\
  m_propagate_eq (may_simplify t s).2 = m_propagate_eq s /\
  (vars_ok (m_expr_vars s) -> vars_ok (m_expr_vars (may_simplify t s).2)).
Proof.
  unfold may_simplify. destruct (is_numeral_b t); [tauto |].
  pose proof (get_expr_vars_ok (strip_not t false).1 (m_expr_vars s)) as Hok.
  destruct (get_expr_vars (strip_not t false).1 (m_expr_vars s)) as [used vars].
  cbn [fst snd] in Hok.
  destruct (singleton_bound_used (m_bound s) used); [cbn; tauto |].
  destruct (is_bound (strip_not t false).1) as [[t1 b] |]; [cbn; tauto |].
  destruct (expr_has_bounds (strip_not t false).1 (m_bound_exprs s)) as [r be].
  cbn. tauto.
Qed.

Lemma may_simplify_inv (t : expr) (s : bv_bounds_simplifier) :
  inv s -> inv (may_simplify t s).2.
Proof.
  intros (Hb & Hsc & Hcov & Hvars).
  destruct (may_simplify_state t s) as (H1 & H2 & _ & H4).
  unfold inv, bounds_wf, scopes_wf, scopes_cover. rewrite H1, H2.
  split; [exact Hb |]. split; [exact Hsc |]. split; [exact Hcov | apply H4, Hvars].
Qed.

(** Every reachable state satisfies the invariant. *)
Lemma reachable_inv (vc : bool) (s : bv_bounds_simplifier) :
  reachable vc s -> inv s.
Proof.
  induction 1 as [p | s s' t sign r _ IH Hws Hstep | s s' n _ IH Hpop | s t _ IH].
  - apply inv_init.
  - apply (assert_expr_inv vc t sign r s s' Hws IH Hstep).
  - apply (pop_inv n s s' IH Hpop).
  - apply may_simplify_inv, IH.
Qed.

Lemma run_asserts_reachable (vc : bool) (facts : list (expr * bool))
    (s0 s : bv_bounds_simplifier) :
  Forall (fun f => well_sorted f.1 = true) facts ->
  reachable vc s0 -> run_asserts vc facts s0 = Some s -> reachable vc s.
Proof.
  intros Hws. revert s0. induction Hws as [| [t sign] facts Ht _ IH]; intros s0 Hr.
  - intros [= <-]. exact Hr.
  - cbn [run_asserts].
    destruct (assert_expr vc t sign s0) as [[r s1] |] eqn:Hstep; [| discriminate].
    destruct r; [| discriminate].
    apply IH. apply (reachable_assert vc s0 s1 t sign true Hr Ht Hstep).
Qed.

(** ** Context soundness *)

Lemma assert_expr_sound (vc : bool) (rho : valuation) (t : expr) (sign r : bool)
    (s s' : bv_bounds_simplifier) :
  well_sorted t = true -> inv s -> fits rho -> sound rho s ->
  fact_holds rho (t, sign) ->
  assert_expr vc t sign s = Returned (r, s') -> sound rho s'.
Proof.
  intros Hws (Hb & _) Hfit Hsound Hfact Hstep.
  apply assert_expr_step in Hstep
    as [[-> _] | (_ & t1 & b & Hab & [[Hnone ->] | (old & intr & Hold & Hint & _ & ->)])].
  - exact Hsound.
  - pose proof (asserted_bound_sound vc rho t sign t1 b Hws Hfit Hfact Hab) as Hin.
    intros t' i' Hl. cbn [set_bounds m_bound] in Hl.
    destruct (decide (t1 = t')) as [<- | Hne].
    + rewrite lookup_insert_eq in Hl. injection Hl as <-. exact Hin.
    + rewrite lookup_insert_ne in Hl by exact Hne. apply (Hsound t' i' Hl).
  - pose proof (asserted_bound_sound vc rho t sign t1 b Hws Hfit Hfact Hab) as Hin.
    destruct (asserted_bound_wf vc t sign t1 b Hws Hab) as (Hc & Hs & Hn).
    destruct (Hb t1 old Hold) as (Hco & Hso & _).
    assert (Hsz : sz old = sz b) by congruence.
    pose proof (intersect_post_ok old b Hco Hc Hsz) as Hpost.
    rewrite Hint in Hpost. destruct Hpost as (_ & _ & Hsup & _).
    intros t' i' Hl. cbn [set_bounds m_bound] in Hl.
    destruct (decide (t1 = t')) as [<- | Hne].
    + rewrite lookup_insert_eq in Hl. injection Hl as <-.
      apply Hsup; [apply (Hsound t1 old Hold) | exact Hin].
    + rewrite lookup_insert_ne in Hl by exact Hne. apply (Hsound t' i' Hl).
Qed.

Lemma run_asserts_sound (vc : bool) (rho : valuation) (facts : list (expr * bool))
    (s0 s : bv_bounds_simplifier) :
  Forall (fun f => well_sorted f.1 = true) facts ->
  inv s0 -> fits rho -> sound rho s0 ->
  Forall (fact_holds rho) facts ->
  run_asserts vc facts s0 = Some s -> sound rho s.
Proof.
  intros Hws. revert s0.
  induction Hws as [| [t sign] facts Ht _ IH]; intros s0 Hinv Hfit Hsound Hfacts.
  - intros [= <-]. exact Hsound.
  - cbn [run_asserts].
    destruct (assert_expr vc t sign s0) as [[r s1] |] eqn:Hstep; [| discriminate].
    destruct r; [| discriminate].
    apply Forall_cons in Hfacts as [Hfact Hfacts].
    apply IH; [| exact Hfit | | exact Hfacts].
    + apply (assert_expr_inv vc t sign true s0 s1 Ht Hinv Hstep).
    + apply (assert_expr_sound vc rho t sign true s0 s1 Ht Hinv Hfit Hsound Hfact Hstep).
Qed.

(** C1: after any sequence of [assert_expr] calls on well-sorted terms,
    from a fresh simplifier, that all return success, and for every
    assignment of fixed-width values under which all the asserted facts
    hold, each interval of the bound map contains the value the
    assignment gives to its subexpression. *)
Theorem context_sound (vc p : bool) (rho : valuation) (facts : list (expr * bool))
    (s : bv_bounds_simplifier) :
  Forall (fun f => well_sorted f.1 = true) facts ->
  run_asserts vc facts (init p) = Some s ->
  fits rho ->
  Forall (fact_holds rho) facts ->
  forall t i, m_bound s !! t = Some i -> contains i (rho t).
Proof.
  intros Hws Hrun Hfit Hfacts.
  apply (run_asserts_sound vc rho facts (init p) s Hws (inv_init p) Hfit); [| exact Hfacts | exact Hrun].
  intros t i Hl. cbn in Hl. rewrite lookup_empty in Hl. discriminate Hl.
Qed.

(** C5: from any reachable state, after any run of successful
    [assert_expr] calls, popping as many scopes as the run has pushed
    gives back the very state before the run, hence the same bound map
    and the same scope level.  Calls that push nothing (idempotent re-assertions,
    atoms without a bound) are part of the run and count for nothing. *)
Theorem push_pop_symmetry (vc : bool) (facts : list (expr * bool))
    (s0 s : bv_bounds_simplifier) :
  reachable vc s0 ->
  run_asserts vc facts s0 = Some s ->
  (scope_level s0 <= scope_level s)%nat /\
  pop (scope_level s - scope_level s0) s = Some s0.
Proof.
  intros Hr Hrun.
  destruct (reachable_inv vc s0 Hr) as (_ & _ & Hcov & _).
  exact (pop_after_run vc facts s0 s Hcov Hrun).
Qed.

(** *** A run on the constant [x] of width 8 *)

Lemma context_sound_witness :
  exists s,
    run_asserts true
      [(mk_ule (App (OP_OTHER 0 (BV_sort 8)) []) (mk_numeral 5 8), false);
       (mk_not (mk_ule (App (OP_OTHER 0 (BV_sort 8)) []) (mk_numeral 2 8)), false);
       (mk_sle (mk_numeral 1 8) (App (OP_OTHER 0 (BV_sort 8)) []), false);
       (mk_true, false)]
      (init false) = Some s /\
    forall t i, m_bound s !! t = Some i ->
      contains i (if bool_decide (t = App (OP_OTHER 0 (BV_sort 8)) []) then 4 else 0).
Proof.
  eexists. split; [vm_compute; reflexivity |].
  apply (context_sound true false
           (fun e => if bool_decide (e = App (OP_OTHER 0 (BV_sort 8)) []) then 4 else 0)
           [(mk_ule (App (OP_OTHER 0 (BV_sort 8)) []) (mk_numeral 5 8), false);
            (mk_not (mk_ule (App (OP_OTHER 0 (BV_sort 8)) []) (mk_numeral 2 8)), false);
            (mk_sle (mk_numeral 1 8) (App (OP_OTHER 0 (BV_sort 8)) []), false);
            (mk_true, false)]).
  - repeat constructor.
  - vm_compute; reflexivity.
  - apply (fits_point (App (OP_OTHER 0 (BV_sort 8)) []) 4 8); [reflexivity | lia].
  - repeat constructor.
Defined.

Lemma push_pop_symmetry_witness :
  exists s,
    run_asserts true
      [(mk_ule (App (OP_OTHER 0 (BV_sort 8)) []) (mk_numeral 5 8), false);
       (mk_ule (App (OP_OTHER 0 (BV_sort 8)) []) (mk_numeral 9 8), false);
       (mk_not (mk_ule (App (OP_OTHER 0 (BV_sort 8)) []) (mk_numeral 2 8)), false);
       (mk_true, false)]
      (init false) = Some s /\
    (scope_level (init false) <= scope_level s)%nat /\
    pop (scope_level s - scope_level (init false)) s = Some (init false).
Proof.
  eexists. split; [vm_compute; reflexivity |].
  apply (push_pop_symmetry true
           [(mk_ule (App (OP_OTHER 0 (BV_sort 8)) []) (mk_numeral 5 8), false);
            (mk_ule (App (OP_OTHER 0 (BV_sort 8)) []) (mk_numeral 9 8), false);
            (mk_not (mk_ule (App (OP_OTHER 0 (BV_sort 8)) []) (mk_numeral 2 8)), false);
            (mk_true, false)]
           (init false)).
  - apply reachable_init.
  - vm_compute; reflexivity.
Defined.

(** ** When [assert_expr] fails *)

(** [assert_expr] in terms of the interval it intersects into the map. *)
Lemma assert_expr_by_bound (vc : bool) (t : expr) (sign : bool) (s : bv_bounds_simplifier) :
  assert_expr vc t sign s =
  if vc && verify_violated t sign then VerifyFailed
  else
    match asserted_bound vc t sign with
    | None => Returned (true, s)
    | Some (t1, b) =>
      match m_bound s !! t1 with
      | Some old =>
        match intersect old b with
        | None => Returned (false, s)
        | Some intr =>
          if interval_eqb old intr then Returned (true, s)
          else Returned (true,
                 set_bounds s (m_scopes s ++ [mk_undo_bound t1 (Some old) false])
                              (<[t1 := intr]> (m_bound s)))
        end
      | None =>
        Returned (true,
          set_bounds s (m_scopes s ++ [mk_undo_bound t1 None true])
                       (<[t1 := b]> (m_bound s)))
      end
    end.
Proof.
  unfold assert_expr, asserted_bound, verify_violated, apply_sign.
  destruct (strip_not t sign) as [t0 sign0].
  destruct (is_bound t0) as [[t1 b] |]; [| rewrite andb_false_r; reflexivity].
  destruct sign0; [| rewrite andb_false_r; reflexivity].
  destruct (negate b) as [r |]; destruct vc; reflexivity.
Qed.

(** The wrapped operands [0,10] U [128,255] and [0,4] U [6,255] are what
    [assert_expr] hands to [intersect]
    when [x <=s 10] and then [not (x = 5)] are asserted of a width-8
    term without a bound: the second call replaces the recorded interval
    by the second operand. *)
Lemma intersect_wrapped_pair_reached (vc : bool) (s : bv_bounds_simplifier) :
  m_bound s !! App (OP_OTHER 0 (BV_sort 8)) [] = None ->
  exists s1 s2,
    assert_expr vc (mk_sle (App (OP_OTHER 0 (BV_sort 8)) []) (mk_numeral 10 8)) false s
    = Returned (true, s1) /\
    m_bound s1 !! App (OP_OTHER 0 (BV_sort 8)) [] = Some (mk_interval 128 10 8 true) /\
    assert_expr vc (mk_not (mk_eq (App (OP_OTHER 0 (BV_sort 8)) []) (mk_numeral 5 8)))
                false s1 = Returned (true, s2) /\
    m_bound s2 !! App (OP_OTHER 0 (BV_sort 8)) [] = Some (mk_interval 6 4 8 false).
Proof.
  intros Hnone. rewrite assert_expr_by_bound.
  replace (verify_violated (mk_sle (App (OP_OTHER 0 (BV_sort 8)) []) (mk_numeral 10 8)) false)
    with false by reflexivity.
  replace (asserted_bound vc (mk_sle (App (OP_OTHER 0 (BV_sort 8)) []) (mk_numeral 10 8)) false)
    with (Some (App (OP_OTHER 0 (BV_sort 8)) [], mk_interval 128 10 8 true))
    by (destruct vc; reflexivity).
  rewrite andb_false_r, Hnone.
  eexists. eexists. split; [reflexivity |].
  cbn [set_bounds m_bound m_scopes]. rewrite lookup_insert_eq.
  split; [reflexivity |].
  rewrite assert_expr_by_bound.
  replace (verify_violated
             (mk_not (mk_eq (App (OP_OTHER 0 (BV_sort 8)) []) (mk_numeral 5 8))) false)
    with false by reflexivity.
  replace (asserted_bound vc
             (mk_not (mk_eq (App (OP_OTHER 0 (BV_sort 8)) []) (mk_numeral 5 8))) false)
    with (Some (App (OP_OTHER 0 (BV_sort 8)) [], mk_interval 6 4 8 false))
    by (destruct vc; reflexivity).
  rewrite andb_false_r. cbn [set_bounds m_bound]. rewrite lookup_insert_eq.
  change (intersect (mk_interval 128 10 8 true) (mk_interval 6 4 8 false))
    with (Some (mk_interval 6 4 8 false)).
  change (interval_eqb (mk_interval 128 10 8 true) (mk_interval 6 4 8 false)) with false.
  cbv iota. split; [reflexivity |].
  cbn [set_bounds m_bound]. apply lookup_insert_eq.
Qed.

Lemma polarity_bound_asserted (vc : bool) (t : expr) (sign : bool)
    (t1 : expr) (b : interval) :
  polarity_bound t sign t1 b ->
  asserted_bound vc t sign = Some (t1, b) /\ verify_violated t sign = false.
Proof.
  unfold polarity_bound, asserted_bound, verify_violated, apply_sign.
  destruct (strip_not t sign) as [t0 sign0]. cbn [fst snd].
  intros (b0 & -> & Hb). destruct sign0.
  - rewrite Hb. split; reflexivity.
  - subst b0. split; reflexivity.
Qed.

Lemma asserted_bound_polarity (vc : bool) (t : expr) (sign : bool)
    (t1 : expr) (b : interval) :
  asserted_bound vc t sign = Some (t1, b) ->
  polarity_bound t sign t1 b \/ is_full b = true.
Proof.
  intros Hab. apply asserted_bound_inv in Hab as (b0 & Hb0 & Hsign).
  unfold polarity_bound.
  apply apply_sign_cases in Hsign as [[Hs Heq] | [[Hs Hn] | (_ & _ & Hn & Heq)]].
  - left. exists b0. rewrite Hs. tauto.
  - left. exists b0. rewrite Hs. tauto.
  - right. rewrite Heq. apply negate_None_full, Hn.
Qed.

(** A canonical interval has a value. *)
Lemma canonical_inhabited (i : interval) : canonical i -> contains i (l i).
Proof.
  intros Hc. destruct (canonical_fields i Hc) as (_ & Hl & Hh & _).
  unfold contains, is_wrapped. destruct (Z.ltb_spec (h i) (l i)); lia.
Qed.

Lemma assert_expr_contract_holds (vc : bool) (t : expr) (sign : bool)
    (s : bv_bounds_simplifier) :
  inv s -> well_sorted t = true ->
  vc && verify_violated t sign = false ->
  assert_contract vc t sign s.
Proof.
  intros (Hb & _) Hws Hvv. unfold assert_contract.
  rewrite assert_expr_by_bound, Hvv. split.
  - intros (t1 & b & old & Hpol & Hold & Hempty).
    destruct (polarity_bound_asserted vc t sign t1 b Hpol) as [Hab _].
    rewrite Hab, Hold.
    destruct (asserted_bound_wf vc t sign t1 b Hws Hab) as (Hc & Hs & _).
    destruct (Hb t1 old Hold) as (Hco & Hso & _).
    assert (Hsz : sz old = sz b) by congruence.
    pose proof (intersect_post_ok old b Hco Hc Hsz) as Hpost.
    destruct (intersect old b) as [r |]; [| exists s; reflexivity].
    destruct Hpost as (_ & _ & _ & (v & Hv) & _). destruct (Hempty v Hv).
  - intros Hno.
    destruct (asserted_bound vc t sign) as [[t1 b] |] eqn:Hab; [| exists s; reflexivity].
    destruct (m_bound s !! t1) as [old |] eqn:Hold; [| eexists; reflexivity].
    destruct (asserted_bound_wf vc t sign t1 b Hws Hab) as (Hc & Hs & _).
    destruct (Hb t1 old Hold) as (Hco & Hso & _).
    assert (Hsz : sz old = sz b) by congruence.
    pose proof (intersect_post_ok old b Hco Hc Hsz) as Hpost.
    destruct (intersect old b) as [r |];
      [destruct (interval_eqb old r); eexists; reflexivity |].
    exfalso. cbn in Hpost.
    destruct (asserted_bound_polarity vc t sign t1 b Hab) as [Hpol | Hfull].
    + apply Hno. exists t1, b, old. tauto.
    + apply (Hpost (l old)). split; [apply canonical_inhabited, Hco |].
      apply full_contains; [exact Hfull |].
      rewrite <- Hsz. apply (contains_range old); [exact Hco |].
      apply canonical_inhabited, Hco.
Qed.

Lemma not_self_operand (x : expr) (d : func_decl) (args : list expr) :
  In x args -> x <> App d args.
Proof.
  revert d args. induction x as [d0 args0 IH] using expr_ind_args.
  intros d args Hin Heq. injection Heq as -> ->.
  rewrite Forall_forall in IH.
  apply (IH (App d args) ltac:(apply list_elem_of_In; exact Hin) d args Hin).
  reflexivity.
Qed.

Lemma strip_not_cmp (k : cmp_kind) (literal_left : bool) (n w : Z) (x : expr) (sign : bool) :
  strip_not (atom k literal_left n w x) sign = (atom k literal_left n w x, sign).
Proof. destruct k, literal_left; reflexivity. Qed.

(** Scenario D, for any term [x] that is not a numeral. *)
Lemma scenario_D (vc p : bool) (x : expr) :
  is_numeral_b x = false ->
  exists s1,
    assert_expr vc (mk_ule x (mk_numeral 3 8)) false (init p) = Returned (true, s1) /\
    assert_expr vc (mk_ule (mk_numeral 5 8) x) false s1 = Returned (false, s1).
Proof.
  intros Hx.
  change (mk_ule x (mk_numeral 3 8)) with (atom Cmp_ule false 3 8 x).
  change (mk_ule (mk_numeral 5 8) x) with (atom Cmp_ule true 5 8 x).
  unfold assert_expr. rewrite !strip_not_cmp.
  rewrite !is_bound_atom by (try exact Hx; lia).
  cbn [apply_sign init m_bound]. rewrite lookup_empty.
  eexists. split; [reflexivity |].
  cbn [set_bounds m_bound]. rewrite lookup_insert_eq.
  reflexivity.
Qed.

(** C4: the call [assert_expr(x <= 255, sign = true)] on a fresh
    simplifier, for a width-8 term [x].  The extracted interval is the
    full range, tight, so [negate] returns false and the source's
    [VERIFY(b.negate(b))] is violated: in a build that checks [VERIFY]
    the call reports neither failure nor success; in a build that does
    not, the interval stays as extracted and the call records the full
    range for [x] and returns success. *)
Theorem assert_expr_negated_full_range :
  well_sorted (mk_ule (App (OP_OTHER 0 (BV_sort 8)) []) (mk_numeral 255 8)) = true /\
  is_bound (mk_ule (App (OP_OTHER 0 (BV_sort 8)) []) (mk_numeral 255 8))
  = Some (App (OP_OTHER 0 (BV_sort 8)) [], mk_interval 0 255 8 true) /\
  negate (mk_interval 0 255 8 true) = None /\
  assert_expr true (mk_ule (App (OP_OTHER 0 (BV_sort 8)) []) (mk_numeral 255 8)) true
              (init false) = VerifyFailed /\
  ~ assert_contract true
      (mk_ule (App (OP_OTHER 0 (BV_sort 8)) []) (mk_numeral 255 8)) true (init false) /\
  assert_expr false (mk_ule (App (OP_OTHER 0 (BV_sort 8)) []) (mk_numeral 255 8)) true
              (init false)
  = Returned (true,
              set_bounds (init false)
                [mk_undo_bound (App (OP_OTHER 0 (BV_sort 8)) []) None true]
                (<[App (OP_OTHER 0 (BV_sort 8)) [] := mk_interval 0 255 8 true]> ∅)).
Proof.
  split; [reflexivity |]. split; [reflexivity |]. split; [reflexivity |].
  split; [vm_compute; reflexivity |]. split; [| vm_compute; reflexivity].
  intros [_ Hsucc].
  destruct Hsucc as [s' Hs'].
  - intros (t1 & b & old & _ & Hold & _). cbn in Hold.
    rewrite lookup_empty in Hold. discriminate Hold.
  - vm_compute in Hs'. discriminate Hs'.
Qed.

(** Every other call keeps the contract: on a reachable state and a
    well-sorted term, a call that does not violate the [VERIFY] in a
    build that checks it returns failure exactly on a contradiction and
    success otherwise; a call that violates it there does not return.
    Asserting [x <= 3] and then [5 <= x] over width 8 makes the second
    call return failure. *)
Lemma assert_expr_contract (vc : bool) :
  (forall s t sign,
     reachable vc s -> well_sorted t = true ->
     (vc && verify_violated t sign = false -> assert_contract vc t sign s) /\
     (vc && verify_violated t sign = true -> assert_expr vc t sign s = VerifyFailed)) /\
  (forall p x,
     is_numeral_b x = false ->
     exists s1,
       assert_expr vc (mk_ule x (mk_numeral 3 8)) false (init p) = Returned (true, s1) /\
       assert_expr vc (mk_ule (mk_numeral 5 8) x) false s1 = Returned (false, s1)).
Proof.
  split.
  - intros s t sign Hr Hws. split.
    + apply assert_expr_contract_holds; [apply (reachable_inv vc), Hr | exact Hws].
    + intros Hvv. rewrite assert_expr_by_bound, Hvv. reflexivity.
  - intros p x Hx. apply scenario_D, Hx.
Qed.

(** ** [may_simplify] as a filter for [simplify] *)

Lemma simplify_state (t : expr) (s1 s2 : bv_bounds_simplifier) :
  m_bound s1 = m_bound s2 -> m_propagate_eq s1 = m_propagate_eq s2 ->
  simplify t s1 = simplify t s2.
Proof.
  intros Hb Hp. unfold simplify, simplify_atom. rewrite Hb, Hp. reflexivity.
Qed.

Lemma singleton_bound_used_false (bound : gmap expr interval) (used : gset expr)
    (k : expr) (v : interval) :
  singleton_bound_used bound used = false ->
  bound !! k = Some v -> is_singleton v = true -> k ∉ used.
Proof.
  unfold singleton_bound_used. intros Hex Hl Hs Hin.
  assert (Hkv : existsb (fun kv : expr * interval =>
                           is_singleton kv.2 && bool_decide (kv.1 ∈ used))
                        (map_to_list bound) = true).
  { apply existsb_exists. exists (k, v). split.
    - apply list_elem_of_In, elem_of_map_to_list, Hl.
    - cbn [fst snd]. rewrite Hs. rewrite bool_decide_eq_true_2 by exact Hin.
      reflexivity. }
  congruence.
Qed.

Lemma bv_sort_not_negation (t : expr) (w : Z) :
  get_sort t = BV_sort w -> is_not t = None.
Proof.
  destruct t as [d args]. destruct d; try reflexivity.
  cbn [get_sort]. discriminate.
Qed.

Lemma numeral_not_bool (t : expr) : is_numeral_b t = true -> is_bool t = false.
Proof.
  destruct t as [d args]. unfold is_numeral_b, is_numeral.
  destruct d; try discriminate. reflexivity.
Qed.

(** What a negative answer of [may_simplify] rules out. *)
Lemma may_simplify_false (t : expr) (s : bv_bounds_simplifier) :
  vars_ok (m_expr_vars s) ->
  (may_simplify t s).1 = false ->
  is_numeral_b t = true \/
  (is_numeral_b t = false /\
   singleton_bound_used (m_bound s) (expr_vars (strip_not t false).1) = false /\
   match is_bound (strip_not t false).1 with
   | Some (t1, b) => is_full b = false /\ m_bound s !! t1 = None
   | None => True
   end).
Proof.
  intros Hok. unfold may_simplify.
  destruct (is_numeral_b t); [tauto |].
  intros Hmay. right. split; [reflexivity |]. revert Hmay.
  destruct (get_expr_vars_ok (strip_not t false).1 (m_expr_vars s) Hok) as [Hvars _].
  destruct (get_expr_vars (strip_not t false).1 (m_expr_vars s)) as [used vars].
  cbn [fst] in Hvars. subst used.
  destruct (singleton_bound_used (m_bound s) (expr_vars (strip_not t false).1));
    [discriminate |].
  destruct (is_bound (strip_not t false).1) as [[t1 b] |];
    [| intros _; split; [reflexivity | exact I]].
  cbn [fst]. intros Hmay. apply orb_false_iff in Hmay as [Hf Hc].
  split; [reflexivity |]. split; [exact Hf |].
  apply bool_decide_eq_false in Hc.
  destruct (m_bound s !! t1); [| reflexivity].
  exfalso. apply Hc. eexists. reflexivity.
Qed.

Lemma simplify_atom_declines (t : expr) (s : bv_bounds_simplifier) :
  match is_bound (strip_not t false).1 with
  | Some (t1, b) => is_full b = false /\ m_bound s !! t1 = None
  | None => True
  end ->
  simplify_atom t s = None.
Proof.
  unfold simplify_atom. destruct (is_bool t); [| reflexivity]. cbn [negb].
  destruct (strip_not t false) as [t0 sign]. cbn [fst].
  destruct (is_bound t0) as [[t1 b] |]; [| reflexivity].
  intros [Hf Hl].
  destruct (sign && tight b) eqn:Hst.
  - destruct (negate b) as [nb |] eqn:Hn.
    + rewrite (negate_result_not_tight b nb Hn), andb_false_r, Hl. reflexivity.
    + apply negate_None_full in Hn as [_ Hfull]. congruence.
  - rewrite Hf, Hl. reflexivity.
Qed.

(** C9: on every reachable state, when [may_simplify] answers false for
    a term, [simplify] declines that term, on the state before the call
    of [may_simplify] as well as on the state it leaves. *)
Theorem may_simplify_sound (vc : bool) (s : bv_bounds_simplifier) (t : expr) :
  reachable vc s ->
  (may_simplify t s).1 = false ->
  simplify t s = None /\ simplify t (may_simplify t s).2 = None.
Proof.
  intros Hr Hmay.
  destruct (reachable_inv vc s Hr) as (Hb & _ & _ & Hok).
  assert (Hs : simplify t s = None).
  { unfold simplify.
    apply (may_simplify_false t s Hok) in Hmay as [Hnum | (Hnum & Hused & Hbound)].
    - destruct (m_bound s !! t) as [b |] eqn:Hl.
      + destruct (Hb t b Hl) as (_ & _ & Hn). congruence.
      + unfold simplify_atom. rewrite (numeral_not_bool t Hnum). reflexivity.
    - destruct (m_bound s !! t) as [b |] eqn:Hl; [| apply simplify_atom_declines, Hbound].
      destruct (is_singleton b) eqn:Hsing; [| apply simplify_atom_declines, Hbound].
      exfalso. destruct (Hb t b Hl) as (_ & Hsort & _).
      rewrite (strip_not_id t false (bv_sort_not_negation t _ Hsort)) in Hused.
      cbn [fst] in Hused.
      apply (singleton_bound_used_false _ _ t b Hused Hl Hsing).
      apply expr_vars_self, Hnum. }
  split; [exact Hs |].
  destruct (may_simplify_state t s) as (H1 & _ & H3 & _).
  rewrite (simplify_state t _ s H1 H3). exact Hs.
Qed.

Lemma may_simplify_sound_witness :
  exists s,
    assert_expr true (mk_ule (App (OP_OTHER 0 (BV_sort 8)) []) (mk_numeral 5 8)) false
                (init false) = Returned (true, s) /\
    (may_simplify (mk_ule (App (OP_OTHER 1 (BV_sort 8)) []) (mk_numeral 3 8)) s).1 = false /\
    simplify (mk_ule (App (OP_OTHER 1 (BV_sort 8)) []) (mk_numeral 3 8)) s = None.
Proof.
  eexists. split; [vm_compute; reflexivity |].
  split; [vm_compute; reflexivity |].
  apply (may_simplify_sound true).
  - apply (reachable_assert true (init false) _
             (mk_ule (App (OP_OTHER 0 (BV_sort 8)) []) (mk_numeral 5 8)) false true).
    + apply reachable_init.
    + reflexivity.
    + vm_compute; reflexivity.
  - vm_compute; reflexivity.
Defined.

(** ** Scenario E *)

(** C8, as stated, does not hold: after the assert of [not (x <= 5)] the
    bound of [x] is [6,255], which is not inside [0,200], and [simplify]
    declines the atom [x <= 200]. *)
Lemma scenario_E_declines :
  ~ scenario_E false false (App (OP_OTHER 0 (BV_sort 8)) []).
Proof.
  intros (s1 & Hassert & Hsimp).
  vm_compute in Hassert. injection Hassert as <-.
  vm_compute in Hsimp. discriminate Hsimp.
Qed.

(** C8 (amended): starting from an empty context, for a width-8 term [x]
    that is not a numeral, the assert of the negated atom [not (x <= 5)]
    succeeds and records the range [6,255] for [x]; [simplify] then
    declines the atom [x <= 200], and rewrites the atom [6 <= x], which
    the recorded range implies, to true. *)
Theorem scenario_E_amended (vc p : bool) (x : expr) :
  is_numeral_b x = false ->
  exists s1,
    assert_expr vc (mk_not (mk_ule x (mk_numeral 5 8))) false (init p) =
      Returned (true, s1) /\
    m_bound s1 !! x = Some (mk_interval 6 255 8 false) /\
    simplify (mk_ule x (mk_numeral 200 8)) s1 = None /\
    simplify (mk_ule (mk_numeral 6 8) x) s1 = Some mk_true.
Proof.
  intros Hx.
  assert (Hassert :
    assert_expr vc (mk_not (mk_ule x (mk_numeral 5 8))) false (init p) =
    Returned (true, set_bounds (init p) [mk_undo_bound x None true]
                               (<[x := mk_interval 6 255 8 false]> ∅))).
  { unfold assert_expr.
    change (strip_not (mk_not (mk_ule x (mk_numeral 5 8))) false)
      with (strip_not (atom Cmp_ule false 5 8 x) true).
    rewrite strip_not_cmp, is_bound_atom by (try exact Hx; lia).
    change (apply_sign vc true (shape_interval Cmp_ule false 5 8))
      with (@Returned interval (mk_interval 6 255 8 false)).
    cbn [init m_bound m_scopes]. rewrite lookup_empty. reflexivity. }
  eexists. split; [exact Hassert |].
  assert (Hne1 : x <> mk_ule x (mk_numeral 200 8))
    by (apply not_self_operand; left; reflexivity).
  assert (Hne2 : x <> mk_ule (mk_numeral 6 8) x)
    by (apply not_self_operand; right; left; reflexivity).
  split; [apply lookup_insert_eq |].
  unfold simplify, simplify_atom. cbn [set_bounds m_bound m_propagate_eq init].
  rewrite !lookup_insert_ne, !lookup_empty by assumption.
  change (is_bool (mk_ule x (mk_numeral 200 8))) with true.
  change (is_bool (mk_ule (mk_numeral 6 8) x)) with true.
  change (mk_ule x (mk_numeral 200 8)) with (atom Cmp_ule false 200 8 x).
  change (mk_ule (mk_numeral 6 8) x) with (atom Cmp_ule true 6 8 x).
  cbn [negb]. rewrite !strip_not_cmp, !is_bound_atom by (try exact Hx; lia).
  rewrite lookup_insert_eq.
  change (shape_interval Cmp_ule false 200 8) with (mk_interval 0 200 8 true).
  change (shape_interval Cmp_ule true 6 8) with (mk_interval 6 255 8 true).
  cbn [andb tight].
  change (is_full (mk_interval 0 200 8 true)) with false.
  change (is_full (mk_interval 6 255 8 true)) with false.
  change (implies (mk_interval 6 255 8 false) (mk_interval 0 200 8 true)) with false.
  change (implies (mk_interval 6 255 8 false) (mk_interval 6 255 8 true)) with true.
  change (intersect (mk_interval 0 200 8 true) (mk_interval 6 255 8 false))
    with (Some (mk_interval 6 200 8 false)).
  destruct p; split; reflexivity.
Qed.

Lemma scenario_E_amended_witness :
  exists s1,
    assert_expr true (mk_not (mk_ule (App (OP_OTHER 0 (BV_sort 8)) []) (mk_numeral 5 8)))
                false (init true) = Returned (true, s1) /\
    m_bound s1 !! App (OP_OTHER 0 (BV_sort 8)) [] = Some (mk_interval 6 255 8 false) /\
    simplify (mk_ule (App (OP_OTHER 0 (BV_sort 8)) []) (mk_numeral 200 8)) s1 = None /\
    simplify (mk_ule (mk_numeral 6 8) (App (OP_OTHER 0 (BV_sort 8)) [])) s1 = Some mk_true.
Proof.
  exact (scenario_E_amended true true (App (OP_OTHER 0 (BV_sort 8)) []) eq_refl).
Defined.

(** * Further properties of the interval operations *)

(** The candidates that separate two intervals when one is not inside
    the other. *)
Lemma implies_exact_aux (a b : interval) :
  canonical a -> canonical b -> sz a = sz b ->
  (implies a b = true <-> forall v, contains a v -> contains b v).
Proof.
  intros Ha Hb Hsz.
  pose proof (canonical_fields _ Ha) as (Hwa & Hla & Hha & Hca).
  pose proof (canonical_fields _ Hb) as (Hwb & Hlb & Hhb & Hcb).
  pose proof (uMaxInt_range _ Hwa) as HM.
  pose proof (fun v => contains_unfold a v Ha) as Hma.
  pose proof (fun v => contains_unfold b v Hb) as Hmb.
  rewrite <- Hsz in Hwb, Hlb, Hhb, Hmb.
  unfold implies, is_full, is_wrapped. rewrite <- Hsz.
  remember (uMaxInt (sz a)) as M eqn:HeqM. clear HeqM.
  remember (l a) as la. remember (h a) as ha. remember (l b) as lb. remember (h b) as hb.
  clear Heqla Heqha Heqlb Heqhb.
  split.
  - intros Himp v. rewrite Hma, Hmb. revert Himp.
    cmp_cases; cbn [andb orb]; intros Himp; try discriminate Himp; lia.
  - intros Hsub.
    pose proof (Hsub la) as H1. pose proof (Hsub ha) as H2.
    pose proof (Hsub 0) as H3. pose proof (Hsub M) as H4.
    pose proof (Hsub (hb + 1)) as H5. pose proof (Hsub (lb - 1)) as H6.
    pose proof (Hsub (Z.max la (hb + 1))) as H7.
    rewrite Hma, Hmb in H1, H2, H3, H4, H5, H6, H7. clear Hsub Hma Hmb.
    revert H1 H2 H3 H4 H5 H6 H7.
    destruct (Z.ltb_spec ha la); destruct (Z.ltb_spec hb lb);
      destruct (Z.eqb_spec la 0); destruct (Z.eqb_spec ha M);
      destruct (Z.eqb_spec lb 0); destruct (Z.eqb_spec hb M);
      cbn [andb orb]; intros; try reflexivity; try (exfalso; lia);
      cmp_cases; cbn [andb orb]; try reflexivity; exfalso; lia.
Qed.

(** X1: for every supported width [sz] (1 to 64), [uMaxInt(sz)] is
    [2^sz - 1], the largest unsigned value of that width, and it is a
    positive [uint64_t]. *)
Theorem uMaxInt_largest_value (n : Z) :
  valid_width n -> uMaxInt n = 2 ^ n - 1 /\ 1 <= uMaxInt n < 2 ^ 64.
Proof.
  intros Hn. split; [apply uMaxInt_spec, Hn | apply uMaxInt_range, Hn].
Qed.

Lemma uMaxInt_largest_value_witness : uMaxInt 64 = 2 ^ 64 - 1 /\ 1 <= uMaxInt 64 < 2 ^ 64.
Proof.
  apply (uMaxInt_largest_value 64). unfold valid_width. lia.
Defined.

(** X2: built from endpoints within the width, an interval satisfies the
    struct's [invariant()] (the constructor's assertion), keeps the given
    width and flag, and denotes the same values as the raw pair of
    endpoints: canonicalization only replaces the wrapped pair
    [l = h + 1], which denotes every value, by the pair [0, uMaxInt]. *)
Theorem interval_ctor_canonicalizes (l0 h0 w : Z) (t : bool) :
  valid_width w -> 0 <= l0 <= uMaxInt w -> 0 <= h0 <= uMaxInt w ->
  invariant (interval_ctor l0 h0 w t) = true /\
  sz (interval_ctor l0 h0 w t) = w /\
  tight (interval_ctor l0 h0 w t) = t /\
  (forall v, contains (interval_ctor l0 h0 w t) v <-> contains (mk_interval l0 h0 w t) v) /\
  (l0 = h0 + 1 -> is_full (interval_ctor l0 h0 w t) = true) /\
  (l0 <> h0 + 1 -> interval_ctor l0 h0 w t = mk_interval l0 h0 w t).
Proof.
  intros Hw Hl Hh. pose proof (uMaxInt_range _ Hw) as HM.
  destruct (ctor_canonical l0 h0 w t Hw Hl Hh) as (_ & _ & _ & Hinv).
  split; [exact Hinv |]. split; [apply ctor_sz |]. split; [apply ctor_tight |].
  split; [| split].
  - intros v. rewrite ctor_contains by assumption.
    unfold contains, is_wrapped. cbn [l h sz]. cmp_cases; lia.
  - intros Heq. unfold interval_ctor, is_full.
    wrap64_cases (h0 + 1).
    destruct (Z.ltb_spec h0 l0); destruct (Z.eqb_spec l0 w0); cbn [andb l h sz];
      try lia; rewrite !Z.eqb_refl; reflexivity.
  - intros Hne. unfold interval_ctor.
    wrap64_cases (h0 + 1).
    destruct (Z.ltb_spec h0 l0); destruct (Z.eqb_spec l0 w0); cbn [andb];
      try reflexivity; lia.
Qed.

Lemma interval_ctor_canonicalizes_witness :
  invariant (interval_ctor 6 5 8 true) = true /\
  is_full (interval_ctor 6 5 8 true) = true.
Proof.
  destruct (interval_ctor_canonicalizes 6 5 8 true) as (H1 & _ & _ & _ & H5 & _).
  - unfold valid_width. lia.
  - change (uMaxInt 8) with 255. lia.
  - change (uMaxInt 8) with 255. lia.
  - split; [exact H1 | apply H5; reflexivity].
Defined.

(** X3: on a canonical interval the derived predicates are exact:
    [is_full] holds exactly when the interval contains every value of
    its width, and [is_singleton] exactly when it contains no value but
    its lower endpoint. *)
Theorem is_full_is_singleton_exact (i : interval) :
  canonical i ->
  (is_full i = true <-> forall v, 0 <= v <= uMaxInt (sz i) -> contains i v) /\
  (is_singleton i = true <-> forall v, contains i v -> v = l i).
Proof.
  intros Hc.
  pose proof (canonical_fields _ Hc) as (Hw & Hl & Hh & Hcan).
  pose proof (uMaxInt_range _ Hw) as HM.
  pose proof (fun v => contains_unfold i v Hc) as Hm.
  unfold is_full, is_singleton.
  remember (uMaxInt (sz i)) as M eqn:HeqM. clear HeqM.
  split; split.
  - intros Hf v Hv. rewrite Hm. revert Hf.
    cmp_cases; cbn [andb]; intros Hf; try discriminate Hf; lia.
  - intros Hall.
    pose proof (Hall 0) as H1. pose proof (Hall M) as H2. pose proof (Hall (h i + 1)) as H3.
    rewrite Hm in H1, H2, H3. revert H1 H2 H3.
    cmp_cases; cbn [andb]; intros; try reflexivity; exfalso; lia.
  - intros Hs v. rewrite Hm. revert Hs. cmp_cases; intros Hs; try discriminate Hs; lia.
  - intros Hall.
    pose proof (Hall (h i)) as H1. pose proof (Hall 0) as H2.
    rewrite Hm in H1, H2. revert H1 H2.
    cmp_cases; intros; try reflexivity; exfalso; lia.
Qed.

Lemma is_full_is_singleton_exact_witness :
  is_singleton (mk_interval 7 7 8 true) = true <->
  forall v, contains (mk_interval 7 7 8 true) v -> v = 7.
Proof.
  apply (is_full_is_singleton_exact (mk_interval 7 7 8 true)).
  apply canonical_concrete. reflexivity.
Defined.

(** X4: on canonical intervals of one width, [implies] is the subset
    test: [a.implies(b)] is true exactly when every value of [a] is a
    value of [b]. *)
Theorem implies_is_subset (a b : interval) :
  canonical a -> canonical b -> sz a = sz b ->
  (implies a b = true <-> forall v, contains a v -> contains b v).
Proof. apply implies_exact_aux. Qed.

Lemma implies_is_subset_witness :
  implies (mk_interval 3 10 8 true) (mk_interval 200 20 8 false) = true <->
  forall v, contains (mk_interval 3 10 8 true) v -> contains (mk_interval 200 20 8 false) v.
Proof.
  apply (implies_is_subset (mk_interval 3 10 8 true) (mk_interval 200 20 8 false)).
  - apply canonical_concrete. reflexivity.
  - apply canonical_concrete. reflexivity.
  - reflexivity.
Defined.

Lemma implies_refl (i : interval) : implies i i = true.
Proof.
  unfold implies, is_wrapped.
  destruct (is_full i); [reflexivity |].
  destruct (Z.ltb_spec (h i) (l i)); cbn [andb]; rewrite !Z.leb_refl; reflexivity.
Qed.

(** X5: [implies] is reflexive on every interval, and transitive on
    canonical intervals of one width. *)
Theorem implies_preorder :
  (forall i, implies i i = true) /\
  (forall a b c,
     canonical a -> canonical b -> canonical c -> sz a = sz b -> sz b = sz c ->
     implies a b = true -> implies b c = true -> implies a c = true).
Proof.
  split; [exact implies_refl |].
  intros a b c Ha Hb Hc Hab Hbc H1 H2.
  apply (implies_exact_aux a c Ha Hc); [congruence |].
  intros v Hv.
  apply (implies_exact_aux b c Hb Hc Hbc); [exact H2 |].
  apply (implies_exact_aux a b Ha Hb Hab); [exact H1 | exact Hv].
Qed.

Lemma implies_preorder_witness :
  implies (mk_interval 3 4 8 true) (mk_interval 250 20 8 false) = true.
Proof.
  apply (proj2 implies_preorder
           (mk_interval 3 4 8 true) (mk_interval 0 10 8 true) (mk_interval 250 20 8 false)).
  1-3: apply canonical_concrete; reflexivity.
  all: reflexivity.
Defined.

(** X7: [negate] reports an empty negation exactly for a tight interval
    that is full; on every other interval it returns a result. *)
Theorem negate_fails_iff (i : interval) :
  negate i = None <-> tight i = true /\ is_full i = true.
Proof.
  split; [apply negate_None_full |].
  intros [Ht Hf]. apply negate_tight_full; assumption.
Qed.

Lemma negate_disjoint_aux (i : interval) :
  canonical i -> tight i = true -> is_full i = false ->
  exists r, negate i = Some r /\
            intersect i r = None /\ intersect r i = None /\
            implies i r = false /\ implies r i = false.
Proof.
  intros Hc Ht Hf.
  destruct (negate_tight_complement i Hc Ht Hf) as (r & Hn & Hcr & Hsr & _ & Hcompl).
  exists r. split; [exact Hn |].
  assert (Hdis : forall v, ~ (contains i v /\ contains r v)).
  { intros v [Hvi Hvr]. pose proof (contains_range i v Hc Hvi) as Hrange.
    apply (Hcompl v Hrange) in Hvr. exact (Hvr Hvi). }
  pose proof (intersect_post_ok i r Hc Hcr (eq_sym Hsr)) as H1.
  pose proof (intersect_post_ok r i Hcr Hc Hsr) as H2.
  split; [| split; [| split]].
  - destruct (intersect i r); [| reflexivity].
    destruct H1 as (_ & _ & _ & (v & Hv) & _). destruct (Hdis v Hv).
  - destruct (intersect r i); [| reflexivity].
    destruct H2 as (_ & _ & _ & (v & Hv) & _). destruct (Hdis v (conj (proj2 Hv) (proj1 Hv))).
  - destruct (implies i r) eqn:Him; [| reflexivity]. exfalso.
    pose proof (proj1 (implies_exact_aux i r Hc Hcr (eq_sym Hsr)) Him) as Hsub.
    apply (Hdis (l i)). split; [apply canonical_inhabited, Hc |].
    apply Hsub, canonical_inhabited, Hc.
  - destruct (implies r i) eqn:Him; [| reflexivity]. exfalso.
    pose proof (proj1 (implies_exact_aux r i Hcr Hc Hsr) Him) as Hsub.
    apply (Hdis (l r)). split; [apply Hsub |]; apply canonical_inhabited, Hcr.
Qed.

(** X8: a tight, non-full canonical interval and its negation have no
    value in common, and [intersect] reports so in either order; neither
    implies the other. *)
Theorem negate_is_disjoint (i : interval) :
  canonical i -> tight i = true -> is_full i = false ->
  exists r, negate i = Some r /\
            intersect i r = None /\ intersect r i = None /\
            implies i r = false /\ implies r i = false.
Proof. apply negate_disjoint_aux. Qed.

Lemma negate_is_disjoint_witness :
  exists r, negate (mk_interval 200 100 8 true) = Some r /\
            intersect (mk_interval 200 100 8 true) r = None /\
            intersect r (mk_interval 200 100 8 true) = None /\
            implies (mk_interval 200 100 8 true) r = false /\
            implies r (mk_interval 200 100 8 true) = false.
Proof.
  apply (negate_is_disjoint (mk_interval 200 100 8 true)).
  - apply canonical_concrete. reflexivity.
  - reflexivity.
  - reflexivity.
Defined.

Lemma same_range_refl (r : option interval) : same_range r r.
Proof. destruct r; cbn; tauto. Qed.

Lemma ctor_ends (l1 h1 l2 h2 w : Z) (t1 t2 : bool) :
  l1 = l2 -> h1 = h2 ->
  same_range (Some (interval_ctor l1 h1 w t1)) (Some (interval_ctor l2 h2 w t2)).
Proof.
  intros -> ->. unfold interval_ctor.
  destruct ((h2 <? l2) && (l2 =? wrap64 (h2 + 1))); cbn; tauto.
Qed.

Lemma same_range_eqb (a b : interval) :
  interval_eqb a b = true -> sz a = sz b ->
  same_range (Some a) (Some b) /\ same_range (Some b) (Some a).
Proof.
  unfold interval_eqb. intros E Hsz.
  apply andb_true_iff in E as [E _]. apply andb_true_iff in E as [El Eh].
  apply Z.eqb_eq in El, Eh. cbn. repeat split; congruence.
Qed.

Lemma same_range_full (a b : interval) :
  is_full a = true -> is_full b = true -> sz a = sz b ->
  same_range (Some a) (Some b).
Proof.
  unfold is_full. intros Fa Fb Hsz.
  apply andb_true_iff in Fa as [La Ha]. apply andb_true_iff in Fb as [Lb Hb].
  apply Z.eqb_eq in La, Ha, Lb, Hb. cbn. repeat split; congruence.
Qed.

(** The fast paths of [intersect] commute. *)
Ltac fast_paths a b Hsz :=
  rewrite (intersect_unfold a b), (intersect_unfold b a), (interval_eqb_sym b a);
  destruct (is_full a) eqn:Fa; destruct (is_full b) eqn:Fb;
  destruct (interval_eqb a b) eqn:E; cbn [orb];
  try apply same_range_refl;
  try (apply same_range_full; congruence);
  try (apply (same_range_eqb a b); assumption);
  try (apply (same_range_eqb b a); [rewrite interval_eqb_sym |]; congruence).

(** X6: [intersect] is commutative up to the [tight] flag: for intervals
    of one width, [a.intersect(b)] and [b.intersect(a)] fail together or
    return results with the same endpoints and width. *)
Theorem intersect_commutes (a b : interval) :
  sz a = sz b -> same_range (intersect a b) (intersect b a).
Proof.
  intros Hsz.
  destruct (is_wrapped a) eqn:Wa; destruct (is_wrapped b) eqn:Wb.
  - (* both wrapped *)
    fast_paths a b Hsz. rewrite Wa, Wb.
    unfold is_wrapped in Wa, Wb. apply Z.ltb_lt in Wa, Wb. rewrite <- Hsz.
    cmp_cases; try apply same_range_refl; try (apply ctor_ends; lia); lia.
  - (* a wrapped, b not: the source swaps the operands *)
    fast_paths a b Hsz.
    rewrite ?(interval_eqb_sym b a), ?Fa, ?Fb, ?E, ?Wa, ?Wb. cbn [orb].
    rewrite ?Wa, ?Wb. apply same_range_refl.
  - (* b wrapped, a not *)
    fast_paths a b Hsz.
    rewrite ?(interval_eqb_sym b a), ?Fa, ?Fb, ?E, ?Wa, ?Wb. cbn [orb].
    rewrite ?(intersect_unfold a b), ?Fa, ?Fb, ?E, ?Wa, ?Wb. cbn [orb].
    rewrite ?Wa, ?Wb. apply same_range_refl.
  - (* neither wrapped *)
    fast_paths a b Hsz. rewrite Wa, Wb.
    unfold is_wrapped in Wa, Wb. apply Z.ltb_ge in Wa, Wb. rewrite <- Hsz.
    cmp_cases; cbn [orb]; try exact I; try (apply ctor_ends; lia); lia.
Qed.

Lemma intersect_commutes_witness :
  same_range (intersect (mk_interval 200 100 8 false) (mk_interval 150 220 8 true))
             (intersect (mk_interval 150 220 8 true) (mk_interval 200 100 8 false)).
Proof.
  apply (intersect_commutes (mk_interval 200 100 8 false) (mk_interval 150 220 8 true)).
  reflexivity.
Defined.

(** * Further properties of the bound extractor *)

Lemma well_sorted_atom_operand (k : cmp_kind) (literal_left : bool) (n w : Z) (x : expr) :
  well_sorted (atom k literal_left n w x) = true -> well_sorted x = true.
Proof.
  intros Hws. destruct k, literal_left;
    apply well_sorted_App in Hws as [Hargs _]; cbn [forallb] in Hargs;
    repeat (apply andb_true_iff in Hargs as [? Hargs]); assumption.
Qed.

(** X9: the interval extracted from a well-sorted atom is exact: under
    every assignment of fixed-width values, the value of the bounded
    term lies in the interval exactly when the atom is true. *)
Theorem extraction_exact (rho : valuation) (e t1 : expr) (b : interval) :
  well_sorted e = true -> fits rho -> is_bound e = Some (t1, b) ->
  (contains b (rho t1) <-> holdsb rho e = true).
Proof.
  intros Hws Hfit Hb. symmetry. apply is_bound_exact; assumption.
Qed.

Lemma extraction_exact_witness :
  contains (mk_interval 128 9 8 true) 7 <->
  holdsb (fun e => if bool_decide (e = App (OP_OTHER 0 (BV_sort 8)) []) then 7 else 0)
         (mk_sle (App (OP_OTHER 0 (BV_sort 8)) []) (mk_numeral 9 8)) = true.
Proof.
  exact (extraction_exact
           (fun e => if bool_decide (e = App (OP_OTHER 0 (BV_sort 8)) []) then 7 else 0)
           (mk_sle (App (OP_OTHER 0 (BV_sort 8)) []) (mk_numeral 9 8))
           (App (OP_OTHER 0 (BV_sort 8)) []) (mk_interval 128 9 8 true)
           eq_refl
           (fits_point (App (OP_OTHER 0 (BV_sort 8)) []) 7 8 eq_refl ltac:(lia))
           eq_refl).
Defined.

(** X10: what [is_bound] returns for a well-sorted atom is well formed:
    the bounded term is never a numeral (the assertion at the head of
    [assert_expr]), it is a well-sorted bit-vector term, and the
    interval is tight, canonical and of the width of that term. *)
Theorem extraction_well_formed (e t1 : expr) (b : interval) :
  well_sorted e = true -> is_bound e = Some (t1, b) ->
  is_numeral_b t1 = false /\ well_sorted t1 = true /\
  get_sort t1 = BV_sort (sz b) /\
  tight b = true /\ canonical b.
Proof.
  intros Hws Hb.
  destruct (is_bound_wf e t1 b Hws Hb) as (Hc & Ht & Hs & Hn).
  destruct (is_bound_shapes e t1 b Hws Hb) as (k & side & n & w & _ & _ & _ & _ & He & _).
  rewrite He in Hws. apply well_sorted_atom_operand in Hws. tauto.
Qed.

Lemma extraction_well_formed_witness :
  is_numeral_b (App (OP_OTHER 0 (BV_sort 8)) []) = false /\
  well_sorted (App (OP_OTHER 0 (BV_sort 8)) []) = true /\
  get_sort (App (OP_OTHER 0 (BV_sort 8)) []) = BV_sort (sz (mk_interval 200 255 8 true)) /\
  tight (mk_interval 200 255 8 true) = true /\
  canonical (mk_interval 200 255 8 true).
Proof.
  apply (extraction_well_formed
           (mk_ule (mk_numeral 200 8) (App (OP_OTHER 0 (BV_sort 8)) []))).
  - reflexivity.
  - reflexivity.
Defined.

(** X11: on well-sorted terms [is_bound] succeeds exactly on the atoms
    of the six shapes: a comparison (unsigned or signed less-or-equal,
    equality) between a literal of width at most 64 and a term that is
    not a numeral; it returns that term and the interval of the shape.
    In particular it declines a comparison of two literals and a
    comparison without a literal. *)
Theorem extraction_succeeds_iff (e t1 : expr) (b : interval) :
  well_sorted e = true ->
  (is_bound e = Some (t1, b) <->
   exists k literal_left n w,
     w <= 64 /\ is_numeral_b t1 = false /\
     e = atom k literal_left n w t1 /\ b = shape_interval k literal_left n w).
Proof.
  intros Hws. split.
  - intros Hb.
    destruct (is_bound_shapes e t1 b Hws Hb)
      as (k & side & n & w & Hw & _ & Hnum & _ & He & Hbe).
    exists k, side, n, w. unfold valid_width in Hw. repeat split; try assumption; lia.
  - intros (k & side & n & w & Hw & Hnum & -> & ->).
    apply is_bound_atom; assumption.
Qed.

Lemma extraction_succeeds_iff_witness :
  is_bound (mk_eq (mk_numeral 3 8) (mk_numeral 3 8)) = Some (mk_numeral 3 8, mk_interval 3 3 8 true) <->
  exists k literal_left n w,
    w <= 64 /\ is_numeral_b (mk_numeral 3 8) = false /\
    mk_eq (mk_numeral 3 8) (mk_numeral 3 8) = atom k literal_left n w (mk_numeral 3 8) /\
    mk_interval 3 3 8 true = shape_interval k literal_left n w.
Proof.
  apply (extraction_succeeds_iff (mk_eq (mk_numeral 3 8) (mk_numeral 3 8))).
  reflexivity.
Defined.

(** * Further properties of [assert_expr] *)

Lemma interval_eqb_refl (i : interval) : interval_eqb i i = true.
Proof.
  unfold interval_eqb. rewrite !Z.eqb_refl. destruct (tight i); reflexivity.
Qed.

(** X15: a returning call of [assert_expr] either leaves the simplifier
    as it is, or changes the interval of exactly one subexpression and
    appends exactly one undo record, which names that subexpression and
    keeps what the bound map held for it (nothing, for a fresh entry);
    undoing that record gives the bound map of before.  A call that
    returns failure leaves the simplifier as it is.  The scope level
    thus counts the changes of the bound map. *)
Theorem assert_expr_lockstep (vc : bool) (t : expr) (sign r : bool)
    (s s' : bv_bounds_simplifier) :
  assert_expr vc t sign s = Returned (r, s') ->
  (r = false -> s' = s) /\
  (s' = s \/
   (r = true /\ scope_level s' = S (scope_level s) /\
    m_bound s' <> m_bound s /\
    exists t1 i, m_bound s' = <[t1 := i]> (m_bound s) /\
                 (forall t2, t2 <> t1 -> m_bound s' !! t2 = m_bound s !! t2) /\
                 m_scopes s' =
                 m_scopes s ++ [mk_undo_bound t1 (m_bound s !! t1)
                                  (bool_decide (m_bound s !! t1 = None))] /\
                 forall u, last (m_scopes s') = Some u ->
                           undo_one (m_bound s') u = m_bound s)) /\
  m_propagate_eq s' = m_propagate_eq s /\
  m_expr_vars s' = m_expr_vars s /\ m_bound_exprs s' = m_bound_exprs s.
Proof.
  intros Hstep.
  apply assert_expr_step in Hstep
    as [[-> Hr] | (-> & t1 & b & _ & [[Hnone ->] | (old & intr & Hold & _ & Hne & ->)])].
  - repeat split; tauto.
  - split; [discriminate |]. split; [| repeat split]. right.
    split; [reflexivity |]. unfold scope_level. cbn [set_bounds m_scopes m_bound].
    split; [rewrite length_app; cbn; lia |]. split.
    + intros Heq. apply (f_equal (fun m => m !! t1)) in Heq.
      rewrite lookup_insert_eq, Hnone in Heq. discriminate Heq.
    + exists t1, b. split; [reflexivity |].
      split; [intros t2 Hne; apply lookup_insert_ne; congruence |].
      rewrite Hnone. split; [reflexivity |].
      intros u Hu. rewrite last_snoc in Hu. injection Hu as <-.
      unfold undo_one. cbn [undo_fresh undo_e].
      apply delete_insert_id, Hnone.
  - split; [discriminate |]. split; [| repeat split]. right.
    split; [reflexivity |]. unfold scope_level. cbn [set_bounds m_scopes m_bound].
    split; [rewrite length_app; cbn; lia |]. split.
    + intros Heq. apply (f_equal (fun m => m !! t1)) in Heq.
      rewrite lookup_insert_eq, Hold in Heq. injection Heq as ->.
      rewrite interval_eqb_refl in Hne. discriminate Hne.
    + exists t1, intr. split; [reflexivity |].
      split; [intros t2 Hne2; apply lookup_insert_ne; congruence |].
      rewrite Hold. split; [reflexivity |].
      intros u Hu. rewrite last_snoc in Hu. injection Hu as <-.
      unfold undo_one. cbn [undo_fresh undo_e undo_b].
      rewrite insert_insert_eq. apply insert_id, Hold.
Qed.

Lemma assert_expr_lockstep_witness :
  assert_expr true (mk_ule (App (OP_OTHER 0 (BV_sort 8)) []) (mk_numeral 5 8)) false (init false)
  = Returned (true,
              mk_simplifier false [mk_undo_bound (App (OP_OTHER 0 (BV_sort 8)) []) None true]
                (<[(App (OP_OTHER 0 (BV_sort 8)) []) := mk_interval 0 5 8 true]> ∅) ∅ ∅) /\
  scope_level (mk_simplifier false [mk_undo_bound (App (OP_OTHER 0 (BV_sort 8)) []) None true]
                 (<[(App (OP_OTHER 0 (BV_sort 8)) []) := mk_interval 0 5 8 true]> ∅) ∅ ∅)
  = S (scope_level (init false)) /\
  exists t1 i,
    m_bound (mk_simplifier false [mk_undo_bound (App (OP_OTHER 0 (BV_sort 8)) []) None true]
               (<[(App (OP_OTHER 0 (BV_sort 8)) []) := mk_interval 0 5 8 true]> ∅) ∅ ∅)
    = <[t1 := i]> (m_bound (init false)) /\
    m_scopes (mk_simplifier false [mk_undo_bound (App (OP_OTHER 0 (BV_sort 8)) []) None true]
                (<[(App (OP_OTHER 0 (BV_sort 8)) []) := mk_interval 0 5 8 true]> ∅) ∅ ∅)
    = m_scopes (init false) ++
      [mk_undo_bound t1 (m_bound (init false) !! t1)
         (bool_decide (m_bound (init false) !! t1 = None))].
Proof.
  assert (Hstep :
    assert_expr true (mk_ule (App (OP_OTHER 0 (BV_sort 8)) []) (mk_numeral 5 8)) false (init false)
    = Returned (true,
                mk_simplifier false [mk_undo_bound (App (OP_OTHER 0 (BV_sort 8)) []) None true]
                  (<[(App (OP_OTHER 0 (BV_sort 8)) []) := mk_interval 0 5 8 true]> ∅) ∅ ∅))
    by (vm_compute; reflexivity).
  split; [exact Hstep |].
  destruct (assert_expr_lockstep true _ false true (init false) _ Hstep)
    as (_ & [Hsame | (_ & Hlevel & _ & t1 & i & Hmap & _ & Hsc & _)] & _).
  - apply (f_equal m_scopes) in Hsame. discriminate Hsame.
  - split; [exact Hlevel |]. exists t1, i. split; [exact Hmap | exact Hsc].
Defined.

(** A fact that holds does not violate the [VERIFY]. *)
Lemma fact_holds_not_violated (rho : valuation) (t : expr) (sign : bool) :
  well_sorted t = true -> fits rho -> fact_holds rho (t, sign) ->
  verify_violated t sign = false.
Proof.
  intros Hws Hfit Hfact.
  pose proof (strip_not_well_sorted t sign Hws) as Hws0.
  apply (strip_not_fact rho) in Hfact. unfold fact_holds in Hfact.
  unfold verify_violated. destruct (strip_not t sign) as [t0 sign0].
  cbn [fst snd] in *.
  destruct (is_bound t0) as [[t1 b] |] eqn:Hb; [| reflexivity].
  destruct sign0; [| reflexivity]. cbn [andb negb] in *.
  destruct (negate b) as [r |] eqn:Hn; [reflexivity |]. exfalso.
  destruct (is_bound_wf t0 t1 b Hws0 Hb) as (Hc & _ & Hsort & _).
  apply negate_None_full in Hn as [_ Hfull].
  pose proof (fits_range rho t1 (sz b) Hfit Hsort (proj1 Hc)) as Hv.
  pose proof (full_contains b (rho t1) Hfull Hv) as Hin.
  apply (is_bound_exact rho t0 t1 b Hws0 Hfit Hb) in Hin. congruence.
Qed.

Lemma assert_expr_satisfiable (vc : bool) (rho : valuation) (t : expr) (sign : bool)
    (s : bv_bounds_simplifier) :
  inv s -> well_sorted t = true -> fits rho -> sound rho s ->
  fact_holds rho (t, sign) ->
  exists s', assert_expr vc t sign s = Returned (true, s').
Proof.
  intros Hinv Hws Hfit Hsound Hfact.
  destruct Hinv as (Hb & _).
  rewrite assert_expr_by_bound,
    (fact_holds_not_violated rho t sign Hws Hfit Hfact), andb_false_r.
  destruct (asserted_bound vc t sign) as [[t1 b] |] eqn:Hab; [| eexists; reflexivity].
  destruct (m_bound s !! t1) as [old |] eqn:Hold; [| eexists; reflexivity].
  destruct (asserted_bound_wf vc t sign t1 b Hws Hab) as (Hc & Hs & _).
  destruct (Hb t1 old Hold) as (Hco & Hso & _).
  assert (Hsz : sz old = sz b) by congruence.
  pose proof (intersect_post_ok old b Hco Hc Hsz) as Hpost.
  destruct (intersect old b) as [intr |];
    [destruct (interval_eqb old intr); eexists; reflexivity |].
  exfalso. apply (Hpost (rho t1)). split.
  - apply (Hsound t1 old Hold).
  - apply (asserted_bound_sound vc rho t sign t1 b Hws Hfit Hfact Hab).
Qed.

(** X16: [assert_expr] never reports a contradiction, and never runs
    into its [VERIFY], for facts that can hold: from a reachable state
    whose bounds agree with an assignment of fixed-width values, every
    run of calls on well-sorted facts that hold under the assignment
    succeeds, and the bounds still agree with the assignment. *)
Theorem run_asserts_satisfiable (vc : bool) (rho : valuation)
    (facts : list (expr * bool)) (s0 : bv_bounds_simplifier) :
  reachable vc s0 -> fits rho -> sound rho s0 ->
  Forall (fun f => well_sorted f.1 = true) facts ->
  Forall (fact_holds rho) facts ->
  exists s, run_asserts vc facts s0 = Some s /\ sound rho s.
Proof.
  intros Hr Hfit Hsound Hws. apply (reachable_inv vc) in Hr. revert s0 Hr Hsound.
  induction Hws as [| [t sign] facts Ht _ IH]; intros s0 Hinv Hsound Hfacts.
  - exists s0. split; [reflexivity | exact Hsound].
  - apply Forall_cons in Hfacts as [Hfact Hfacts]. cbn [fst] in Ht.
    destruct (assert_expr_satisfiable vc rho t sign s0 Hinv Ht Hfit Hsound Hfact)
      as [s1 Hstep].
    cbn [run_asserts]. rewrite Hstep.
    apply IH; [| | exact Hfacts].
    + apply (assert_expr_inv vc t sign true s0 s1 Ht Hinv Hstep).
    + apply (assert_expr_sound vc rho t sign true s0 s1 Ht Hinv Hfit Hsound Hfact Hstep).
Qed.

Lemma run_asserts_satisfiable_witness :
  exists s,
    run_asserts true
      [(mk_ule (App (OP_OTHER 0 (BV_sort 8)) []) (mk_numeral 5 8), false);
       (mk_ule (App (OP_OTHER 0 (BV_sort 8)) []) (mk_numeral 2 8), true)]
      (init false) = Some s /\
    sound (fun e => if bool_decide (e = App (OP_OTHER 0 (BV_sort 8)) []) then 4 else 0) s.
Proof.
  apply (run_asserts_satisfiable true
           (fun e => if bool_decide (e = App (OP_OTHER 0 (BV_sort 8)) []) then 4 else 0)).
  - apply reachable_init.
  - apply (fits_point (App (OP_OTHER 0 (BV_sort 8)) []) 4 8); [reflexivity | lia].
  - intros t i Hl. cbn in Hl. rewrite lookup_empty in Hl. discriminate Hl.
  - repeat constructor.
  - repeat constructor.
Defined.

(** * Further properties of the undo stack and of [pop] *)

Lemma history_snoc_inv (st : list undo_bound) (u : undo_bound) (m : gmap expr interval) :
  history (st ++ [u]) m ->
  history st (undo_one m u) /\ is_Some (m !! undo_e u).
Proof.
  intros H. inversion H as [Hnil | st' m' e b Hh Hl Heq | st' m' e old i Hh Hl Heq].
  - destruct st; discriminate Hnil.
  - apply app_inj_tail in Heq as [-> <-]. unfold undo_one. cbn [undo_fresh undo_e].
    rewrite delete_insert_id by exact Hl. split; [exact Hh |].
    rewrite lookup_insert_eq. eexists. reflexivity.
  - apply app_inj_tail in Heq as [-> <-]. unfold undo_one. cbn [undo_fresh undo_e undo_b].
    rewrite insert_insert_eq, insert_id by exact Hl. split; [exact Hh |].
    rewrite lookup_insert_eq. eexists. reflexivity.
Qed.

Lemma history_undo (st us : list undo_bound) (m : gmap expr interval) :
  history (st ++ us) m -> history st (fold_left undo_one (rev us) m).
Proof.
  revert m. induction us as [| u us IH] using rev_ind; intros m H.
  - rewrite app_nil_r in H. exact H.
  - rewrite app_assoc in H. apply history_snoc_inv in H as [H _].
    rewrite rev_app_distr. cbn [rev app fold_left]. apply IH, H.
Qed.

Lemma history_dom (st : list undo_bound) (m : gmap expr interval) :
  history st m -> dom m = list_to_set (undo_e <$> st).
Proof.
  induction 1 as [| st m e b _ IH _ | st m e old i _ IH _].
  - rewrite dom_empty_L. reflexivity.
  - rewrite dom_insert_L, fmap_app, list_to_set_app_L, IH. cbn [fmap list_fmap list_to_set undo_e].
    rewrite union_empty_r_L. apply (comm_L (∪)).
  - rewrite dom_insert_L, fmap_app, list_to_set_app_L, IH. cbn [fmap list_fmap list_to_set undo_e].
    rewrite union_empty_r_L. apply (comm_L (∪)).
Qed.

Lemma reachable_history (vc : bool) (s : bv_bounds_simplifier) :
  reachable vc s -> history (m_scopes s) (m_bound s).
Proof.
  induction 1 as [p | s s' t sign r _ IH Hws Hstep | s s' n _ IH Hpop | s t _ IH].
  - constructor.
  - apply assert_expr_step in Hstep
      as [[-> _] | (_ & t1 & b & _ & [[Hnone ->] | (old & intr & Hold & _ & _ & ->)])].
    + exact IH.
    + apply history_fresh; assumption.
    + apply (history_narrow _ _ _ old); assumption.
  - unfold pop in Hpop.
    destruct (m_scopes s) as [| u0 rest] eqn:Hsc; [injection Hpop as <-; rewrite Hsc; exact IH |].
    rewrite <- Hsc in *.
    destruct (length (m_scopes s) <? n)%nat; [discriminate Hpop |].
    destruct (length (m_scopes s) - n =? 0)%nat; injection Hpop as <-.
    + constructor.
    + cbn [set_bounds m_scopes m_bound]. apply history_undo.
      rewrite take_drop. exact IH.
  - destruct (may_simplify_state t s) as (-> & -> & _). exact IH.
Qed.

(** X17: in every reachable state the subexpressions that have a bound
    are exactly those with a record on the undo stack, and when [pop]
    comes to a record while it undoes the stack from the top, the bound
    map has an entry for the record's subexpression (the assertion in
    the loop of [pop]). *)
Theorem bound_map_matches_stack (vc : bool) (s : bv_bounds_simplifier) :
  reachable vc s ->
  dom (m_bound s) = list_to_set (undo_e <$> m_scopes s) /\
  (forall st u us,
     m_scopes s = st ++ u :: us ->
     is_Some (fold_left undo_one (rev us) (m_bound s) !! undo_e u)).
Proof.
  intros Hr. apply reachable_history in Hr. split; [apply history_dom, Hr |].
  intros st u us Heq. rewrite Heq in Hr.
  change (st ++ u :: us) with (st ++ [u] ++ us) in Hr. rewrite app_assoc in Hr.
  apply history_undo, history_snoc_inv in Hr as [_ Hin]. exact Hin.
Qed.

Lemma bound_map_matches_stack_witness :
  run_asserts true
    [(mk_ule (App (OP_OTHER 0 (BV_sort 8)) []) (mk_numeral 5 8), false); (mk_ule (App (OP_OTHER 1 (BV_sort 8)) []) (mk_numeral 3 8), false)]
    (init false)
  = Some (mk_simplifier false
            [mk_undo_bound (App (OP_OTHER 0 (BV_sort 8)) []) None true; mk_undo_bound (App (OP_OTHER 1 (BV_sort 8)) []) None true]
            (<[(App (OP_OTHER 1 (BV_sort 8)) []) := mk_interval 0 3 8 true]> (<[(App (OP_OTHER 0 (BV_sort 8)) []) := mk_interval 0 5 8 true]> ∅))
            ∅ ∅) /\
  dom (m_bound (mk_simplifier false
            [mk_undo_bound (App (OP_OTHER 0 (BV_sort 8)) []) None true; mk_undo_bound (App (OP_OTHER 1 (BV_sort 8)) []) None true]
            (<[(App (OP_OTHER 1 (BV_sort 8)) []) := mk_interval 0 3 8 true]> (<[(App (OP_OTHER 0 (BV_sort 8)) []) := mk_interval 0 5 8 true]> ∅))
            ∅ ∅))
  = list_to_set (undo_e <$> m_scopes (mk_simplifier false
            [mk_undo_bound (App (OP_OTHER 0 (BV_sort 8)) []) None true; mk_undo_bound (App (OP_OTHER 1 (BV_sort 8)) []) None true]
            (<[(App (OP_OTHER 1 (BV_sort 8)) []) := mk_interval 0 3 8 true]> (<[(App (OP_OTHER 0 (BV_sort 8)) []) := mk_interval 0 5 8 true]> ∅))
            ∅ ∅)) /\
  is_Some (fold_left undo_one (rev [mk_undo_bound (App (OP_OTHER 1 (BV_sort 8)) []) None true])
             (m_bound (mk_simplifier false
                [mk_undo_bound (App (OP_OTHER 0 (BV_sort 8)) []) None true; mk_undo_bound (App (OP_OTHER 1 (BV_sort 8)) []) None true]
                (<[(App (OP_OTHER 1 (BV_sort 8)) []) := mk_interval 0 3 8 true]> (<[(App (OP_OTHER 0 (BV_sort 8)) []) := mk_interval 0 5 8 true]> ∅))
                ∅ ∅))
           !! undo_e (mk_undo_bound (App (OP_OTHER 0 (BV_sort 8)) []) None true)).
Proof.
  assert (Hrun :
    run_asserts true
      [(mk_ule (App (OP_OTHER 0 (BV_sort 8)) []) (mk_numeral 5 8), false); (mk_ule (App (OP_OTHER 1 (BV_sort 8)) []) (mk_numeral 3 8), false)]
      (init false)
    = Some (mk_simplifier false
              [mk_undo_bound (App (OP_OTHER 0 (BV_sort 8)) []) None true; mk_undo_bound (App (OP_OTHER 1 (BV_sort 8)) []) None true]
              (<[(App (OP_OTHER 1 (BV_sort 8)) []) := mk_interval 0 3 8 true]> (<[(App (OP_OTHER 0 (BV_sort 8)) []) := mk_interval 0 5 8 true]> ∅))
              ∅ ∅))
    by (vm_compute; reflexivity).
  split; [exact Hrun |].
  pose proof (fun Hws => run_asserts_reachable true _ (init false) _ Hws
                           (reachable_init true false) Hrun) as Hreach.
  destruct (bound_map_matches_stack true _ (Hreach ltac:(repeat constructor)))
    as [Hdom Hpop].
  split; [exact Hdom |].
  exact (Hpop [] (mk_undo_bound (App (OP_OTHER 0 (BV_sort 8)) []) None true) [mk_undo_bound (App (OP_OTHER 1 (BV_sort 8)) []) None true] eq_refl).
Defined.

(** [pop] within the stack, written out. *)
Lemma pop_within (n : nat) (s : bv_bounds_simplifier) :
  (n <= scope_level s)%nat ->
  pop n s =
  Some (if (scope_level s =? 0)%nat then s
        else if (scope_level s - n =? 0)%nat then set_bounds s [] ∅
        else set_bounds s (take (scope_level s - n) (m_scopes s))
               (fold_left undo_one (rev (drop (scope_level s - n) (m_scopes s)))
                          (m_bound s))).
Proof.
  unfold pop, scope_level. intros Hn.
  destruct (m_scopes s) as [| u0 rest] eqn:Hsc; [reflexivity |].
  rewrite <- Hsc in *.
  assert (Hpos : length (m_scopes s) <> 0%nat) by (rewrite Hsc; discriminate).
  destruct (Nat.ltb_spec (length (m_scopes s)) n); [lia |].
  destruct (Nat.eqb_spec (length (m_scopes s)) 0); [lia |].
  destruct (length (m_scopes s) - n =? 0)%nat; reflexivity.
Qed.

(** X18: popping [a] scopes and then [b] scopes is popping [a + b]
    scopes, as long as the stack holds that many; the scope level goes
    down by [a + b]. *)
Theorem pop_composes (a b : nat) (s : bv_bounds_simplifier) :
  (a + b <= scope_level s)%nat ->
  exists s1 s2,
    pop a s = Some s1 /\ pop b s1 = Some s2 /\ pop (a + b) s = Some s2 /\
    scope_level s2 = (scope_level s - (a + b))%nat.
Proof.
  intros Hab.
  rewrite (pop_within a s), (pop_within (a + b) s) by lia.
  destruct (Nat.eqb_spec (scope_level s) 0) as [Hz | Hnz].
  { (* empty stack *)
    exists s, s. rewrite (pop_within b s) by lia.
    destruct (Nat.eqb_spec (scope_level s) 0); [| lia].
    split; [reflexivity |]. split; [reflexivity |]. split; [reflexivity | lia]. }
  destruct (Nat.eqb_spec (scope_level s - a) 0) as [Ha | Ha].
  { (* the first pop empties the stack *)
    assert (b = 0%nat) by lia. subst b.
    exists (set_bounds s [] ∅), (set_bounds s [] ∅).
    destruct (Nat.eqb_spec (scope_level s - (a + 0)) 0); [| lia].
    split; [reflexivity |]. split; [reflexivity |]. split; [reflexivity |].
    unfold scope_level in *. cbn. lia. }
  set (s1 := set_bounds s (take (scope_level s - a) (m_scopes s))
               (fold_left undo_one (rev (drop (scope_level s - a) (m_scopes s)))
                          (m_bound s))).
  assert (Hlen : scope_level s1 = (scope_level s - a)%nat).
  { unfold s1, scope_level. cbn [set_bounds m_scopes]. rewrite length_take.
    unfold scope_level. lia. }
  exists s1. rewrite (pop_within b s1) by (rewrite Hlen; lia). rewrite Hlen.
  destruct (Nat.eqb_spec (scope_level s - a) 0); [lia |].
  replace (scope_level s - a - b)%nat with (scope_level s - (a + b))%nat by lia.
  destruct (Nat.eqb_spec (scope_level s - (a + b)) 0) as [Hb | Hb].
  { eexists. split; [reflexivity |]. split; [reflexivity |]. split; [reflexivity |].
    unfold scope_level in *. cbn. lia. }
  eexists. split; [reflexivity |]. split; [reflexivity |]. split.
  - f_equal. unfold s1, set_bounds.
    cbn [m_scopes m_bound m_propagate_eq m_expr_vars m_bound_exprs].
    f_equal.
    + rewrite take_take. f_equal. lia.
    + rewrite <- fold_left_app, <- rev_app_distr. f_equal. f_equal.
      rewrite <- (take_drop (scope_level s - a) (m_scopes s)) at 1.
      rewrite drop_app_le by (rewrite length_take; unfold scope_level; lia).
      reflexivity.
  - unfold scope_level, s1. cbn [set_bounds m_scopes].
    rewrite length_take, length_take. unfold scope_level. lia.
Qed.

Lemma pop_composes_witness :
  run_asserts true
    [(mk_ule (App (OP_OTHER 0 (BV_sort 8)) []) (mk_numeral 5 8), false); (mk_ule (App (OP_OTHER 1 (BV_sort 8)) []) (mk_numeral 3 8), false);
     (mk_ule (App (OP_OTHER 0 (BV_sort 8)) []) (mk_numeral 2 8), false)]
    (init false)
  = Some (mk_simplifier false
            [mk_undo_bound (App (OP_OTHER 0 (BV_sort 8)) []) None true; mk_undo_bound (App (OP_OTHER 1 (BV_sort 8)) []) None true;
             mk_undo_bound (App (OP_OTHER 0 (BV_sort 8)) []) (Some (mk_interval 0 5 8 true)) false]
            (<[(App (OP_OTHER 0 (BV_sort 8)) []) := mk_interval 0 2 8 true]>
               (<[(App (OP_OTHER 1 (BV_sort 8)) []) := mk_interval 0 3 8 true]> (<[(App (OP_OTHER 0 (BV_sort 8)) []) := mk_interval 0 5 8 true]> ∅)))
            ∅ ∅) /\
  exists s1 s2,
    pop 1 (mk_simplifier false
            [mk_undo_bound (App (OP_OTHER 0 (BV_sort 8)) []) None true; mk_undo_bound (App (OP_OTHER 1 (BV_sort 8)) []) None true;
             mk_undo_bound (App (OP_OTHER 0 (BV_sort 8)) []) (Some (mk_interval 0 5 8 true)) false]
            (<[(App (OP_OTHER 0 (BV_sort 8)) []) := mk_interval 0 2 8 true]>
               (<[(App (OP_OTHER 1 (BV_sort 8)) []) := mk_interval 0 3 8 true]> (<[(App (OP_OTHER 0 (BV_sort 8)) []) := mk_interval 0 5 8 true]> ∅)))
            ∅ ∅) = Some s1 /\
    pop 1 s1 = Some s2 /\
    pop (1 + 1) (mk_simplifier false
            [mk_undo_bound (App (OP_OTHER 0 (BV_sort 8)) []) None true; mk_undo_bound (App (OP_OTHER 1 (BV_sort 8)) []) None true;
             mk_undo_bound (App (OP_OTHER 0 (BV_sort 8)) []) (Some (mk_interval 0 5 8 true)) false]
            (<[(App (OP_OTHER 0 (BV_sort 8)) []) := mk_interval 0 2 8 true]>
               (<[(App (OP_OTHER 1 (BV_sort 8)) []) := mk_interval 0 3 8 true]> (<[(App (OP_OTHER 0 (BV_sort 8)) []) := mk_interval 0 5 8 true]> ∅)))
            ∅ ∅) = Some s2 /\
    scope_level s2 =
    (scope_level (mk_simplifier false
            [mk_undo_bound (App (OP_OTHER 0 (BV_sort 8)) []) None true; mk_undo_bound (App (OP_OTHER 1 (BV_sort 8)) []) None true;
             mk_undo_bound (App (OP_OTHER 0 (BV_sort 8)) []) (Some (mk_interval 0 5 8 true)) false]
            (<[(App (OP_OTHER 0 (BV_sort 8)) []) := mk_interval 0 2 8 true]>
               (<[(App (OP_OTHER 1 (BV_sort 8)) []) := mk_interval 0 3 8 true]> (<[(App (OP_OTHER 0 (BV_sort 8)) []) := mk_interval 0 5 8 true]> ∅)))
            ∅ ∅) - (1 + 1))%nat.
Proof.
  split; [vm_compute; reflexivity |].
  apply (pop_composes 1 1). unfold scope_level. cbn [m_scopes length]. lia.
Defined.

(** * Further properties of [simplify] *)

Lemma is_bound_tight (e t1 : expr) (b : interval) :
  is_bound e = Some (t1, b) -> tight b = true.
Proof.
  unfold is_bound. intros H.
  destruct (is_bv_ule e) as [[lhs rhs] |];
    [| destruct (is_bv_sle e) as [[lhs rhs] |];
       [| destruct (is_eq e) as [[lhs rhs] |]; [| discriminate H]]];
    (destruct (is_number lhs) as [[n w] |];
     [destruct (is_numeral_b rhs); [discriminate H |]
     | destruct (is_number rhs) as [[n w] |]; [| discriminate H]]);
    injection H as <- <-; apply ctor_tight.
Qed.

(** The ways [simplify_atom] returns a rewrite. *)
Lemma simplify_atom_inv (t : expr) (s : bv_bounds_simplifier) (r : expr) :
  simplify_atom t s = Some r ->
  is_bool t = true /\
  exists t1 b0,
    is_bound (strip_not t false).1 = Some (t1, b0) /\
    (((strip_not t false).2 = true /\ negate b0 = None /\ r = mk_false) \/
     exists b,
       (((strip_not t false).2 = true /\ negate b0 = Some b) \/
        ((strip_not t false).2 = false /\ b = b0)) /\
       ((is_full b && tight b = true /\ r = mk_true) \/
        exists ctx,
          is_full b && tight b = false /\ m_bound s !! t1 = Some ctx /\
          ((implies ctx b = true /\ r = mk_true) \/
           (implies ctx b = false /\ intersect b ctx = None /\ r = mk_false) \/
           exists intr,
             implies ctx b = false /\ intersect b ctx = Some intr /\
             m_propagate_eq s = true /\ is_singleton intr = true /\
             r = mk_eq t1 (mk_numeral (l intr) (get_bv_size t1))))).
Proof.
  unfold simplify_atom. destruct (is_bool t); [| discriminate]. cbn [negb].
  destruct (strip_not t false) as [t0 sign]. cbn [fst snd].
  destruct (is_bound t0) as [[t1 b0] |] eqn:Hb; [| discriminate].
  rewrite (is_bound_tight t0 t1 b0 Hb), andb_true_r.
  intros H. split; [reflexivity |]. exists t1, b0. split; [reflexivity |].
  assert (Hcases :
    (sign = true /\ negate b0 = None /\ r = mk_false) \/
    exists b, ((sign = true /\ negate b0 = Some b) \/ (sign = false /\ b = b0)) /\
      match (if is_full b && tight b then Some mk_true
             else match m_bound s !! t1 with
                  | Some ctx =>
                    if implies ctx b then Some mk_true
                    else match intersect b ctx with
                         | None => Some mk_false
                         | Some intr =>
                           if m_propagate_eq s && is_singleton intr
                           then Some (mk_eq t1 (mk_numeral (l intr) (get_bv_size t1)))
                           else None
                         end
                  | None => None
                  end) with
      | Some r' => Some r'
      | None => None
      end = Some r).
  { destruct sign.
    - destruct (negate b0) as [nb |] eqn:Hn.
      + right. exists nb. split; [left; tauto | exact H].
      + left. injection H as <-. tauto.
    - right. exists b0. split; [right; tauto | exact H]. }
  destruct Hcases as [Hc | (b & Hpol & Hres)]; [left; exact Hc |].
  right. exists b. split; [exact Hpol |].
  destruct (is_full b && tight b) eqn:Hft.
  { left. injection Hres as <-. tauto. }
  right. destruct (m_bound s !! t1) as [ctx |]; [| discriminate Hres].
  exists ctx. split; [reflexivity |]. split; [reflexivity |].
  destruct (implies ctx b) eqn:Himp.
  { left. injection Hres as <-. tauto. }
  right. destruct (intersect b ctx) as [intr |] eqn:Hint.
  - right. exists intr.
    destruct (m_propagate_eq s); [| discriminate Hres].
    destruct (is_singleton intr); [| discriminate Hres].
    injection Hres as <-. tauto.
  - left. injection Hres as <-. tauto.
Qed.

Lemma simplify_inv (t : expr) (s : bv_bounds_simplifier) (r : expr) :
  simplify t s = Some r ->
  (exists b, m_bound s !! t = Some b /\ is_singleton b = true /\
             r = mk_numeral (l b) (get_bv_size t)) \/
  simplify_atom t s = Some r.
Proof.
  unfold simplify. destruct (m_bound s !! t) as [b |]; [| tauto].
  destruct (is_singleton b) eqn:Hs; [| tauto].
  intros [= <-]. left. exists b. tauto.
Qed.



Lemma bool_eq_of_iff (x y : bool) : (x = true <-> y = true) -> x = y.
Proof. destruct x, y; intuition congruence. Qed.

Lemma singleton_value (i : interval) (v : Z) :
  is_singleton i = true -> contains i v -> v = l i.
Proof.
  unfold is_singleton, contains, is_wrapped. intros Hs.
  apply Z.eqb_eq in Hs. rewrite <- Hs.
  destruct (Z.ltb_spec (l i) (l i)); lia.
Qed.

(** The interval [simplify] works with after the polarity has been
    applied denotes the values for which the term is true. *)
Lemma polarity_interval (rho : valuation) (t t1 : expr) (b0 b : interval) :
  well_sorted t = true -> fits rho ->
  is_bound (strip_not t false).1 = Some (t1, b0) ->
  (((strip_not t false).2 = true /\ negate b0 = Some b) \/
   ((strip_not t false).2 = false /\ b = b0)) ->
  canonical b /\ sz b = sz b0 /\
  (contains b (rho t1) <-> holdsb rho t = true).
Proof.
  intros Hws Hfit Hb Hpol.
  pose proof (strip_not_well_sorted t false Hws) as Hws0.
  pose proof (strip_not_fact rho t false) as Hfact. unfold fact_holds in Hfact.
  destruct (strip_not t false) as [t0 sign0]. cbn [fst snd negb] in *.
  destruct (is_bound_wf t0 t1 b0 Hws0 Hb) as (Hc & Ht & Hsort & _).
  pose proof (is_bound_exact rho t0 t1 b0 Hws0 Hfit Hb) as Hex.
  pose proof (fits_range rho t1 (sz b0) Hfit Hsort (proj1 Hc)) as Hv.
  destruct Hpol as [[-> Hn] | [-> ->]]; cbn [negb] in Hfact.
  - pose proof (negate_Some_tight_not_full b0 b Ht Hn) as Hnf.
    destruct (negate_tight_complement b0 Hc Ht Hnf) as (r & Hr & Hcr & Hsr & _ & Hcompl).
    rewrite Hn in Hr. injection Hr as <-.
    split; [exact Hcr |]. split; [exact Hsr |].
    rewrite (Hcompl _ Hv), <- Hfact, <- Hex.
    destruct (holdsb rho t0); intuition congruence.
  - split; [exact Hc |]. split; [reflexivity |].
    rewrite <- Hfact, <- Hex. reflexivity.
Qed.

(** X19: [simplify] is sound.  On a reachable state, for a well-sorted
    term and every assignment of fixed-width values that agrees with the
    bound map, a rewrite returned by [simplify] has the meaning of the
    term: the same truth value for a Boolean term, the same value for a
    bit-vector term. *)
Theorem simplify_sound (vc : bool) (rho : valuation) (s : bv_bounds_simplifier)
    (t r : expr) :
  reachable vc s -> well_sorted t = true -> fits rho -> sound rho s ->
  simplify t s = Some r ->
  same_meaning rho t r.
Proof.
  intros Hr Hws Hfit Hsound Hsimp.
  destruct (reachable_inv vc s Hr) as (Hbw & _).
  apply simplify_inv in Hsimp as [(b & Hl & Hsing & ->) | Hsimp].
  { destruct (Hbw t b Hl) as (_ & Hsort & Hnum).
    unfold same_meaning, is_bool. rewrite Hsort.
    rewrite bool_decide_eq_false_2 by discriminate.
    rewrite bv_val_numeral, (bv_val_other rho t Hnum).
    symmetry. apply singleton_value; [exact Hsing | apply (Hsound t b Hl)]. }
  apply simplify_atom_inv in Hsimp as (Hbool & t1 & b0 & Hb & Hcases).
  unfold same_meaning. rewrite Hbool.
  pose proof (strip_not_well_sorted t false Hws) as Hws0.
  destruct (is_bound_wf _ t1 b0 Hws0 Hb) as (Hc0 & Ht0 & Hsort & Hnum).
  pose proof (fits_range rho t1 (sz b0) Hfit Hsort (proj1 Hc0)) as Hv.
  destruct Hcases as [(Hsign & Hn & ->) | (b & Hpol & Hres)].
  { (* the negated atom is always true *)
    pose proof (strip_not_fact rho t false) as Hfact. unfold fact_holds in Hfact.
    pose proof (is_bound_exact rho _ t1 b0 Hws0 Hfit Hb) as Hex.
    rewrite Hsign in Hfact. cbn [fst snd negb] in Hfact.
    apply negate_None_full in Hn as [_ Hfull].
    apply (full_contains b0 (rho t1) Hfull) in Hv. apply Hex in Hv.
    cbn [holdsb mk_false]. destruct (holdsb rho t); [| reflexivity].
    destruct Hfact as [_ Hfact]. rewrite Hfact in Hv by reflexivity. discriminate Hv. }
  destruct (polarity_interval rho t t1 b0 b Hws Hfit Hb Hpol) as (Hcb & Hszb & Hmean).
  destruct Hres as [[Hfull ->] | (ctx & _ & Hctx & Hres)].
  { apply andb_true_iff in Hfull as [Hfull _].
    rewrite <- Hszb in Hv. apply (full_contains b _ Hfull) in Hv.
    symmetry. apply Hmean, Hv. }
  destruct (Hbw t1 ctx Hctx) as (Hcc & Hsc & _).
  assert (Hsz : sz ctx = sz b) by congruence.
  pose proof (Hsound t1 ctx Hctx) as Hin.
  destruct Hres as [[Himp ->] | [(_ & Hint & ->) | (intr & _ & Hint & _ & Hsing & ->)]].
  - symmetry. apply Hmean.
    apply (implies_exact_aux ctx b Hcc Hcb Hsz); assumption.
  - pose proof (intersect_post_ok b ctx Hcb Hcc (eq_sym Hsz)) as Hpost.
    rewrite Hint in Hpost. cbn [holdsb mk_false].
    destruct (holdsb rho t); [| reflexivity].
    destruct (Hpost (rho t1)). split; [apply Hmean; reflexivity | exact Hin].
  - pose proof (intersect_post_ok b ctx Hcb Hcc (eq_sym Hsz)) as Hpost.
    rewrite Hint in Hpost. destruct Hpost as (_ & _ & Hsup & (v0 & Hv0b & Hv0c) & _).
    cbn [holdsb mk_eq]. rewrite bv_val_numeral, (bv_val_other rho t1 Hnum).
    apply bool_eq_of_iff. rewrite Z.eqb_eq, <- Hmean. split.
    + intros Heq. rewrite Heq.
      rewrite <- (singleton_value intr v0 Hsing (Hsup v0 Hv0b Hv0c)). exact Hv0b.
    + intros Hvb. apply (singleton_value intr _ Hsing). apply Hsup; assumption.
Qed.

Lemma sound_init (rho : valuation) (p : bool) : sound rho (init p).
Proof. intros t i Hl. cbn in Hl. rewrite lookup_empty in Hl. discriminate Hl. Qed.

Lemma simplify_sound_witness :
  same_meaning (fun e => if bool_decide (e = App (OP_OTHER 0 (BV_sort 8)) []) then 4 else 0)
    (mk_not (mk_ule (App (OP_OTHER 0 (BV_sort 8)) []) (mk_numeral 255 8))) mk_false.
Proof.
  apply (simplify_sound true
           (fun e => if bool_decide (e = App (OP_OTHER 0 (BV_sort 8)) []) then 4 else 0)
           (init false)).
  - apply reachable_init.
  - reflexivity.
  - apply (fits_point (App (OP_OTHER 0 (BV_sort 8)) []) 4 8); [reflexivity | lia].
  - apply sound_init.
  - reflexivity.
Defined.

Lemma canonical_numeral_ok (i : interval) :
  canonical i -> well_sorted (mk_numeral (l i) (sz i)) = true.
Proof.
  intros Hc. destruct (canonical_fields i Hc) as (Hw & Hl & _).
  rewrite (uMaxInt_spec _ Hw) in Hl. destruct Hw as [Hw1 Hw2].
  cbn [well_sorted mk_numeral forallb].
  destruct (Z.leb_spec 1 (sz i)); [| lia].
  destruct (Z.leb_spec 0 (l i)); [| lia].
  destruct (Z.ltb_spec (l i) (2 ^ sz i)); [reflexivity | lia].
Qed.

(** X20: on a reachable state, a rewrite that [simplify] returns for a
    well-sorted term is well-sorted and has the sort of the term; the
    numerals it builds fit their width. *)
Theorem simplify_keeps_sort (vc : bool) (s : bv_bounds_simplifier) (t r : expr) :
  reachable vc s -> well_sorted t = true ->
  simplify t s = Some r ->
  well_sorted r = true /\ get_sort r = get_sort t.
Proof.
  intros Hr Hws Hsimp.
  destruct (reachable_inv vc s Hr) as (Hbw & _).
  apply simplify_inv in Hsimp as [(b & Hl & _ & ->) | Hsimp].
  { destruct (Hbw t b Hl) as (Hc & Hsort & _).
    unfold get_bv_size. rewrite Hsort.
    split; [apply canonical_numeral_ok, Hc | reflexivity]. }
  apply simplify_atom_inv in Hsimp as (Hbool & t1 & b0 & Hb & Hcases).
  apply bool_decide_eq_true in Hbool.
  destruct Hcases as [(_ & _ & ->) | (b & Hpol & [[_ ->] | (ctx & _ & Hctx & Hres)])];
    try (split; [reflexivity | symmetry; exact Hbool]).
  destruct Hres as [[_ ->] | [(_ & _ & ->) | (intr & _ & Hint & _ & _ & ->)]];
    try (split; [reflexivity | symmetry; exact Hbool]).
  pose proof (strip_not_well_sorted t false Hws) as Hws0.
  destruct (is_bound_wf _ t1 b0 Hws0 Hb) as (Hc0 & Ht0 & Hsort & _).
  destruct (is_bound_shapes _ t1 b0 Hws0 Hb) as (k & side & n & w & _ & _ & _ & _ & He & _).
  rewrite He in Hws0. apply well_sorted_atom_operand in Hws0.
  assert (Hb' : canonical b /\ sz b = sz b0).
  { destruct Hpol as [[_ Hn] | [_ ->]]; [| tauto].
    pose proof (negate_Some_tight_not_full b0 b Ht0 Hn) as Hnf.
    destruct (negate_tight_complement b0 Hc0 Ht0 Hnf) as (r & Hr' & Hcr & Hsr & _).
    rewrite Hn in Hr'. injection Hr' as <-. tauto. }
  destruct Hb' as [Hcb Hszb].
  destruct (Hbw t1 ctx Hctx) as (Hcc & Hsc & _).
  assert (Hsz : sz b = sz ctx) by congruence.
  pose proof (intersect_post_ok b ctx Hcb Hcc Hsz) as Hpost.
  rewrite Hint in Hpost. destruct Hpost as (Hci & Hsi & _).
  assert (Hw : get_bv_size t1 = sz intr).
  { unfold get_bv_size. rewrite Hsort. congruence. }
  rewrite Hw. pose proof (canonical_numeral_ok intr Hci) as Hnum.
  split; [| symmetry; exact Hbool].
  cbn [well_sorted mk_eq forallb] in *.
  rewrite Hws0, Hnum. cbn [andb].
  apply bool_decide_eq_true. rewrite Hsort. cbn [get_sort mk_numeral]. congruence.
Qed.

Lemma simplify_keeps_sort_witness :
  well_sorted mk_true = true /\
  get_sort mk_true = get_sort (mk_ule (App (OP_OTHER 0 (BV_sort 8)) []) (mk_numeral 255 8)).
Proof.
  apply (simplify_keeps_sort true (init true)
           (mk_ule (App (OP_OTHER 0 (BV_sort 8)) []) (mk_numeral 255 8))).
  - apply reachable_init.
  - reflexivity.
  - reflexivity.
Defined.

Lemma strip_not_negb (t : expr) (sign : bool) :
  strip_not t (negb sign) = ((strip_not t sign).1, negb (strip_not t sign).2).
Proof.
  revert sign. induction t as [t Hn | a IH] using strip_not_ind; intros sign.
  - rewrite !strip_not_unfold, Hn. reflexivity.
  - rewrite !(strip_not_unfold (mk_not a)). cbn [is_not mk_not]. apply IH.
Qed.

(** A term whose atom has a bound is Boolean, hence no key of the map. *)
Lemma bounded_atom_is_bool (t : expr) (sign : bool) (t1 : expr) (b : interval) :
  is_bound (strip_not t sign).1 = Some (t1, b) -> is_bool t = true.
Proof.
  revert sign. induction t as [t Hn | a IH] using strip_not_ind; intros sign.
  - rewrite strip_not_unfold, Hn. cbn [fst]. destruct t as [d args].
    unfold is_bound, is_bv_ule, is_bv_sle, is_eq. destruct d; try discriminate; reflexivity.
  - intros _. reflexivity.
Qed.

Lemma bool_not_key (s : bv_bounds_simplifier) (t : expr) :
  bounds_wf s -> is_bool t = true -> m_bound s !! t = None.
Proof.
  intros Hbw Hbool. destruct (m_bound s !! t) as [i |] eqn:Hl; [| reflexivity].
  destruct (Hbw t i Hl) as (_ & Hsort & _).
  apply bool_decide_eq_true in Hbool. congruence.
Qed.

Lemma point_value (x : expr) (v : Z) :
  (fun e : expr => if bool_decide (e = x) then v else 0) x = v.
Proof. cbv beta. rewrite bool_decide_eq_true_2 by reflexivity. reflexivity. Qed.

(** [simplify] decides an atom that the recorded interval decides. *)
Lemma simplify_decides (vc : bool) (s : bv_bounds_simplifier) (t t1 : expr)
    (b0 ctx : interval) :
  reachable vc s -> well_sorted t = true ->
  is_bound (strip_not t false).1 = Some (t1, b0) ->
  m_bound s !! t1 = Some ctx ->
  ((forall rho, fits rho -> contains ctx (rho t1) -> holdsb rho t = true) ->
   simplify t s = Some mk_true) /\
  ((forall rho, fits rho -> contains ctx (rho t1) -> holdsb rho t = false) ->
   simplify t s = Some mk_false).
Proof.
  intros Hr Hws Hb Hctx.
  destruct (reachable_inv vc s Hr) as (Hbw & _).
  pose proof (bounded_atom_is_bool t false t1 b0 Hb) as Hbool.
  destruct (Hbw t1 ctx Hctx) as (Hcc & Hsc & _).
  pose proof (strip_not_well_sorted t false Hws) as Hws0.
  destruct (is_bound_wf _ t1 b0 Hws0 Hb) as (Hc0 & Ht0 & Hsort & Hnum).
  (* every value of [ctx] is the value of [t1] under a fitting valuation *)
  assert (Hpoint : forall v, contains ctx v ->
            fits (fun e => if bool_decide (e = t1) then v else 0)).
  { intros v Hv. apply (fits_point t1 v (sz ctx) Hsc).
    pose proof (contains_range ctx v Hcc Hv) as Hrange.
    rewrite (uMaxInt_spec _ (proj1 Hcc)) in Hrange. lia. }
  pose proof (canonical_inhabited ctx Hcc) as Hv0.
  unfold simplify. rewrite (bool_not_key s t Hbw Hbool).
  unfold simplify_atom. rewrite Hbool. cbn [negb].
  pose proof (fun rho b => polarity_interval rho t t1 b0 b Hws) as Hpolar.
  pose proof (strip_not_fact (fun e => if bool_decide (e = t1) then l ctx else 0) t false)
    as Hfact0.
  pose proof (is_bound_exact (fun e => if bool_decide (e = t1) then l ctx else 0)
                _ t1 b0 Hws0 (Hpoint _ Hv0) Hb) as Hex0.
  unfold fact_holds in Hfact0.
  destruct (strip_not t false) as [t0 sign0]. cbn [fst snd negb] in *.
  rewrite Hb, Ht0, andb_true_r.
  assert (Hcases :
    (sign0 = true /\ negate b0 = None) \/
    exists b, ((sign0 = true /\ negate b0 = Some b) \/ (sign0 = false /\ b = b0)) /\
              (if sign0 then match negate b0 with
                             | Some nb => Some (false, nb)
                             | None => None
                             end
               else Some (sign0, b0)) = Some (false, b)).
  { destruct sign0; [| right; exists b0; tauto].
    destruct (negate b0) as [nb |]; [right; exists nb; tauto | left; tauto]. }
  destruct Hcases as [[-> Hn] | (b & Hpol & ->)].
  { rewrite Hn. split; [| reflexivity].
    intros Htrue. exfalso.
    specialize (Htrue _ (Hpoint _ Hv0)). cbv beta in Htrue. rewrite point_value in Htrue.
    specialize (Htrue Hv0). cbn [negb] in Hfact0.
    apply Hfact0 in Htrue.
    apply negate_None_full in Hn as [_ Hfull].
    assert (Hin : contains b0 (l ctx)).
    { apply full_contains; [exact Hfull |].
      replace (sz b0) with (sz ctx) by congruence.
      apply (contains_range ctx _ Hcc Hv0). }
    rewrite <- (point_value t1 (l ctx)) in Hin. apply Hex0 in Hin. congruence. }
  assert (Hmean : forall v, contains ctx v ->
            canonical b /\ sz b = sz b0 /\
            (contains b v <->
             holdsb (fun e => if bool_decide (e = t1) then v else 0) t = true)).
  { intros v Hv.
    destruct (Hpolar (fun e => if bool_decide (e = t1) then v else 0) b (Hpoint v Hv)
                Hb Hpol) as (H1 & H2 & H3).
    cbv beta in H3. rewrite point_value in H3. tauto. }
  destruct (Hmean _ Hv0) as (Hcb & Hszb & _).
  assert (Hsz : sz ctx = sz b) by congruence.
  rewrite Hctx. split.
  - intros Htrue.
    assert (Hsub : forall v, contains ctx v -> contains b v).
    { intros v Hv. apply (Hmean v Hv). apply (Htrue _ (Hpoint v Hv)).
      cbv beta. rewrite point_value. exact Hv. }
    destruct (is_full b && tight b); [reflexivity |].
    rewrite (proj2 (implies_exact_aux ctx b Hcc Hcb Hsz) Hsub). reflexivity.
  - intros Hfalse.
    assert (Hdis : forall v, contains ctx v -> ~ contains b v).
    { intros v Hv Hvb. apply (Hmean v Hv) in Hvb.
      rewrite (Hfalse _ (Hpoint v Hv)) in Hvb; [discriminate Hvb |].
      cbv beta. rewrite point_value. exact Hv. }
    destruct (is_full b && tight b) eqn:Hft.
    { exfalso. apply andb_true_iff in Hft as [Hfull _].
      apply (Hdis _ Hv0). apply full_contains; [exact Hfull |].
      rewrite <- Hsz. apply (contains_range ctx _ Hcc Hv0). }
    destruct (implies ctx b) eqn:Himp.
    { exfalso. apply (Hdis _ Hv0).
      apply (proj1 (implies_exact_aux ctx b Hcc Hcb Hsz) Himp), Hv0. }
    pose proof (intersect_post_ok b ctx Hcb Hcc (eq_sym Hsz)) as Hpost.
    destruct (intersect b ctx) as [intr |]; [| reflexivity].
    exfalso. destruct Hpost as (_ & _ & _ & (v & Hvb & Hvc) & _).
    apply (Hdis v Hvc Hvb).
Qed.

(** X24: [simplify] is complete for the atoms the bound map decides.  On
    a reachable state, for a well-sorted term whose atom bounds a
    subexpression with a recorded interval: if the term is true for
    every value of that interval, [simplify] rewrites it to [true]; if
    it is false for every value of that interval, to [false]. *)
Theorem simplify_complete (vc : bool) (s : bv_bounds_simplifier) (t t1 : expr)
    (b0 ctx : interval) :
  reachable vc s -> well_sorted t = true ->
  is_bound (strip_not t false).1 = Some (t1, b0) ->
  m_bound s !! t1 = Some ctx ->
  ((forall rho, fits rho -> contains ctx (rho t1) -> holdsb rho t = true) ->
   simplify t s = Some mk_true) /\
  ((forall rho, fits rho -> contains ctx (rho t1) -> holdsb rho t = false) ->
   simplify t s = Some mk_false).
Proof. apply simplify_decides. Qed.

Lemma simplify_complete_witness :
  exists s,
    assert_expr true (mk_ule (App (OP_OTHER 0 (BV_sort 8)) []) (mk_numeral 5 8)) false
                (init false) = Returned (true, s) /\
    simplify (mk_ule (App (OP_OTHER 0 (BV_sort 8)) []) (mk_numeral 200 8)) s = Some mk_true.
Proof.
  eexists. split; [vm_compute; reflexivity |].
  apply (simplify_complete true _ _ (App (OP_OTHER 0 (BV_sort 8)) [])
           (mk_interval 0 200 8 true) (mk_interval 0 5 8 true)).
  - apply (reachable_assert true (init false) _
             (mk_ule (App (OP_OTHER 0 (BV_sort 8)) []) (mk_numeral 5 8)) false true).
    + apply reachable_init.
    + reflexivity.
    + vm_compute; reflexivity.
  - reflexivity.
  - vm_compute; reflexivity.
  - vm_compute; reflexivity.
  - intros rho _ Hin. unfold contains in Hin. cbn in Hin.
    cbn [holdsb mk_ule]. rewrite bv_val_numeral, bv_val_other by reflexivity.
    apply Z.leb_le. lia.
Defined.

(** X21: a fact that was just recorded is decided by [simplify].  On a
    reachable state, when the fact [t] bounds a subexpression that has no
    entry in the bound map, [assert_expr] records the bound, and on the
    new state [simplify] rewrites [t] to [true] and [not t] to
    [false]. *)
Theorem asserted_fact_simplifies (vc : bool) (s : bv_bounds_simplifier) (t t1 : expr)
    (b : interval) :
  reachable vc s -> well_sorted t = true ->
  polarity_bound t false t1 b -> m_bound s !! t1 = None ->
  exists s', assert_expr vc t false s = Returned (true, s') /\
             m_bound s' !! t1 = Some b /\
             simplify t s' = Some mk_true /\
             simplify (mk_not t) s' = Some mk_false.
Proof.
  intros Hr Hws Hpb Hnone.
  destruct (polarity_bound_asserted vc t false t1 b Hpb) as [Hab Hvv].
  pose proof (assert_expr_by_bound vc t false s) as Hstep.
  rewrite Hvv, andb_false_r, Hab, Hnone in Hstep.
  eexists. split; [exact Hstep |].
  match type of Hstep with _ = Returned (true, ?s1) => set (s' := s1) in * end.
  assert (Hr' : reachable vc s')
    by exact (reachable_assert vc s s' t false true Hr Hws Hstep).
  assert (Hl : m_bound s' !! t1 = Some b) by apply lookup_insert_eq.
  split; [exact Hl |].
  destruct Hpb as (b0 & Hb & Hsign).
  assert (Hpol : ((strip_not t false).2 = true /\ negate b0 = Some b) \/
                 ((strip_not t false).2 = false /\ b = b0)).
  { destruct (strip_not t false).2; [left | right]; tauto. }
  assert (Hmean : forall rho, fits rho -> contains b (rho t1) <-> holdsb rho t = true).
  { intros rho Hfit. apply (polarity_interval rho t t1 b0 b Hws Hfit Hb Hpol). }
  split.
  - apply (proj1 (simplify_decides vc s' t t1 b0 b Hr' Hws Hb Hl)).
    intros rho Hfit Hin. apply (Hmean rho Hfit), Hin.
  - assert (Hb' : is_bound (strip_not (mk_not t) false).1 = Some (t1, b0)).
    { rewrite (strip_not_unfold (mk_not t)). cbn [is_not mk_not].
      change (negb false) with (negb (negb true)). rewrite negb_involutive.
      change true with (negb false). rewrite strip_not_negb. exact Hb. }
    assert (Hws' : well_sorted (mk_not t) = true).
    { unfold mk_not. cbn [well_sorted forallb]. rewrite Hws.
      apply (bounded_atom_is_bool t false t1 b0 Hb). }
    apply (proj2 (simplify_decides vc s' (mk_not t) t1 b0 b Hr' Hws' Hb' Hl)).
    intros rho Hfit Hin. apply (Hmean rho Hfit) in Hin.
    change (holdsb rho (mk_not t)) with (negb (holdsb rho t)). rewrite Hin. reflexivity.
Qed.

Lemma asserted_fact_simplifies_witness :
  exists s',
    assert_expr true (mk_ule (App (OP_OTHER 0 (BV_sort 8)) []) (mk_numeral 5 8)) false
                (init false) = Returned (true, s') /\
    m_bound s' !! App (OP_OTHER 0 (BV_sort 8)) [] = Some (mk_interval 0 5 8 true) /\
    simplify (mk_ule (App (OP_OTHER 0 (BV_sort 8)) []) (mk_numeral 5 8)) s' = Some mk_true /\
    simplify (mk_not (mk_ule (App (OP_OTHER 0 (BV_sort 8)) []) (mk_numeral 5 8))) s'
    = Some mk_false.
Proof.
  apply (asserted_fact_simplifies true (init false)).
  - apply reachable_init.
  - reflexivity.
  - exists (mk_interval 0 5 8 true). split; vm_compute; reflexivity.
  - reflexivity.
Defined.

(** X22: an asserted equality with a literal is propagated.  When the
    bit-vector term [x], not a numeral, has no entry in the bound map and
    the width [w] is at most 64, the assert of [x = c] (written either
    way round) succeeds, and [simplify] then rewrites [x] itself to the
    numeral [c] of the width of [x]. *)
Theorem equality_propagates (vc : bool) (s : bv_bounds_simplifier) (literal_left : bool)
    (c w : Z) (x : expr) :
  w <= 64 -> is_numeral_b x = false -> m_bound s !! x = None ->
  exists s', assert_expr vc (atom Cmp_eq literal_left c w x) false s = Returned (true, s') /\
             simplify x s' = Some (mk_numeral c (get_bv_size x)).
Proof.
  intros Hw Hnum Hnone.
  pose proof (assert_expr_by_bound vc (atom Cmp_eq literal_left c w x) false s) as Hstep.
  unfold verify_violated, asserted_bound in Hstep.
  rewrite (strip_not_cmp Cmp_eq literal_left c w x false) in Hstep.
  cbn [fst snd] in Hstep.
  rewrite (is_bound_atom Cmp_eq literal_left c w x Hw Hnum) in Hstep.
  cbn [apply_sign] in Hstep. rewrite andb_false_r, Hnone in Hstep.
  eexists. split; [exact Hstep |].
  unfold simplify. cbn [m_bound set_bounds]. rewrite lookup_insert_eq.
  unfold shape_interval, interval_ctor. rewrite Z.ltb_irrefl.
  unfold is_singleton. cbn [l h]. rewrite Z.eqb_refl. reflexivity.
Qed.

Lemma equality_propagates_witness :
  exists s',
    assert_expr true (mk_eq (App (OP_OTHER 0 (BV_sort 8)) []) (mk_numeral 7 8)) false
                (init true) = Returned (true, s') /\
    simplify (App (OP_OTHER 0 (BV_sort 8)) []) s' = Some (mk_numeral 7 8).
Proof.
  apply (equality_propagates true (init true) false 7 8 (App (OP_OTHER 0 (BV_sort 8)) [])).
  - lia.
  - reflexivity.
  - reflexivity.
Defined.

(** * Properties of the memo tables *)

Lemma fold_union_elem (args : list expr) (set : gset expr) (x : expr) :
  x ∈ fold_left (fun set a => set ∪ expr_vars a) args set <->
  x ∈ set \/ exists a, In a args /\ x ∈ expr_vars a.
Proof.
  revert set. induction args as [| a args IH]; intros set; cbn [fold_left].
  - split; [tauto | intros [H | (a & [] & _)]; exact H].
  - rewrite IH, elem_of_union. split.
    + intros [[H | H] | (a' & Hin & H)]; [tauto | |].
      * right. exists a. split; [left; reflexivity | exact H].
      * right. exists a'. split; [right; exact Hin | exact H].
    + intros [H | (a' & [<- | Hin] & H)]; [tauto | tauto |].
      right. exists a'. tauto.
Qed.

(** [expr_vars t] is the set of the subterms of [t] that are not
    numerals. *)
Lemma expr_vars_subterm (t e : expr) :
  e ∈ expr_vars t <-> subterm e t /\ is_numeral_b e = false.
Proof.
  induction t as [d args IH] using expr_ind_args.
  cbn [expr_vars]. rewrite fold_union_elem. split.
  - intros [H | (a & Hin & H)].
    + destruct (is_numeral_b (App d args)) eqn:Hn; [set_solver |].
      apply elem_of_singleton in H. subst e. split; [constructor | exact Hn].
    + rewrite Forall_forall in IH.
      apply (IH a (proj2 (list_elem_of_In _ _) Hin)) in H as [Hs Hn].
      split; [apply (subterm_arg e d args a Hin Hs) | exact Hn].
  - intros [Hs Hn]. inversion Hs as [Heq | d' args' a Hin Hsa Heq].
    + left. subst e. rewrite Hn. set_solver.
    + subst d' args'. right. exists a. split; [exact Hin |].
      rewrite Forall_forall in IH. apply (IH a (proj2 (list_elem_of_In _ _) Hin)). tauto.
Qed.

Lemma add_arg_vars_mono (args : list expr) :
  Forall (fun a => forall cache, cache ⊆ (get_expr_vars a cache).2) args ->
  forall set cache, cache ⊆ (add_arg_vars get_expr_vars args set cache).2.
Proof.
  induction 1 as [| a args Ha _ IH]; intros set cache; [reflexivity |].
  cbn [add_arg_vars]. specialize (Ha cache).
  destruct (get_expr_vars a cache) as [set_arg cache']. cbn [snd] in Ha.
  etrans; [exact Ha | apply IH].
Qed.

(** [get_expr_vars] only adds entries to its table. *)
Lemma get_expr_vars_mono (t : expr) (cache : gmap expr (gset expr)) :
  cache ⊆ (get_expr_vars t cache).2.
Proof.
  revert cache. induction t as [d args IH] using expr_ind_args. intros cache.
  rewrite get_expr_vars_unfold.
  destruct (cache !! App d args) as [entry |] eqn:Hl; [reflexivity |].
  pose proof (add_arg_vars_mono args IH
                (if is_numeral_b (App d args) then ∅ else {[ App d args ]}) cache) as Hm.
  destruct (add_arg_vars get_expr_vars args _ cache) as [set cache'].
  cbn [snd] in *. apply insert_subseteq_r; [exact Hl | exact Hm].
Qed.

Lemma get_expr_vars_entry (t : expr) (cache : gmap expr (gset expr)) :
  (get_expr_vars t cache).2 !! t = Some (get_expr_vars t cache).1.
Proof.
  destruct t as [d args]. rewrite get_expr_vars_unfold.
  destruct (cache !! App d args) as [entry |] eqn:Hl; [exact Hl |].
  destruct (add_arg_vars get_expr_vars args _ cache) as [set cache'].
  cbn [fst snd]. apply lookup_insert_eq.
Qed.

(** X12: [get_expr_vars] with a consistent table returns the set of the
    subterms of [t] that are not numerals; it keeps the table
    consistent, only adds entries, records the set of [t], and a second
    call returns the same set and leaves the table as it is. *)
Theorem get_expr_vars_memo (t : expr) (cache : gmap expr (gset expr)) :
  vars_ok cache ->
  (forall e, e ∈ (get_expr_vars t cache).1 <-> subterm e t /\ is_numeral_b e = false) /\
  vars_ok (get_expr_vars t cache).2 /\
  cache ⊆ (get_expr_vars t cache).2 /\
  (get_expr_vars t cache).2 !! t = Some (get_expr_vars t cache).1 /\
  get_expr_vars t (get_expr_vars t cache).2 = get_expr_vars t cache.
Proof.
  intros Hok. destruct (get_expr_vars_ok t cache Hok) as [Hset Hok'].
  split; [intros e; rewrite Hset; apply expr_vars_subterm |].
  split; [exact Hok' |]. split; [apply get_expr_vars_mono |].
  pose proof (get_expr_vars_entry t cache) as Hentry.
  split; [exact Hentry |].
  destruct (get_expr_vars t cache) as [set cache']. cbn [fst snd] in *.
  destruct t as [d args]. rewrite get_expr_vars_unfold, Hentry. reflexivity.
Qed.

Lemma get_expr_vars_memo_witness :
  vars_ok ∅ /\
  (get_expr_vars (mk_ule (App (OP_OTHER 0 (BV_sort 8)) []) (mk_numeral 5 8)) ∅).2
    !! mk_ule (App (OP_OTHER 0 (BV_sort 8)) []) (mk_numeral 5 8)
  = Some (get_expr_vars (mk_ule (App (OP_OTHER 0 (BV_sort 8)) []) (mk_numeral 5 8)) ∅).1.
Proof.
  assert (H : vars_ok ∅) by (intros t set Hl; rewrite lookup_empty in Hl; discriminate Hl).
  split; [exact H |].
  apply (get_expr_vars_memo
           (mk_ule (App (OP_OTHER 0 (BV_sort 8)) []) (mk_numeral 5 8)) ∅ H).
Defined.

Lemma expr_has_bounds_unfold (d : func_decl) (args : list expr) (cache : gmap expr bool) :
  expr_has_bounds (App d args) cache =
  match cache !! App d args with
  | Some hb => (hb, cache)
  | None =>
    let '(hb, cache') :=
      has_bounds_args expr_has_bounds args (is_numeral_cmp (App d args)) cache in
    (hb, <[App d args := hb]> cache')
  end.
Proof. reflexivity. Qed.

Lemma has_bounds_args_ok (args : list expr) :
  Forall (fun a => forall cache, bound_exprs_ok cache ->
            (expr_has_bounds a cache).1 = has_bounds a /\
            bound_exprs_ok (expr_has_bounds a cache).2 /\
            cache ⊆ (expr_has_bounds a cache).2) args ->
  forall hb cache, bound_exprs_ok cache ->
    (has_bounds_args expr_has_bounds args hb cache).1 = hb || existsb has_bounds args /\
    bound_exprs_ok (has_bounds_args expr_has_bounds args hb cache).2 /\
    cache ⊆ (has_bounds_args expr_has_bounds args hb cache).2.
Proof.
  induction 1 as [| a args Ha _ IH]; intros hb cache Hok.
  - cbn. rewrite orb_false_r. split; [reflexivity |]. split; [exact Hok | reflexivity].
  - cbn [has_bounds_args existsb]. destruct hb.
    + cbn. split; [reflexivity |]. split; [exact Hok | reflexivity].
    + destruct (Ha cache Hok) as (H1 & H2 & H3).
      destruct (expr_has_bounds a cache) as [hb' cache']. cbn [fst snd] in H1, H2, H3.
      subst hb'. destruct (IH (has_bounds a) cache' H2) as (H4 & H5 & H6).
      cbn [orb]. split; [exact H4 |]. split; [exact H5 |]. etrans; [exact H3 | exact H6].
Qed.

Lemma expr_has_bounds_ok (t : expr) (cache : gmap expr bool) :
  bound_exprs_ok cache ->
  (expr_has_bounds t cache).1 = has_bounds t /\
  bound_exprs_ok (expr_has_bounds t cache).2 /\
  cache ⊆ (expr_has_bounds t cache).2.
Proof.
  revert cache. induction t as [d args IH] using expr_ind_args. intros cache Hok.
  rewrite expr_has_bounds_unfold.
  destruct (cache !! App d args) as [hb |] eqn:Hl.
  - split; [apply (Hok _ _ Hl) |]. split; [exact Hok | reflexivity].
  - destruct (has_bounds_args_ok args IH (is_numeral_cmp (App d args)) cache Hok)
      as (H1 & H2 & H3).
    destruct (has_bounds_args expr_has_bounds args _ cache) as [hb cache'].
    cbn [fst snd] in *.
    assert (Hhb : hb = has_bounds (App d args)) by exact H1.
    split; [exact Hhb |]. split.
    + intros t' b' Hl'. destruct (decide (App d args = t')) as [<- | Hne].
      * rewrite lookup_insert_eq in Hl'. injection Hl' as <-. exact Hhb.
      * rewrite lookup_insert_ne in Hl' by exact Hne. apply (H2 _ _ Hl').
    + apply insert_subseteq_r; [exact Hl | exact H3].
Qed.

(** [has_bounds t] tells whether a comparison with a numeral operand
    occurs in [t]. *)
Lemma has_bounds_subterm (t : expr) :
  has_bounds t = true <-> exists e, subterm e t /\ is_numeral_cmp e = true.
Proof.
  induction t as [d args IH] using expr_ind_args.
  cbn [has_bounds]. rewrite orb_true_iff, existsb_exists. rewrite Forall_forall in IH.
  split.
  - intros [H | (a & Hin & H)].
    + exists (App d args). split; [constructor | exact H].
    + apply (IH a (proj2 (list_elem_of_In _ _) Hin)) in H as (e & Hs & He).
      exists e. split; [apply (subterm_arg e d args a Hin Hs) | exact He].
  - intros (e & Hs & He). inversion Hs as [Heq | d' args' a Hin Hsa Heq].
    + left. subst e. exact He.
    + subst d' args'. right. exists a. split; [exact Hin |].
      apply (IH a (proj2 (list_elem_of_In _ _) Hin)). exists e. tauto.
Qed.

(** X13: [expr_has_bounds] with a consistent table answers whether a
    comparison ([<=] unsigned or signed, or [=]) with a numeral as first
    or second operand occurs in [t]; the early exit of its loop does not
    change the answer.  It keeps the table consistent, only adds
    entries, and a second call gives the same answer and leaves the
    table as it is. *)
Theorem expr_has_bounds_memo (t : expr) (cache : gmap expr bool) :
  bound_exprs_ok cache ->
  ((expr_has_bounds t cache).1 = true <->
   exists e, subterm e t /\ is_numeral_cmp e = true) /\
  bound_exprs_ok (expr_has_bounds t cache).2 /\
  cache ⊆ (expr_has_bounds t cache).2 /\
  expr_has_bounds t (expr_has_bounds t cache).2 = expr_has_bounds t cache.
Proof.
  intros Hok. destruct (expr_has_bounds_ok t cache Hok) as (H1 & H2 & H3).
  split; [rewrite H1; apply has_bounds_subterm |].
  split; [exact H2 |]. split; [exact H3 |].
  destruct t as [d args]. rewrite (expr_has_bounds_unfold d args cache).
  destruct (cache !! App d args) as [hb |] eqn:Hl.
  - cbn [snd]. rewrite expr_has_bounds_unfold, Hl. reflexivity.
  - destruct (has_bounds_args expr_has_bounds args _ cache) as [hb cache'].
    cbn [snd]. rewrite expr_has_bounds_unfold, lookup_insert_eq. reflexivity.
Qed.

Lemma bound_exprs_ok_empty : bound_exprs_ok ∅.
Proof. intros t b Hl. rewrite lookup_empty in Hl. discriminate Hl. Qed.

Lemma expr_has_bounds_memo_witness :
  bound_exprs_ok ∅ /\
  (expr_has_bounds
     (mk_not (mk_ule (App (OP_OTHER 0 (BV_sort 8)) []) (mk_numeral 5 8))) ∅).1 = true.
Proof.
  split; [exact bound_exprs_ok_empty |].
  apply (proj1 (expr_has_bounds_memo
                  (mk_not (mk_ule (App (OP_OTHER 0 (BV_sort 8)) []) (mk_numeral 5 8)))
                  ∅ bound_exprs_ok_empty)).
  exists (mk_ule (App (OP_OTHER 0 (BV_sort 8)) []) (mk_numeral 5 8)).
  split; [| reflexivity].
  apply (subterm_arg _ OP_NOT [mk_ule (App (OP_OTHER 0 (BV_sort 8)) []) (mk_numeral 5 8)]
           (mk_ule (App (OP_OTHER 0 (BV_sort 8)) []) (mk_numeral 5 8))).
  - left. reflexivity.
  - constructor.
Defined.







(** * The [propagate_eq] parameter *)



(** * The fast paths of [intersect] *)

(** X26: [intersect] is idempotent, and the full range is neutral for
    it: with a full first operand the result is the second operand; with
    a full second operand of the same width the result has the ends of
    the first operand (the [tight] flag can be that of the second
    operand, when both are full). *)
Theorem intersect_idempotent_neutral (a b : interval) :
  intersect a a = Some a /\
  (is_full a = true -> intersect a b = Some b) /\
  (is_full b = true -> sz a = sz b -> same_range (intersect a b) (Some a)).
Proof.
  split; [| split].
  - rewrite intersect_unfold, interval_eqb_refl, orb_true_r. reflexivity.
  - intros Hf. rewrite intersect_unfold, Hf. reflexivity.
  - intros Hf Hsz. rewrite intersect_unfold.
    destruct (is_full a) eqn:Ha; cbn [orb].
    + apply same_range_full; [exact Hf | exact Ha | congruence].
    + destruct (interval_eqb a b) eqn:He.
      * apply (same_range_eqb a b He Hsz).
      * rewrite Hf. apply same_range_refl.
Qed.

Lemma intersect_idempotent_neutral_witness :
  same_range (intersect (mk_interval 3 9 8 true) (mk_interval 0 255 8 false))
             (Some (mk_interval 3 9 8 true)).
Proof.
  apply (intersect_idempotent_neutral (mk_interval 3 9 8 true) (mk_interval 0 255 8 false));
    reflexivity.
Defined.

